(** * Oro haptic paddle: the I2S audio driver (audio_i2s.h / audio_i2s.cpp)

    A shallow embedding of [AudioI2S] and the properties of its tone
    synthesiser, transfer scheduler and playback orchestrator.

    The driver is sequential code over memory-mapped registers.  It is
    modelled as a state-and-result monad over the driver object; everything
    the code does to the outside world (register writes, [delay], [yield],
    [Serial] output, pin control) is appended to a log, and everything it
    reads from the outside world (volatile event registers, [millis()],
    [digitalRead]) comes from a [Platform], one stream of observations per
    input.  Busy-wait loops take a bound on their iterations ([fuel]); a
    loop that exceeds it yields [OutOfFuel].

    Floating-point values are rationals; the roundings to [float] and
    [double] and the [sin] of the C library belong to the platform, and
    the samples computed are compared with the sine of the real
    numbers. *)

From Stdlib Require Import Reals Qreals Lra Machin.
From Stdlib Require Import ZArith QArith Qround Lia Bool String List.
From stdpp Require Import base tactics option list functions.
Import ListNotations.

Local Open Scope Z_scope.

(** ** Fixed-width integers *)

Definition u8 (x : Z) : Z := x mod 2 ^ 8.
Definition u16 (x : Z) : Z := x mod 2 ^ 16.
Definition u32 (x : Z) : Z := x mod 2 ^ 32.

(** [int16_t] from an integer: two's-complement wrap-around. *)
Definition s16 (x : Z) : Z := (x + 2 ^ 15) mod 2 ^ 16 - 2 ^ 15.

(** ** Configuration constants (audio_i2s.h) *)

Definition SAMPLE_RATE : Z := 16000.
Definition AUDIO_BUFFER_SIZE : Z := 256.
Definition MAX_TONE_DURATION_MS : Z := 2000.
Definition I2S_SCK_PIN : Z := 3.
Definition I2S_LRCK_PIN : Z := 28.
Definition I2S_SDOUT_PIN : Z := 2.

(** ** Arduino core helpers used by the driver *)

Module Arduino.

(** [constrain(amt, low, high)] *)
Definition constrain (amt low high : Z) : Z :=
  if amt <? low then low else if amt >? high then high else amt.

(** [map(x, in_min, in_max, out_min, out_max)], integer division as in C. *)
Definition map (x in_min in_max out_min out_max : Z) : Z :=
  Z.quot ((x - in_min) * (out_max - out_min)) (in_max - in_min) + out_min.

(** [min(a, b)] and [abs(x)] *)
Definition min (a b : Z) : Z := if a <? b then a else b.
Definition abs (x : Z) : Z := if x >? 0 then x else - x.

(** [#define PI 3.1415926535897932384626433832795], the literal as
    written; the code uses it as a [double]. *)
Definition PI : Q :=
  31415926535897932384626433832795 # 10000000000000000000000000000000.

End Arduino.

(** ** Registers, inputs and effects *)

(** The registers of [NRF_CLOCK] and [NRF_I2S] the driver touches. *)
Inductive Reg : Set :=
| CLOCK_EVENTS_HFCLKSTARTED | CLOCK_TASKS_HFCLKSTART
| I2S_ENABLE
| PSEL_SCK | PSEL_LRCK | PSEL_SDOUT | PSEL_SDIN
| EVENTS_RXPTRUPD | EVENTS_TXPTRUPD | EVENTS_STOPPED
| INTENCLR
| CONFIG_MODE | CONFIG_SWIDTH | CONFIG_ALIGN | CONFIG_FORMAT
| CONFIG_CHANNELS | CONFIG_MCKEN | CONFIG_TXEN | CONFIG_RXEN
| CONFIG_MCKFREQ | CONFIG_RATIO
| TXD_PTR | RXTXD_MAXCNT
| TASKS_START | TASKS_STOP.

#[global] Instance Reg_eq_dec : EqDecision Reg.
Proof. solve_decision. Defined.

(** What the code reads from the world: three hardware event flags, the
    millisecond clock, and the level of the amplifier's SD_MODE pin. *)
Inductive Input : Set :=
| InHFCLKSTARTED | InTXPTRUPD | InSTOPPED | InMillis | InSdMode.

#[global] Instance Input_eq_dec : EqDecision Input.
Proof. solve_decision. Defined.

Inductive SerialItem : Set :=
| Txt (s : string)
| Dec (z : Z)
| Hex (z : Z).

Inductive PinLevel : Set := LOW | HIGH.

(** One entry of the log.  [EvSerial x true] is [Serial.println(x)],
    [EvSerial x false] is [Serial.print(x)]. *)
Inductive Event : Set :=
| EvRegWrite (r : Reg) (v : Z)
| EvDelay (ms : Z)
| EvYield
| EvSerial (x : SerialItem) (newline : bool)
| EvPinModeOutput (pin : Z)
| EvDigitalWrite (pin : Z) (level : PinLevel).

(** ** The platform

    Everything the translation unit takes from outside: the observations
    of each input in the order the code makes them, the address of the
    buffer, the constants of the vendor headers, and the floating-point
    unit and [sin] of the C library.

    The two macros that audio_i2s.cpp defines under [#ifndef] after
    including <nrf.h> are given as the header has them: [Some v] where
    <nrf.h> defines the macro as [v], [None] where it does not.

    Floating-point values are rationals.  [float_round] rounds a real
    value to [float] and [double_round] to [double]; every floating-point
    operation of the code is the exact operation followed by the rounding
    of its type.  [float_sin x] is the value [sin] returns for the [float]
    argument [x].  Its type is that of the overload the compiler selects
    for a [float] argument: [float] with the overloads of <cmath> in
    scope, [double] with the C function of <math.h> alone;
    [sin_returns_float] says which. *)
Record Platform : Type := {
  hw_read : Input -> nat -> Z;
  buffer_addr : Z;
  SD_MODE_PIN : Z;
  I2S_CONFIG_MODE_MODE_Master : Z;
  I2S_CONFIG_SWIDTH_SWIDTH_16Bit : Z;
  I2S_CONFIG_ALIGN_ALIGN_Left : Z;
  I2S_CONFIG_FORMAT_FORMAT_I2S : Z;
  I2S_CONFIG_CHANNELS_CHANNELS_Left : Z;
  I2S_CONFIG_MCKEN_MCKEN_Enabled : Z;
  I2S_CONFIG_TXEN_TXEN_Enabled : Z;
  I2S_CONFIG_RXEN_RXEN_Disabled : Z;
  nrf_MCKFREQ_32MDIV32 : option Z;
  nrf_RATIO_64X : option Z;
  float_round : Q -> Q;
  double_round : Q -> Q;
  float_sin : Q -> Q;
  sin_returns_float : bool
}.

(** The guarded definitions at the top of audio_i2s.cpp:
    [#ifndef I2S_CONFIG_MCKFREQ_MCKFREQ_32MDIV32] ... [0x70000000UL] and
    [#ifndef I2S_CONFIG_RATIO_RATIO_64X] ... [2UL].  The fallback is used
    only where <nrf.h> has not defined the macro. *)
Definition I2S_CONFIG_MCKFREQ_MCKFREQ_32MDIV32 (p : Platform) : Z :=
  default 0x70000000 (nrf_MCKFREQ_32MDIV32 p).
Definition I2S_CONFIG_RATIO_RATIO_64X (p : Platform) : Z :=
  default 2 (nrf_RATIO_64X p).

(** ** The driver object *)

Record Driver : Type := {
  audioBuffer : list Z;        (* uint32_t audioBuffer[AUDIO_BUFFER_SIZE] *)
  initialized : bool;
  playing : bool;
  firstCall : bool;            (* the static local of generateTone *)
  regs : Reg -> Z;             (* last value written to each register *)
  cursor : Input -> nat;       (* observations consumed, per input *)
  log : list Event             (* effects so far, oldest first *)
}.

Definition set_audioBuffer (b : list Z) (s : Driver) : Driver :=
  {| audioBuffer := b; initialized := initialized s; playing := playing s;
     firstCall := firstCall s; regs := regs s; cursor := cursor s; log := log s |}.
Definition set_initialized (b : bool) (s : Driver) : Driver :=
  {| audioBuffer := audioBuffer s; initialized := b; playing := playing s;
     firstCall := firstCall s; regs := regs s; cursor := cursor s; log := log s |}.
Definition set_playing (b : bool) (s : Driver) : Driver :=
  {| audioBuffer := audioBuffer s; initialized := initialized s; playing := b;
     firstCall := firstCall s; regs := regs s; cursor := cursor s; log := log s |}.
Definition set_firstCall (b : bool) (s : Driver) : Driver :=
  {| audioBuffer := audioBuffer s; initialized := initialized s; playing := playing s;
     firstCall := b; regs := regs s; cursor := cursor s; log := log s |}.
Definition set_regs (r : Reg -> Z) (s : Driver) : Driver :=
  {| audioBuffer := audioBuffer s; initialized := initialized s; playing := playing s;
     firstCall := firstCall s; regs := r; cursor := cursor s; log := log s |}.
Definition set_cursor (c : Input -> nat) (s : Driver) : Driver :=
  {| audioBuffer := audioBuffer s; initialized := initialized s; playing := playing s;
     firstCall := firstCall s; regs := regs s; cursor := c; log := log s |}.
Definition set_log (l : list Event) (s : Driver) : Driver :=
  {| audioBuffer := audioBuffer s; initialized := initialized s; playing := playing s;
     firstCall := firstCall s; regs := regs s; cursor := cursor s; log := l |}.

(** A freshly constructed [AudioI2S]: the in-class initialisers give
    [initialized = false] and [playing = false]. *)
Definition new_driver : Driver :=
  {| audioBuffer := replicate (Z.to_nat AUDIO_BUFFER_SIZE) 0;
     initialized := false; playing := false; firstCall := true;
     regs := fun _ => 0; cursor := fun _ => O; log := [] |}.

(** ** The monad *)

Inductive Result (A : Type) : Type :=
| Ok (a : A) (s : Driver)
| OutOfFuel
| OutOfBounds.

Arguments Ok {A} a s.
Arguments OutOfFuel {A}.
Arguments OutOfBounds {A}.

Definition M (A : Type) : Type := Driver -> Result A.

Definition ret {A} (a : A) : M A := fun s => Ok a s.

Definition bind {A B} (m : M A) (k : A -> M B) : M B :=
  fun s => match m s with
           | Ok a s' => k a s'
           | OutOfFuel => OutOfFuel
           | OutOfBounds => OutOfBounds
           end.

Notation "x <- m ;; k" := (bind m (fun x => k))
  (at level 100, m at next level, k at level 200, right associativity).
Notation "m ;; k" := (bind m (fun _ => k))
  (at level 100, k at level 200, right associativity).

(** *** Primitive effects *)

Definition emit (e : Event) : M unit :=
  fun s => Ok tt (set_log (log s ++ [e]) s).

Definition reg_write (r : Reg) (v : Z) : M unit :=
  fun s => Ok tt (set_log (log s ++ [EvRegWrite r v]) (set_regs (<[r := v]> (regs s)) s)).

(** Reading back a configuration register gives what was written. *)
Definition reg_read (r : Reg) : M Z := fun s => Ok (regs s r) s.

(** One observation of an input; the next read of it sees the next one. *)
Definition observe (p : Platform) (i : Input) : M Z :=
  fun s => Ok (u32 (hw_read p i (cursor s i)))
              (set_cursor (<[i := S (cursor s i)]> (cursor s)) s).

Definition millis (p : Platform) : M Z := observe p InMillis.
Definition delay (ms : Z) : M unit := emit (EvDelay ms).
Definition yield : M unit := emit EvYield.
Definition print (x : SerialItem) : M unit := emit (EvSerial x false).
Definition println (x : SerialItem) : M unit := emit (EvSerial x true).

Definition get {A} (f : Driver -> A) : M A := fun s => Ok (f s) s.
Definition modify (f : Driver -> Driver) : M unit := fun s => Ok tt (f s).

(** [audioBuffer[i] = v]: a store outside the array is a fault. *)
Definition store_sample (i v : Z) : M unit :=
  fun s => if (0 <=? i) && (i <? AUDIO_BUFFER_SIZE)
           then Ok tt (set_audioBuffer (<[Z.to_nat i := v]> (audioBuffer s)) s)
           else OutOfBounds.

Definition out_of_fuel {A} : M A := fun _ => OutOfFuel.

(** [arr[i]] on a caller-supplied array: reading past its end is a fault. *)
Definition load (arr : list Z) (i : Z) : M Z :=
  fun s => match arr !! Z.to_nat i with
           | Some v => Ok v s
           | None => OutOfBounds
           end.

(** ** AudioI2S::configureI2S *)

(** [while (NRF_CLOCK->EVENTS_HFCLKSTARTED == 0) { }] *)
Fixpoint wait_hfclk (p : Platform) (fuel : nat) : M unit :=
  match fuel with
  | O => out_of_fuel
  | S fuel' =>
      v <- observe p InHFCLKSTARTED ;;
      if v =? 0 then wait_hfclk p fuel' else ret tt
  end.

Definition configureI2S (p : Platform) (fuel : nat) : M unit :=
  reg_write CLOCK_EVENTS_HFCLKSTARTED 0 ;;
  reg_write CLOCK_TASKS_HFCLKSTART 1 ;;
  wait_hfclk p fuel ;;
  reg_write CLOCK_EVENTS_HFCLKSTARTED 0 ;;
  reg_write I2S_ENABLE 0 ;;
  delay 10 ;;
  reg_write PSEL_SCK 0xFFFFFFFF ;;
  reg_write PSEL_LRCK 0xFFFFFFFF ;;
  reg_write PSEL_SDOUT 0xFFFFFFFF ;;
  reg_write PSEL_SDIN 0xFFFFFFFF ;;
  reg_write EVENTS_RXPTRUPD 0 ;;
  reg_write EVENTS_TXPTRUPD 0 ;;
  reg_write EVENTS_STOPPED 0 ;;
  reg_write INTENCLR 0xFFFFFFFF ;;
  delay 10 ;;
  reg_write PSEL_SCK I2S_SCK_PIN ;;
  reg_write PSEL_LRCK I2S_LRCK_PIN ;;
  reg_write PSEL_SDOUT I2S_SDOUT_PIN ;;
  reg_write CONFIG_MODE (I2S_CONFIG_MODE_MODE_Master p) ;;
  reg_write CONFIG_SWIDTH (I2S_CONFIG_SWIDTH_SWIDTH_16Bit p) ;;
  reg_write CONFIG_ALIGN (I2S_CONFIG_ALIGN_ALIGN_Left p) ;;
  reg_write CONFIG_FORMAT (I2S_CONFIG_FORMAT_FORMAT_I2S p) ;;
  reg_write CONFIG_CHANNELS (I2S_CONFIG_CHANNELS_CHANNELS_Left p) ;;
  reg_write CONFIG_MCKEN (I2S_CONFIG_MCKEN_MCKEN_Enabled p) ;;
  reg_write CONFIG_TXEN (I2S_CONFIG_TXEN_TXEN_Enabled p) ;;
  reg_write CONFIG_RXEN (I2S_CONFIG_RXEN_RXEN_Disabled p) ;;
  reg_write CONFIG_MCKFREQ (I2S_CONFIG_MCKFREQ_MCKFREQ_32MDIV32 p) ;;
  reg_write CONFIG_RATIO (I2S_CONFIG_RATIO_RATIO_64X p) ;;
  reg_write I2S_ENABLE 1 ;;
  delay 10 ;;
  println (Txt "I2S configured with GPIO pin numbers (3, 28, 2) and Master mode") ;;
  print (Txt "CONFIG.TXEN: ") ;;
  txen <- reg_read CONFIG_TXEN ;;
  println (Dec txen) ;;
  print (Txt "CONFIG.ALIGN: ") ;;
  align <- reg_read CONFIG_ALIGN ;;
  println (Dec align).

(** ** AudioI2S::begin *)

Definition begin (p : Platform) (fuel : nat) : M bool :=
  init <- get initialized ;;
  if init then
    println (Txt "I2S already initialized") ;;
    ret true
  else
    println (Txt "Configuring I2S peripheral...") ;;
    configureI2S p fuel ;;
    emit (EvPinModeOutput (SD_MODE_PIN p)) ;;
    emit (EvDigitalWrite (SD_MODE_PIN p) HIGH) ;;
    delay 10 ;;
    print (Txt "SD_MODE pin (D6) state: ") ;;
    level <- observe p InSdMode ;;
    println (Txt (if level =? 0 then "LOW (amplifier disabled!)"
                  else "HIGH (amplifier enabled)")) ;;
    modify (set_initialized true) ;;
    println (Txt "I2S initialized successfully") ;;
    print (Txt "Sample Rate: ") ;;
    print (Dec SAMPLE_RATE) ;;
    println (Txt " Hz") ;;
    ret true.

(** ** AudioI2S::generateTone *)

(** [(int16_t)x] for a floating-point [x]: the fraction is discarded
    (truncation toward zero). *)
Definition float_to_int16 (x : Q) : Z :=
  s16 (Z.quot (Qnum x) (Z.pos (Qden x))).

(** [float t = (float)i / SAMPLE_RATE]: the index and the rate are
    converted to [float] without loss, and the quotient is a [float]. *)
Definition time_at (p : Platform) (i : Z) : Q :=
  float_round p (inject_Z i / inject_Z SAMPLE_RATE).

(** [float angle = 2.0 * PI * frequency * t]: a product of [double]s,
    taken from left to right, converted to [float] by the assignment. *)
Definition angle_at (p : Platform) (frequency i : Z) : Q :=
  let two_pi := double_round p (2 * double_round p Arduino.PI) in
  let two_pi_f := double_round p (two_pi * inject_Z frequency) in
  float_round p (double_round p (two_pi_f * time_at p i)).

(** The rounding of the product [amplitude * sin(angle)]: the amplitude
    is converted to the type of [sin(angle)], and the product is one of
    that type. *)
Definition product_round (p : Platform) : Q -> Q :=
  if sin_returns_float p then float_round p else double_round p.

(** [int16_t sample = (int16_t)(amplitude * sin(angle))] at sample index
    [i]. *)
Definition sample_at (p : Platform) (amplitude frequency i : Z) : Z :=
  float_to_int16
    (product_round p (inject_Z amplitude * float_sin p (angle_at p frequency i))).

(** [int16_t amplitude = map(constrain(volume, 0, 100), 0, 100, 0, 32767)] *)
Definition amplitude_of (volume : Z) : Z :=
  s16 (Arduino.map (Arduino.constrain volume 0 100) 0 100 0 32767).

Definition debug_banner : string :=
  String (Ascii.ascii_of_nat 10) "=== AUDIO GENERATION DEBUG ===".

Fixpoint generateTone_loop (p : Platform) (fuel : nat)
    (frequency samples amplitude i peakSample : Z) : M Z :=
  if (i <? samples) && (i <? AUDIO_BUFFER_SIZE) then
    match fuel with
    | O => out_of_fuel
    | S fuel' =>
        let sample := sample_at p amplitude frequency i in
        let peakSample :=
          if Arduino.abs sample >? Arduino.abs peakSample then sample else peakSample in
        store_sample i (u16 sample) ;;
        (if i <? 4 then
           print (Txt "Sample index ") ;;
           print (Dec i) ;;
           print (Txt " raw=0x") ;;
           print (Hex (u16 sample)) ;;
           print (Txt " (") ;; print (Dec sample) ;; print (Txt ")") ;;
           print (Txt " packed=0x") ;;
           packed <- get (fun s => default 0 (audioBuffer s !! Z.to_nat i)) ;;
           println (Hex packed)
         else ret tt) ;;
        generateTone_loop p fuel' frequency samples amplitude (u16 (i + 1)) peakSample
    end
  else ret peakSample.

Definition generateTone (p : Platform) (fuel : nat) (frequency samples volume : Z) : M unit :=
  let volume := Arduino.constrain volume 0 100 in
  let amplitude := s16 (Arduino.map volume 0 100 0 32767) in
  first <- get firstCall ;;
  (if first then
     println (Txt debug_banner) ;;
     print (Txt "Volume: ") ;; print (Dec volume) ;; println (Txt "%") ;;
     print (Txt "Target amplitude: ") ;; println (Dec amplitude) ;;
     print (Txt "Max possible: 32767 (using ") ;;
     print (Dec (Z.quot (amplitude * 100) 32767)) ;;
     println (Txt "%)") ;;
     modify (set_firstCall false)
   else ret tt) ;;
  peakSample <- generateTone_loop p fuel frequency samples amplitude 0 0 ;;
  print (Txt "Peak sample: ") ;; print (Dec peakSample) ;;
  print (Txt " (") ;;
  print (Dec (Z.quot (Arduino.abs peakSample * 100) 32767)) ;;
  println (Txt "% of max)").

(** ** AudioI2S::startTransfer *)

Definition startTransfer (p : Platform) (sampleCount : Z) : M unit :=
  reg_write TXD_PTR (buffer_addr p) ;;
  reg_write RXTXD_MAXCNT sampleCount ;;
  print (Txt "Starting I2S transfer: ") ;;
  print (Dec sampleCount) ;;
  print (Txt " samples, buffer @ 0x") ;;
  println (Hex (buffer_addr p)) ;;
  reg_write EVENTS_TXPTRUPD 0 ;;
  reg_write EVENTS_STOPPED 0 ;;
  reg_write TASKS_START 1.

(** ** AudioI2S::waitForCompletion *)

(** [expectedDurationMs], with its floor of one millisecond. *)
Definition expectedDurationMs (sampleCount : Z) : Z :=
  let e := Z.quot (u32 (u32 sampleCount * 1000)) SAMPLE_RATE in
  if e =? 0 then 1 else e.

(** The two bounded polling loops of [waitForCompletion] have one shape:
    [while (EVENT == 0) { if (millis() > timeout) { report; return; } yield(); }].
    The result is [true] when the event was seen and [false] when the
    function returned from inside the loop. *)
Fixpoint wait_event (p : Platform) (fuel : nat) (ev : Input) (timeout : Z)
    (msg : string) : M bool :=
  match fuel with
  | O => out_of_fuel
  | S fuel' =>
      v <- observe p ev ;;
      if v =? 0 then
        now <- millis p ;;
        if now >? timeout then
          println (Txt msg) ;;
          print (Txt "I2S ENABLE: ") ;;
          en <- reg_read I2S_ENABLE ;;
          println (Dec en) ;;
          ret false
        else
          yield ;;
          wait_event p fuel' ev timeout msg
      else ret true
  end.

Definition waitForCompletion (p : Platform) (fuel : nat) (sampleCount : Z) : M unit :=
  let expected := expectedDurationMs sampleCount in
  now <- millis p ;;
  fetched <- wait_event p fuel InTXPTRUPD (u32 (now + 50)) "ERROR: I2S TXPTRUPD timeout!" ;;
  if fetched then
    reg_write EVENTS_TXPTRUPD 0 ;;
    delay (u32 (expected + 1)) ;;
    print (Txt "Chunk playback ms: ") ;;
    println (Dec expected) ;;
    reg_write TASKS_STOP 1 ;;
    now <- millis p ;;
    stopped <- wait_event p fuel InSTOPPED (u32 (now + 100)) "ERROR: I2S STOPPED timeout!" ;;
    if stopped then
      reg_write EVENTS_STOPPED 0 ;;
      println (Txt "I2S chunk complete")
    else ret tt
  else ret tt.

(** ** AudioI2S::playTone *)

Fixpoint playTone_loop (p : Platform) (fuel n : nat)
    (frequency volume totalSamples : Z) : M unit :=
  if totalSamples >? 0 then
    match n with
    | O => out_of_fuel
    | S n' =>
        let chunkSize := u16 (Arduino.min totalSamples AUDIO_BUFFER_SIZE) in
        generateTone p fuel frequency chunkSize volume ;;
        startTransfer p chunkSize ;;
        waitForCompletion p fuel chunkSize ;;
        playTone_loop p fuel n' frequency volume (u32 (totalSamples - chunkSize))
    end
  else ret tt.

Definition playTone (p : Platform) (fuel : nat) (frequency duration_ms volume : Z) : M unit :=
  init <- get initialized ;;
  if negb init then
    println (Txt "ERROR: I2S not initialized")
  else
    let duration_ms := Arduino.constrain duration_ms 1 MAX_TONE_DURATION_MS in
    let totalSamples := Z.quot (u32 (SAMPLE_RATE * duration_ms)) 1000 in
    print (Txt "Playing tone: ") ;;
    print (Dec frequency) ;;
    print (Txt " Hz for ") ;;
    print (Dec duration_ms) ;;
    print (Txt " ms at volume ") ;;
    println (Dec volume) ;;
    modify (set_playing true) ;;
    playTone_loop p fuel fuel frequency volume totalSamples ;;
    modify (set_playing false).

(** ** AudioI2S::playMelody *)

Fixpoint playMelody_loop (p : Platform) (fuel n : nat)
    (frequencies durations : list Z) (count volume i : Z) : M unit :=
  if i <? count then
    match n with
    | O => out_of_fuel
    | S n' =>
        f <- load frequencies i ;;
        d <- load durations i ;;
        playTone p fuel f d volume ;;
        delay 20 ;;
        playMelody_loop p fuel n' frequencies durations count volume (u8 (i + 1))
    end
  else ret tt.

Definition playMelody (p : Platform) (fuel : nat)
    (frequencies durations : list Z) (count volume : Z) : M unit :=
  playMelody_loop p fuel fuel frequencies durations count volume 0.

(** ** AudioI2S::stop, suspend, resume, isPlaying *)

(** [while (NRF_I2S->EVENTS_STOPPED == 0) { yield(); }] *)
Fixpoint wait_stopped (p : Platform) (fuel : nat) : M unit :=
  match fuel with
  | O => out_of_fuel
  | S fuel' =>
      v <- observe p InSTOPPED ;;
      if v =? 0 then yield ;; wait_stopped p fuel' else ret tt
  end.

Definition stop (p : Platform) (fuel : nat) : M unit :=
  init <- get initialized ;;
  if negb init then ret tt
  else
    reg_write TASKS_STOP 1 ;;
    wait_stopped p fuel ;;
    modify (set_playing false).

Definition suspend (p : Platform) (fuel : nat) : M unit :=
  init <- get initialized ;;
  if negb init then ret tt
  else
    println (Txt "Suspending I2S for power saving") ;;
    stop p fuel ;;
    reg_write I2S_ENABLE 0 ;;
    emit (EvDigitalWrite (SD_MODE_PIN p) LOW).

Definition resume (p : Platform) : M unit :=
  init <- get initialized ;;
  if negb init then ret tt
  else
    println (Txt "Resuming I2S") ;;
    emit (EvDigitalWrite (SD_MODE_PIN p) HIGH) ;;
    delay 10 ;;
    reg_write I2S_ENABLE 1.

Definition isPlaying (s : Driver) : bool := playing s.

(** ** Reference platforms

    Concrete platforms on which the model runs.  The vendor constants
    are those of the nRF52840 MDK.  Arithmetic is exact rational
    arithmetic (nothing is rounded), and the sine folds its argument into
    [[-pi/2, pi/2]] and evaluates a Taylor polynomial of degree 13 there
    (error below 1e-9). *)

Module Reference.

Definition pi_q : Q := 3141592653589793 # 1000000000000000.

(** Sine on [[-pi/2, pi/2]], in Horner form. *)
Definition taylor_sin (x : Q) : Q :=
  let x2 := (x * x)%Q in
  (x * (1 - x2 / 6 * (1 - x2 / 20 * (1 - x2 / 42 * (1 - x2 / 72 *
     (1 - x2 / 110 * (1 - x2 / 156)))))))%Q.

(** Sine of any rational: the argument less its whole periods lies in
    [[0, 2 pi)], and is folded by [sin x = - sin (x - pi) = sin (x - 2 pi)]. *)
Definition sin_q (x : Q) : Q :=
  let two_pi := (2 * pi_q)%Q in
  let r := Qred (x - inject_Z (Qfloor (x / two_pi)) * two_pi)%Q in
  Qred (if Qle_bool r (pi_q / 2) then taylor_sin r
        else if Qle_bool r (3 * pi_q / 2) then - taylor_sin (Qred (r - pi_q))
        else taylor_sin (Qred (r - two_pi)))%Q.

Definition platform (reads : Input -> nat -> Z) : Platform :=
  {| hw_read := reads;
     buffer_addr := 0x20001000;
     SD_MODE_PIN := 6;
     I2S_CONFIG_MODE_MODE_Master := 0;
     I2S_CONFIG_SWIDTH_SWIDTH_16Bit := 1;
     I2S_CONFIG_ALIGN_ALIGN_Left := 0;
     I2S_CONFIG_FORMAT_FORMAT_I2S := 0;
     I2S_CONFIG_CHANNELS_CHANNELS_Left := 1;
     I2S_CONFIG_MCKEN_MCKEN_Enabled := 1;
     I2S_CONFIG_TXEN_TXEN_Enabled := 1;
     I2S_CONFIG_RXEN_RXEN_Disabled := 0;
     nrf_MCKFREQ_32MDIV32 := Some 0x08000000;
     nrf_RATIO_64X := Some 2;
     float_round := Qred;
     double_round := Qred;
     float_sin := sin_q;
     sin_returns_float := true |}.

(** Hardware that raises every event at once; the clock advances one
    millisecond per reading. *)
Definition prompt_reads (i : Input) (k : nat) : Z :=
  match i with
  | InMillis => Z.of_nat k
  | _ => 1
  end.

(** Hardware whose I2S peripheral never raises an event (the
    high-frequency clock does start); the clock advances 30 ms per
    reading. *)
Definition silent_reads (i : Input) (k : nat) : Z :=
  match i with
  | InMillis => 30 * Z.of_nat k
  | InHFCLKSTARTED | InSdMode => 1
  | InTXPTRUPD | InSTOPPED => 0
  end.

Definition prompt : Platform := platform prompt_reads.
Definition silent : Platform := platform silent_reads.

(** A driver on which [begin] has completed. *)
Definition ready : Driver := set_initialized true new_driver.

End Reference.

(** ** Reading the log

    The log is classified into the steps the claims count: the start of a
    tone playback, one synthesis of the buffer, the sample count and the
    start command of a transfer, the end of a wait for completion, and the
    20 ms gap of a melody. *)

Inductive Mark : Set :=
| ToneStart
| Synth
| Count (n : Z)
| Start
| Await
| Gap.

Definition mark_of (e : Event) : option Mark :=
  match e with
  | EvRegWrite RXTXD_MAXCNT n => Some (Count n)
  | EvRegWrite TASKS_START _ => Some Start
  | EvDelay ms => if ms =? 20 then Some Gap else None
  | EvSerial (Txt s) _ =>
      if String.eqb s "Playing tone: " then Some ToneStart
      else if String.eqb s "Peak sample: " then Some Synth
      else if String.eqb s "Chunk playback ms: " then Some Await
      else if String.eqb s "ERROR: I2S TXPTRUPD timeout!" then Some Await
      else None
  | _ => None
  end.

Definition marks (t : list Event) : list Mark := omap mark_of t.

(** The marks of one chunk of [n] samples, and of a tone of given chunks. *)
Definition chunk_marks (n : Z) : list Mark := [Synth; Count n; Start; Await].

Definition tone_marks (chunks : list Z) : list Mark :=
  ToneStart :: flat_map chunk_marks chunks.

(** The chunk sizes a tone of [total] samples is cut into: full buffers,
    then the remainder if there is one. *)
Definition chunk_sizes (total : Z) : list Z :=
  replicate (Z.to_nat (total / AUDIO_BUFFER_SIZE)) AUDIO_BUFFER_SIZE
  ++ (if total mod AUDIO_BUFFER_SIZE =? 0 then [] else [total mod AUDIO_BUFFER_SIZE]).

(** Samples of a tone request after the duration clamp. *)
Definition tone_samples (duration_ms : Z) : Z :=
  SAMPLE_RATE * Arduino.constrain duration_ms 1 MAX_TONE_DURATION_MS / 1000.

(** Ceiling of a quotient of non-negative integers. *)
Definition cdiv (a b : Z) : Z := (a + b - 1) / b.

(** ** Assumptions on the hardware

    An event flag is live when, from any point on, one of the next [K]
    observations of it finds it raised. *)
Definition live (p : Platform) (K : nat) (ev : Input) : Prop :=
  forall k : nat, exists j : nat, (j < K)%nat /\ u32 (hw_read p ev (k + j)) <> 0.

(** The I2S peripheral answers: both of its event flags are live. *)
Definition responsive (p : Platform) (K : nat) : Prop :=
  live p K InTXPTRUPD /\ live p K InSTOPPED.

(** ** Total correctness of monadic code *)

Definition twp {A} (m : M A) (s : Driver) (Q : A -> Driver -> Prop) : Prop :=
  exists a s', m s = Ok a s' /\ Q a s'.

(** What a call leaves of the driver, and the marks it adds to the log. *)
Record rel (s s' : Driver) (ms : list Mark) : Prop := {
  rel_initialized : initialized s' = initialized s;
  rel_playing : playing s' = playing s;
  rel_log : exists t, log s' = log s ++ t /\ marks t = ms
}.

(** Everything of the driver but its input cursors and its log. *)
Record same (s s' : Driver) : Prop := {
  same_buffer : audioBuffer s' = audioBuffer s;
  same_initialized : initialized s' = initialized s;
  same_playing : playing s' = playing s;
  same_firstCall : firstCall s' = firstCall s;
  same_regs : regs s' = regs s
}.

(** Events that neither sleep nor command a stop. *)
Definition no_sleep_no_stop (e : Event) : Prop :=
  match e with
  | EvDelay _ => False
  | EvRegWrite TASKS_STOP _ => False
  | _ => True
  end.

(** The report a polling loop of [waitForCompletion] leaves when its
    deadline has passed. *)
Definition timeout_report (msg : string) (s : Driver) : list Event :=
  [EvSerial (Txt msg) true;
   EvSerial (Txt "I2S ENABLE: ") false;
   EvSerial (Dec (regs s I2S_ENABLE)) true].

(** The flag [ev] is found clear on [j] polls that are within the
    deadline, counted from observation [c] of the flag and observation
    [m] of the clock. *)
Definition polls_clear (p : Platform) (ev : Input) (timeout : Z) (c m j : nat) : Prop :=
  forall i : nat, (i < j)%nat ->
    u32 (hw_read p ev (c + i)) = 0 /\ u32 (hw_read p InMillis (m + i)) <= timeout.

(** The buffer-fetched event is seen by [waitForCompletion] on its
    [j+1]-th poll, within the 50 ms deadline. *)
Definition fetched_after (p : Platform) (s : Driver) (j : nat) : Prop :=
  let c := cursor s InTXPTRUPD in
  let m := cursor s InMillis in
  let timeout := u32 (u32 (hw_read p InMillis m) + 50) in
  polls_clear p InTXPTRUPD timeout c (S m) j /\
  u32 (hw_read p InTXPTRUPD (c + j)) <> 0.

(** The buffer-fetched event does not appear within the 50 ms deadline:
    [j] polls find it clear in time, and the next one finds it clear with
    the clock past the deadline. *)
Definition fetch_times_out (p : Platform) (s : Driver) (j : nat) : Prop :=
  let c := cursor s InTXPTRUPD in
  let m := cursor s InMillis in
  let timeout := u32 (u32 (hw_read p InMillis m) + 50) in
  polls_clear p InTXPTRUPD timeout c (S m) j /\
  u32 (hw_read p InTXPTRUPD (c + j)) = 0 /\
  u32 (hw_read p InMillis (S m + j)) > timeout.

(** What one run of the synthesis loop from index [i] does to the buffer:
    indices from [i] up to [min samples 256] hold the samples, every other
    index keeps its content. *)
Definition loop_post (p : Platform) (frequency samples amplitude i : Z) (s s' : Driver) : Prop :=
  rel s s' [] /\
  length (audioBuffer s') = length (audioBuffer s) /\
  (forall j : Z, i <= j < Z.min samples AUDIO_BUFFER_SIZE ->
     (Z.to_nat j < length (audioBuffer s))%nat ->
     audioBuffer s' !! Z.to_nat j = Some (u16 (sample_at p amplitude frequency j))) /\
  (forall j : nat, ~ (i <= Z.of_nat j < Z.min samples AUDIO_BUFFER_SIZE) ->
     audioBuffer s' !! j = audioBuffer s !! j).

(** What [generateTone] leaves: one [Synth] in the log, the first
    [min samples 256] slots of the buffer filled, the rest as it was. *)
Definition tone_post (p : Platform) (frequency samples volume : Z) (s s' : Driver) : Prop :=
  rel s s' [Synth] /\
  length (audioBuffer s') = length (audioBuffer s) /\
  (forall j : Z, 0 <= j < Z.min samples AUDIO_BUFFER_SIZE ->
     (Z.to_nat j < length (audioBuffer s))%nat ->
     audioBuffer s' !! Z.to_nat j = Some (u16 (sample_at p (amplitude_of volume) frequency j))) /\
  (forall j : nat, Z.min samples AUDIO_BUFFER_SIZE <= Z.of_nat j ->
     audioBuffer s' !! j = audioBuffer s !! j).

(** A computation none of whose stores or loads is out of bounds. *)
Definition in_bounds {A} (m : M A) : Prop := forall s : Driver, m s <> OutOfBounds.

(** The marks a call adds to the log. *)
Definition adds (s s' : Driver) (ms : list Mark) : Prop :=
  exists t, log s' = log s ++ t /\ marks t = ms.

#[global] Instance Mark_eq_dec : EqDecision Mark.
Proof. solve_decision. Defined.

(** The melody as the list of its notes: each note is played, and each is
    followed by the 20 ms gap. *)
Fixpoint play_notes (p : Platform) (fuel : nat) (notes : list (Z * Z)) (volume : Z) : M unit :=
  match notes with
  | [] => ret tt
  | (f, d) :: rest =>
      playTone p fuel f d volume ;;
      delay 20 ;;
      play_notes p fuel rest volume
  end.

(** The marks of a melody with the given durations. *)
Definition melody_marks (durations : list Z) : list Mark :=
  flat_map (fun d => tone_marks (chunk_sizes (tone_samples d)) ++ [Gap]) durations.

Definition count_mark (m : Mark) (ms : list Mark) : nat := count_occ Mark_eq_dec ms m.

Inductive Call : Type :=
| CallBegin
| CallPlayTone (frequency duration_ms volume : Z)
| CallPlayMelody (frequencies durations : list Z) (count volume : Z)
| CallStop
| CallSuspend
| CallResume.

Definition perform (p : Platform) (fuel : nat) (c : Call) : M unit :=
  match c with
  | CallBegin => _ <- begin p fuel ;; ret tt
  | CallPlayTone f d v => playTone p fuel f d v
  | CallPlayMelody fs ds n v => playMelody p fuel fs ds n v
  | CallStop => stop p fuel
  | CallSuspend => suspend p fuel
  | CallResume => resume p
  end.

(** The states a driver object can be in between two calls of its
    public methods. *)
Inductive reachable (p : Platform) : Driver -> Prop :=
| reachable_new : reachable p new_driver
| reachable_call (s s' : Driver) (fuel : nat) (c : Call) :
    reachable p s -> perform p fuel c s = Ok tt s' -> reachable p s'.

(** A computation that, started idle, can only end idle. *)
Definition keeps_idle {A} (m : M A) : Prop :=
  forall (s : Driver) (a : A) (s' : Driver),
    playing s = false -> m s = Ok a s' -> playing s' = false.

(** A computation whose every result satisfies [P]. *)
Definition yields {A} (P : A -> Prop) (m : M A) : Prop :=
  forall (s : Driver) (a : A) (s' : Driver), m s = Ok a s' -> P a.

(** Rounding to the nearest integer, halves upward. *)
Definition round_nearest (x : Q) : Z := Qfloor (x + (1 # 2)).

(** Rounding, to [float] or to [double], keeps a zero. *)
Definition rounds_zero (p : Platform) : Prop :=
  forall x : Q, (x == 0)%Q -> (float_round p x == 0)%Q /\ (double_round p x == 0)%Q.

(** The sine of zero is zero. *)
Definition sin_zero (p : Platform) : Prop :=
  forall x : Q, (x == 0)%Q -> (float_sin p x == 0)%Q.

(** ** Frames and unbounded waits *)

(** A computation that leaves the observation [f] of the driver as it
    was. *)
Definition preserves {X A} (f : Driver -> X) (m : M A) : Prop :=
  forall (s : Driver) (a : A) (s' : Driver), m s = Ok a s' -> f s' = f s.

(** From the observations the driver has consumed on, the flag [ev] is
    never found raised. *)
Definition never_raised (p : Platform) (ev : Input) (s : Driver) : Prop :=
  forall k : nat, u32 (hw_read p ev (cursor s ev + k)) = 0.

(** The flag [ev] is found clear on the next [j] observations and raised
    on the one after. *)
Definition raised_after (p : Platform) (ev : Input) (s : Driver) (j : nat) : Prop :=
  (forall i : nat, (i < j)%nat -> u32 (hw_read p ev (cursor s ev + i)) = 0) /\
  u32 (hw_read p ev (cursor s ev + j)) <> 0.

(** ** Configuration order *)

(** The registers that bind pins or configure the peripheral. *)
Definition is_setup_reg (r : Reg) : bool :=
  match r with
  | PSEL_SCK | PSEL_LRCK | PSEL_SDOUT | PSEL_SDIN | INTENCLR
  | CONFIG_MODE | CONFIG_SWIDTH | CONFIG_ALIGN | CONFIG_FORMAT
  | CONFIG_CHANNELS | CONFIG_MCKEN | CONFIG_TXEN | CONFIG_RXEN
  | CONFIG_MCKFREQ | CONFIG_RATIO => true
  | _ => false
  end.

(** In the log [t] every write to a setup register comes while the last
    value written to ENABLE is 0; [enabled] is the state of the peripheral
    at the start of [t]. *)
Fixpoint setup_while_disabled (enabled : bool) (t : list Event) : bool :=
  match t with
  | [] => true
  | EvRegWrite I2S_ENABLE v :: t' => setup_while_disabled (negb (v =? 0)) t'
  | EvRegWrite r _ :: t' =>
      (if is_setup_reg r then negb enabled else true) && setup_while_disabled enabled t'
  | _ :: t' => setup_while_disabled enabled t'
  end.

(** A platform whose inputs all read 0 for ever: no clock start, no I2S
    event, and a clock that stands still. *)
Definition dead : Platform := Reference.platform (fun _ _ => 0).

(** ** Sleeping *)

Definition total_of (l : list Z) : Z := foldr Z.add 0 l.

(** The milliseconds of [delay] a log asks for. *)
Definition slept (t : list Event) : Z :=
  foldr (fun e acc => match e with EvDelay ms => ms + acc | _ => acc end) 0 t.

(** A computation that, when it returns, has asked for [n] ms of delay. *)
Definition sleeps {A} (n : Z) (m : M A) : Prop :=
  forall (s : Driver) (a : A) (s' : Driver),
    m s = Ok a s' -> exists t, log s' = log s ++ t /\ slept t = n.

(** The buffer-fetched event is found raised whenever it is polled. *)
Definition always_fetched (p : Platform) : Prop :=
  forall k : nat, u32 (hw_read p InTXPTRUPD k) <> 0.

(** After a fetch seen on poll [j+1], the STOPPED event does not appear
    within the 100 ms deadline: [k] polls find it clear in time, and the
    next one finds it clear with the clock past the deadline. *)
Definition stop_times_out (p : Platform) (s : Driver) (j k : nat) : Prop :=
  let c := cursor s InSTOPPED in
  let m := (cursor s InMillis + 1 + j)%nat in
  let timeout := u32 (u32 (hw_read p InMillis m) + 100) in
  polls_clear p InSTOPPED timeout c (S m) k /\
  u32 (hw_read p InSTOPPED (c + k)) = 0 /\
  u32 (hw_read p InMillis (S m + k)) > timeout.

(** Hardware that fetches every buffer at once and never reports a stop;
    the clock advances 60 ms per reading. *)
Definition never_stopping : Platform :=
  Reference.platform (fun i k =>
    match i with
    | InMillis => 60 * Z.of_nat k
    | InSTOPPED => 0
    | _ => 1
    end).

(** ** Floating point against the reals *)

(** [x'] is [x] within the relative error [eta]. *)
Definition close (eta x' x : R) : Prop := (Rabs (x' - x) <= eta * Rabs x)%R.

(** Both roundings of the platform have a relative error of at most [u]
    (for IEEE 754 formats and rounding to nearest, [u] is 2^-24 for
    [float], and smaller for [double]). *)
Definition rounds_within (u : R) (p : Platform) : Prop :=
  forall x : Q,
    close u (Q2R (float_round p x)) (Q2R x) /\ close u (Q2R (double_round p x)) (Q2R x).

(** The value [sin] returns for [x] is within [e] of the sine of [x]. *)
Definition sin_within (e : R) (p : Platform) (x : Q) : Prop :=
  (Rabs (Q2R (float_sin p x) - sin (Q2R x)) <= e)%R.

(** * Properties *)

Lemma marks_app (t1 t2 : list Event) : marks (t1 ++ t2) = marks t1 ++ marks t2.
Proof. unfold marks. apply omap_app. Qed.

Lemma rel_refl (s : Driver) : rel s s [].
Proof.
  split; try reflexivity. exists []. split; [now rewrite app_nil_r | reflexivity].
Qed.

Lemma rel_trans (s1 s2 s3 : Driver) (m1 m2 : list Mark) :
  rel s1 s2 m1 -> rel s2 s3 m2 -> rel s1 s3 (m1 ++ m2).
Proof.
  intros [i1 p1 (t1 & l1 & k1)] [i2 p2 (t2 & l2 & k2)]. split; try congruence.
  exists (t1 ++ t2). split.
  - rewrite l2, l1. now rewrite app_assoc.
  - rewrite marks_app. congruence.
Qed.

Lemma twp_ret {A} (a : A) (s : Driver) (Q : A -> Driver -> Prop) :
  Q a s -> twp (ret a) s Q.
Proof. intros H. exists a, s. now split. Qed.

Lemma twp_bind {A B} (m : M A) (k : A -> M B) (s : Driver) (Q : B -> Driver -> Prop) :
  twp m s (fun a s' => twp (k a) s' Q) -> twp (bind m k) s Q.
Proof.
  intros (a & s1 & E & b & s2 & E2 & HQ). exists b, s2. split; [|exact HQ].
  unfold bind. now rewrite E.
Qed.

Lemma twp_step {A B} (m : M A) (k : A -> M B) (s s1 : Driver) (a : A)
    (Q : B -> Driver -> Prop) :
  m s = Ok a s1 -> twp (k a) s1 Q -> twp (bind m k) s Q.
Proof. intros E H. apply twp_bind. exists a, s1. now split. Qed.

Lemma twp_last {A} (m : M A) (s s1 : Driver) (a : A) (Q : A -> Driver -> Prop) :
  m s = Ok a s1 -> Q a s1 -> twp m s Q.
Proof. intros E H. exists a, s1. now split. Qed.

Lemma twp_mono {A} (m : M A) (s : Driver) (Q Q' : A -> Driver -> Prop) :
  twp m s Q -> (forall a s', Q a s' -> Q' a s') -> twp m s Q'.
Proof. intros (a & s' & E & H) HQ. exists a, s'. split; auto. Qed.

Lemma twp_assoc {A B C} (m : M A) (k1 : A -> M B) (k2 : B -> M C) (s : Driver)
    (Q : C -> Driver -> Prop) :
  twp (bind m (fun a => bind (k1 a) k2)) s Q -> twp (bind (bind m k1) k2) s Q.
Proof.
  intros (c & s' & E & H). exists c, s'. split; [|exact H].
  unfold bind in *. now destruct (m s).
Qed.

(** Symbolic execution of the primitive effects at the head of a goal. *)
Ltac prim_head m :=
  lazymatch m with
  | emit _ => idtac | reg_write _ _ => idtac | reg_read _ => idtac
  | observe _ _ => idtac | millis _ => idtac | delay _ => idtac
  | yield => idtac | print _ => idtac | println _ => idtac
  | get _ => idtac | modify _ => idtac | ret _ => idtac
  end.

Ltac step :=
  lazymatch goal with
  | |- twp (bind (bind _ _) _) _ _ => apply twp_assoc
  | |- twp (bind ?m _) _ _ => prim_head m; eapply twp_step; [reflexivity | cbv beta]
  | |- twp ?m _ _ => prim_head m; eapply twp_last; [reflexivity | cbv beta]
  end.

Ltac steps := repeat step.

(** The same on a driver given by its fields, where the state after each
    effect is again a record of fields. *)
Ltac nstep :=
  step;
  cbn [set_log set_regs set_cursor set_playing set_initialized set_firstCall
       set_audioBuffer log regs cursor playing initialized firstCall audioBuffer].

Ltac nsteps := repeat nstep.

(** Closes [rel s s' ms] when [s'] is [s] after primitive effects. *)
Ltac rel_done :=
  split; [reflexivity | reflexivity |
    cbn [log set_log set_regs set_cursor set_firstCall set_playing
         set_initialized set_audioBuffer];
    first [ exists []; split; [now rewrite app_nil_r | reflexivity]
          | rewrite <- ?app_assoc; eexists; split; [reflexivity | reflexivity] ]].

Lemma same_refl (s : Driver) : same s s.
Proof. now split. Qed.

Lemma same_trans (s1 s2 s3 : Driver) : same s1 s2 -> same s2 s3 -> same s1 s3.
Proof. intros [] []. split; congruence. Qed.

Lemma polls_clear_next p ev timeout c m j :
  polls_clear p ev timeout c m (S j) -> polls_clear p ev timeout (S c) (S m) j.
Proof.
  intros H i Hi. specialize (H (S i) ltac:(lia)).
  now rewrite <- !Nat.add_succ_comm in H.
Qed.

(** ** The polling loops *)

(** A poll that finds the flag raised ends the loop. *)
Lemma wait_event_seen p ev timeout msg (j : nat) :
  ev <> InMillis ->
  forall (s : Driver) (fuel : nat),
  polls_clear p ev timeout (cursor s ev) (cursor s InMillis) j ->
  u32 (hw_read p ev (cursor s ev + j)) <> 0 ->
  (j < fuel)%nat ->
  twp (wait_event p fuel ev timeout msg) s (fun b s' =>
    b = true /\ same s s' /\ log s' = log s ++ replicate j EvYield /\
    cursor s' InMillis = (cursor s InMillis + j)%nat /\
    forall i, i <> ev -> i <> InMillis -> cursor s' i = cursor s i).
Proof.
  intros Hev. induction j as [|j IH]; intros s fuel Hclear Hseen Hfuel;
    (destruct fuel as [|fuel]; [lia|]); cbn [wait_event].
  - rewrite Nat.add_0_r in Hseen. step.
    apply Z.eqb_neq in Hseen. rewrite Hseen. step.
    repeat split; cbn; auto using app_nil_r.
    + rewrite fn_lookup_insert_ne by auto. lia.
    + intros i H1 H2. now rewrite fn_lookup_insert_ne by auto.
  - destruct (Hclear O ltac:(lia)) as [H0 Hm0]. rewrite !Nat.add_0_r in *.
    step. rewrite H0. cbn [Z.eqb]. step.
    cbn [cursor set_cursor]. rewrite fn_lookup_insert_ne by auto.
    destruct (Z.gtb_spec (u32 (hw_read p InMillis (cursor s InMillis))) timeout) as [Hgt|_];
      [lia|].
    step.
    eapply twp_mono.
    + apply IH; cbn [cursor set_cursor set_log].
      * rewrite fn_lookup_insert. rewrite fn_lookup_insert_ne, fn_lookup_insert by auto.
        now apply polls_clear_next.
      * rewrite fn_lookup_insert_ne, fn_lookup_insert by auto.
        now rewrite Nat.add_succ_comm.
      * lia.
    + cbn [cursor set_cursor set_log log]. intros b s' (Hb & [] & Hl & Hc & Ho).
      repeat split; auto.
      * rewrite Hl. cbn [replicate]. now rewrite <- app_assoc.
      * rewrite Hc, fn_lookup_insert. lia.
      * intros i H1 H2. rewrite Ho by auto. now rewrite !fn_lookup_insert_ne by auto.
Qed.

(** A poll that finds the flag clear and the deadline passed reports and
    leaves the loop (and the function). *)
Lemma wait_event_timeout p ev timeout msg (j : nat) :
  ev <> InMillis ->
  forall (s : Driver) (fuel : nat),
  polls_clear p ev timeout (cursor s ev) (cursor s InMillis) j ->
  u32 (hw_read p ev (cursor s ev + j)) = 0 ->
  u32 (hw_read p InMillis (cursor s InMillis + j)) > timeout ->
  (j < fuel)%nat ->
  twp (wait_event p fuel ev timeout msg) s (fun b s' =>
    b = false /\ same s s' /\
    log s' = log s ++ replicate j EvYield ++ timeout_report msg s).
Proof.
  intros Hev. induction j as [|j IH]; intros s fuel Hclear Hzero Hlate Hfuel;
    (destruct fuel as [|fuel]; [lia|]); cbn [wait_event].
  - rewrite Nat.add_0_r in *. step. rewrite Hzero. cbn [Z.eqb]. step.
    cbn [cursor set_cursor]. rewrite fn_lookup_insert_ne by auto.
    apply Z.gtb_gt in Hlate. rewrite Hlate. steps.
    repeat split. cbn. now rewrite <- !app_assoc.
  - destruct (Hclear O ltac:(lia)) as [H0 Hm0]. rewrite !Nat.add_0_r in *.
    step. rewrite H0. cbn [Z.eqb]. step.
    cbn [cursor set_cursor]. rewrite fn_lookup_insert_ne by auto.
    destruct (Z.gtb_spec (u32 (hw_read p InMillis (cursor s InMillis))) timeout) as [Hgt|_];
      [lia|].
    step.
    eapply twp_mono.
    + apply IH; cbn [cursor set_cursor set_log].
      * rewrite fn_lookup_insert. rewrite fn_lookup_insert_ne, fn_lookup_insert by auto.
        now apply polls_clear_next.
      * rewrite fn_lookup_insert_ne, fn_lookup_insert by auto.
        now rewrite Nat.add_succ_comm.
      * rewrite fn_lookup_insert. now rewrite Nat.add_succ_comm.
      * lia.
    + cbn [cursor set_cursor set_log log]. intros b s' (Hb & [] & Hl).
      repeat split; auto.
      rewrite Hl. cbn [replicate]. now rewrite <- !app_assoc.
Qed.

Lemma marks_replicate_yield (j : nat) : marks (replicate j EvYield) = [].
Proof. induction j; [reflexivity | exact IHj]. Qed.

Lemma calm_replicate_yield (j : nat) : Forall no_sleep_no_stop (replicate j EvYield).
Proof. induction j; constructor; [exact I | assumption]. Qed.

(** Where the flag is live the loop ends, whatever the clock does. *)
Lemma wait_event_live p ev timeout msg (K : nat) :
  ev <> InMillis -> live p K ev ->
  forall (s : Driver) (fuel : nat), (K <= fuel)%nat ->
  twp (wait_event p fuel ev timeout msg) s (fun b s' =>
    same s s' /\ exists t, log s' = log s ++ t /\ Forall no_sleep_no_stop t /\
    marks t = if b then [] else marks [EvSerial (Txt msg) true]).
Proof.
  intros Hev Hlive s fuel HK.
  destruct (Hlive (cursor s ev)) as (j & Hj & Hseen).
  assert (Hfuel : (j < fuel)%nat) by lia. clear Hj HK Hlive.
  revert s fuel Hseen Hfuel.
  induction j as [|j IH]; intros s fuel Hseen Hfuel;
    (destruct fuel as [|fuel]; [lia|]); cbn [wait_event].
  - rewrite Nat.add_0_r in Hseen. step.
    apply Z.eqb_neq in Hseen. rewrite Hseen. step.
    split; [now split|]. exists []. cbn. rewrite app_nil_r. auto.
  - step. destruct (u32 (hw_read p ev (cursor s ev)) =? 0).
    + step. destruct (_ >? timeout).
      * steps. split; [now split|]. eexists. cbn. rewrite <- !app_assoc.
        split; [reflexivity|]. split; [|reflexivity].
        repeat constructor.
      * step. eapply twp_mono.
        -- apply IH; [|lia]. cbn [cursor set_cursor set_log].
           rewrite fn_lookup_insert_ne, fn_lookup_insert by auto.
           now rewrite Nat.add_succ_comm.
        -- cbn [cursor set_cursor set_log log]. intros b s' ([] & t & Hl & Hc & Hm).
           split; [now split|]. exists (EvYield :: t). rewrite Hl, <- app_assoc.
           split; [reflexivity|]. split; [constructor; [exact I | assumption] | exact Hm].
    + step. split; [now split|]. exists []. cbn. rewrite app_nil_r. auto.
Qed.

(** ** waitForCompletion *)

Lemma u32_small (x : Z) : 0 <= x < 2 ^ 32 -> u32 x = x.
Proof. intros H. unfold u32. now apply Z.mod_small. Qed.

Lemma u16_small (x : Z) : 0 <= x < 2 ^ 16 -> u16 x = x.
Proof. intros H. unfold u16. now apply Z.mod_small. Qed.

(** The estimate is the quotient rounded down, and at least 1. *)
Lemma expectedDurationMs_floor (n : Z) :
  0 <= n < 2 ^ 16 ->
  expectedDurationMs n = Z.max 1 (n * 1000 / SAMPLE_RATE).
Proof.
  intros Hn. unfold expectedDurationMs, SAMPLE_RATE.
  rewrite (u32_small n) by lia. rewrite u32_small by lia.
  rewrite Z.quot_div_nonneg by lia.
  assert (0 <= n * 1000 / 16000) by (apply Z.div_pos; lia).
  destruct (Z.eqb_spec (n * 1000 / 16000) 0); lia.
Qed.

Lemma expectedDurationMs_chunk (n : Z) :
  0 <= n <= AUDIO_BUFFER_SIZE -> 1 <= expectedDurationMs n <= 16.
Proof.
  unfold AUDIO_BUFFER_SIZE. intros Hn.
  rewrite expectedDurationMs_floor by lia. unfold SAMPLE_RATE.
  assert (0 <= n * 1000 / 16000) by (apply Z.div_pos; lia).
  assert (n * 1000 / 16000 <= 16) by (apply Z.div_le_upper_bound; lia).
  lia.
Qed.

Lemma rel_of_same (s s' : Driver) (t : list Event) (ms : list Mark) :
  same s s' -> log s' = log s ++ t -> marks t = ms -> rel s s' ms.
Proof. intros [] Hl Hm. split; auto. now exists t. Qed.

Lemma rel_marks_eq (s s' : Driver) (m m' : list Mark) :
  rel s s' m -> m = m' -> rel s s' m'.
Proof. now intros H <-. Qed.

(** On responsive hardware a wait for a chunk returns, and it is one
    [Await] of the log; the buffer is not touched. *)
Lemma waitForCompletion_rel p (K fuel : nat) (n : Z) (s : Driver) :
  responsive p K -> (K <= fuel)%nat -> 0 <= n <= AUDIO_BUFFER_SIZE ->
  twp (waitForCompletion p fuel n) s (fun _ s' => rel s s' [Await]).
Proof.
  intros [Htx Hst] HK Hn. unfold waitForCompletion.
  pose proof (expectedDurationMs_chunk n Hn) as He.
  step. apply twp_bind. eapply twp_mono.
  { apply (wait_event_live p InTXPTRUPD _ _ K); [discriminate | assumption | exact HK]. }
  cbn beta. intros fetched s1 (Hsame & t & Hl & _ & Hm).
  pose proof (rel_of_same _ _ _ _ Hsame Hl Hm) as R1. cbn [log set_cursor] in R1.
  assert (R0 : rel s s1 (if fetched then [] else [Await])).
  { destruct R1 as [i1 p1 l1]; split; auto; now destruct fetched. }
  clear R1 Hsame Hl Hm t.
  destruct fetched; [|step; exact R0].
  do 6 step. apply twp_bind. eapply twp_mono.
  { apply (wait_event_live p InSTOPPED _ _ K); [discriminate | assumption | exact HK]. }
  cbn beta. intros stopped s2 (Hsame & t & Hl & _ & Hm).
  pose proof (rel_of_same _ _ _ _ Hsame Hl Hm) as R2.
  assert (R3 : rel s1 s2 [Await]).
  { eapply rel_marks_eq.
    - eapply rel_trans; [|exact R2]. instantiate (1 := [Await]).
      split; [reflexivity | reflexivity |].
      cbn [log set_log set_regs set_cursor]. rewrite <- !app_assoc.
      eexists; split; [reflexivity|]. cbn.
      rewrite u32_small by lia.
      destruct (Z.eqb_spec (expectedDurationMs n + 1) 20); [lia | reflexivity].
    - now destruct stopped. }
  clear R2 Hsame Hl Hm t.
  destruct stopped.
  - steps. eapply rel_marks_eq; [eapply rel_trans; [exact R0|]; eapply rel_trans; [exact R3|]|].
    + rel_done.
    + reflexivity.
  - step. eapply rel_marks_eq; [eapply rel_trans; [exact R0 | exact R3] | reflexivity].
Qed.

(** ** generateTone *)

Lemma store_sample_in_bounds (i v : Z) (s : Driver) :
  0 <= i < AUDIO_BUFFER_SIZE ->
  store_sample i v s = Ok tt (set_audioBuffer (<[Z.to_nat i := v]> (audioBuffer s)) s).
Proof.
  intros Hi. unfold store_sample.
  destruct (Z.leb_spec 0 i); [|lia]. destruct (Z.ltb_spec i AUDIO_BUFFER_SIZE); [|lia].
  reflexivity.
Qed.

Lemma generateTone_loop_spec p (frequency samples amplitude : Z) (k : nat) :
  forall (fuel : nat) (i peakSample : Z) (s : Driver),
  0 <= i ->
  Z.min samples AUDIO_BUFFER_SIZE - i <= Z.of_nat k ->
  (k <= fuel)%nat ->
  twp (generateTone_loop p fuel frequency samples amplitude i peakSample) s
      (fun _ s' => loop_post p frequency samples amplitude i s s').
Proof.
  induction k as [|k IH]; intros fuel i peak s Hi Hk Hfuel.
  - assert (Hc : (i <? samples) && (i <? AUDIO_BUFFER_SIZE) = false).
    { apply andb_false_iff. rewrite !Z.ltb_ge. lia. }
    destruct fuel; cbn [generateTone_loop]; rewrite Hc; step;
      (split; [apply rel_refl|]; split; [reflexivity|]; split; [intros; lia | reflexivity]).
  - destruct ((i <? samples) && (i <? AUDIO_BUFFER_SIZE)) eqn:Hc.
    2:{ destruct fuel; cbn [generateTone_loop]; rewrite Hc; step;
        (split; [apply rel_refl|]; split; [reflexivity|]; split; [|reflexivity]).
        all: intros j Hj; apply andb_false_iff in Hc; rewrite !Z.ltb_ge in Hc; lia. }
    apply andb_true_iff in Hc as Hc'. rewrite !Z.ltb_lt in Hc'. destruct Hc' as [Hs Hb].
    destruct fuel as [|fuel]; [lia|]. cbn [generateTone_loop]. rewrite Hc.
    cbv zeta.
    eapply twp_step; [apply store_sample_in_bounds; lia|].
    set (sample := sample_at p amplitude frequency i).
    assert (Hnext : u16 (i + 1) = i + 1).
    { apply u16_small. unfold AUDIO_BUFFER_SIZE in Hb. lia. }
    rewrite Hnext.
    assert (Hrest : forall s1, rel s s1 [] ->
              audioBuffer s1 = <[Z.to_nat i := u16 sample]> (audioBuffer s) ->
              forall pk, twp (generateTone_loop p fuel frequency samples amplitude (i + 1) pk) s1
                (fun _ s' => loop_post p frequency samples amplitude i s s')).
    { intros s1 R1 Hbuf pk. eapply twp_mono; [apply IH; lia|].
      cbn beta. intros _ s' (R2 & Hlen & Hin & Hout).
      split; [exact (rel_trans _ _ _ _ _ R1 R2)|].
      rewrite Hbuf in Hlen, Hin, Hout. rewrite length_insert in Hlen, Hin.
      split; [exact Hlen|]. split.
      - intros j Hj Hlt. destruct (Z.eq_dec j i) as [->|Hne].
        + rewrite Hout by lia. now apply list_lookup_insert_eq.
        + apply Hin; [lia | exact Hlt].
      - intros j Hj. rewrite Hout by lia. apply list_lookup_insert_ne. lia. }
    destruct (i <? 4).
    + steps. apply Hrest; [rel_done | reflexivity].
    + steps. apply Hrest; [rel_done | reflexivity].
Qed.

Lemma generateTone_spec p (fuel : nat) (frequency samples volume : Z) (s : Driver) :
  (Z.to_nat AUDIO_BUFFER_SIZE <= fuel)%nat ->
  twp (generateTone p fuel frequency samples volume) s
      (fun _ s' => tone_post p frequency samples volume s s').
Proof.
  intros Hfuel. unfold generateTone. cbv zeta. step.
  assert (Hloop : forall s1, rel s s1 [] -> audioBuffer s1 = audioBuffer s ->
    twp (peakSample <-
           generateTone_loop p fuel frequency samples
             (s16 (Arduino.map (Arduino.constrain volume 0 100) 0 100 0 32767)) 0 0;;
         print (Txt "Peak sample: ");; print (Dec peakSample);; print (Txt " (");;
         print (Dec (Z.quot (Arduino.abs peakSample * 100) 32767));;
         println (Txt "% of max)")) s1
      (fun _ s' => tone_post p frequency samples volume s s')).
  { intros s1 R1 Hbuf. apply twp_bind. eapply twp_mono.
    { apply (generateTone_loop_spec p _ _ _ (Z.to_nat AUDIO_BUFFER_SIZE)); [lia | | exact Hfuel].
      rewrite Z2Nat.id by (unfold AUDIO_BUFFER_SIZE; lia). lia. }
    cbn beta. intros peak s2 (R2 & Hlen & Hin & Hout). steps.
    split.
    { eapply rel_marks_eq.
      - eapply rel_trans; [exact R1|]. eapply rel_trans; [exact R2|]. rel_done.
      - reflexivity. }
    cbn [audioBuffer set_log]. rewrite Hbuf in *.
    split; [exact Hlen|]. split.
    - intros j Hj Hlt. apply Hin; [lia | exact Hlt].
    - intros j Hj. apply Hout. lia. }
  destruct (firstCall s).
  - steps. apply Hloop; [rel_done | reflexivity].
  - steps. apply Hloop; [apply rel_refl | reflexivity].
Qed.

Lemma in_bounds_bind {A B} (m : M A) (k : A -> M B) :
  in_bounds m -> (forall a, in_bounds (k a)) -> in_bounds (bind m k).
Proof.
  intros Hm Hk s. unfold bind. specialize (Hm s).
  destruct (m s) as [a s1| |]; [apply Hk | discriminate | contradiction].
Qed.

Lemma in_bounds_emit (e : Event) : in_bounds (emit e).
Proof. intros s. discriminate. Qed.

Lemma in_bounds_get {A} (f : Driver -> A) : in_bounds (get f).
Proof. intros s. discriminate. Qed.

Lemma in_bounds_modify (f : Driver -> Driver) : in_bounds (modify f).
Proof. intros s. discriminate. Qed.

Lemma in_bounds_ret {A} (a : A) : in_bounds (ret a).
Proof. intros s. discriminate. Qed.

Lemma in_bounds_store (i v : Z) : 0 <= i < AUDIO_BUFFER_SIZE -> in_bounds (store_sample i v).
Proof. intros Hi s. now rewrite store_sample_in_bounds. Qed.

Ltac bounds :=
  repeat lazymatch goal with
    | |- in_bounds (bind _ _) => apply in_bounds_bind; [|intros ?]
    | |- in_bounds (if _ then _ else _) => case_match
    | |- in_bounds (ret _) => apply in_bounds_ret
    | |- in_bounds (print _) => apply in_bounds_emit
    | |- in_bounds (println _) => apply in_bounds_emit
    | |- in_bounds (get _) => apply in_bounds_get
    | |- in_bounds (modify _) => apply in_bounds_modify
    end.

(** No store of the synthesis loop lands outside the buffer, whatever the
    requested sample count and however the loop is bounded. *)
Lemma generateTone_loop_in_bounds p (fuel : nat) :
  forall (frequency samples amplitude i peakSample : Z),
  0 <= i ->
  in_bounds (generateTone_loop p fuel frequency samples amplitude i peakSample).
Proof.
  induction fuel as [|fuel IH]; intros frequency samples amplitude i peak Hi;
    cbn [generateTone_loop];
    destruct ((i <? samples) && (i <? AUDIO_BUFFER_SIZE)) eqn:Hc;
    try (intros s; discriminate).
  apply andb_true_iff in Hc as [Hs Hb]. rewrite Z.ltb_lt in Hs, Hb.
  cbv zeta. bounds.
  - apply in_bounds_store. lia.
  - apply IH. unfold u16. apply Z.mod_pos_bound. lia.
Qed.

Lemma generateTone_in_bounds p (fuel : nat) (frequency samples volume : Z) (s : Driver) :
  generateTone p fuel frequency samples volume s <> OutOfBounds.
Proof.
  revert s. change (in_bounds (generateTone p fuel frequency samples volume)).
  unfold generateTone. cbv zeta. bounds.
  all: apply generateTone_loop_in_bounds; lia.
Qed.

(** ** startTransfer *)

Lemma startTransfer_rel p (n : Z) (s : Driver) :
  twp (startTransfer p n) s (fun _ s' => rel s s' [Count n; Start]).
Proof. destruct s. unfold startTransfer. nsteps. rel_done. Qed.

(** ** Chunking *)

Lemma chunk_sizes_zero : chunk_sizes 0 = [].
Proof. reflexivity. Qed.

Lemma chunk_sizes_step (total : Z) :
  0 < total ->
  chunk_sizes total =
    Z.min total AUDIO_BUFFER_SIZE :: chunk_sizes (total - Z.min total AUDIO_BUFFER_SIZE).
Proof.
  intros Ht. unfold chunk_sizes, AUDIO_BUFFER_SIZE.
  destruct (Z_lt_le_dec total 256) as [Hlt|Hge].
  - rewrite Z.min_l by lia. rewrite Z.sub_diag.
    rewrite Z.div_small, Z.mod_small by lia. cbn.
    destruct (Z.eqb_spec total 0); [lia | reflexivity].
  - rewrite Z.min_r by lia.
    assert (Hd : total / 256 = (total - 256) / 256 + 1).
    { replace total with ((total - 256) + 1 * 256) at 1 by lia. now rewrite Z.div_add by lia. }
    assert (Hm : total mod 256 = (total - 256) mod 256).
    { replace total with ((total - 256) + 1 * 256) at 1 by lia. now rewrite Z.mod_add by lia. }
    assert (0 <= (total - 256) / 256) by (apply Z.div_pos; lia).
    rewrite Hd, Hm, Z2Nat.inj_add by lia.
    change (Z.to_nat 1) with 1%nat. rewrite Nat.add_1_r. reflexivity.
Qed.


Lemma total_of_app (a b : list Z) : total_of (a ++ b) = total_of a + total_of b.
Proof.
  induction a as [|x a IH]; [reflexivity|].
  change (x + total_of (a ++ b) = x + total_of a + total_of b). rewrite IH. lia.
Qed.

Lemma total_of_replicate (n : nat) (x : Z) : total_of (replicate n x) = Z.of_nat n * x.
Proof.
  induction n as [|n IH]; [reflexivity|]. cbn [replicate].
  change (total_of (x :: replicate n x)) with (x + total_of (replicate n x)).
  rewrite IH. lia.
Qed.

Lemma chunk_sizes_sum (total : Z) : 0 <= total -> total_of (chunk_sizes total) = total.
Proof.
  intros Ht. unfold chunk_sizes, AUDIO_BUFFER_SIZE.
  rewrite total_of_app, total_of_replicate.
  assert (0 <= total / 256) by (apply Z.div_pos; lia).
  rewrite Z2Nat.id by lia.
  pose proof (Z.div_mod total 256 ltac:(lia)) as Hdm.
  destruct (Z.eqb_spec (total mod 256) 0); cbn; lia.
Qed.

Lemma chunk_sizes_bounds (total : Z) :
  0 <= total -> Forall (fun c => 1 <= c <= AUDIO_BUFFER_SIZE) (chunk_sizes total).
Proof.
  intros Ht. unfold chunk_sizes, AUDIO_BUFFER_SIZE. apply Forall_app. split.
  - apply Forall_replicate. lia.
  - pose proof (Z.mod_pos_bound total 256 ltac:(lia)) as Hm.
    destruct (Z.eqb_spec (total mod 256) 0); constructor; [lia | constructor].
Qed.

(** ** playTone *)

Lemma playTone_loop_spec p (K fuel : nat) (frequency volume : Z) :
  responsive p K -> (K <= fuel)%nat -> (Z.to_nat AUDIO_BUFFER_SIZE <= fuel)%nat ->
  forall (n : nat) (total : Z) (s : Driver),
  0 <= total < 2 ^ 32 ->
  total <= Z.of_nat n * AUDIO_BUFFER_SIZE ->
  twp (playTone_loop p fuel n frequency volume total) s
      (fun _ s' => rel s s' (flat_map chunk_marks (chunk_sizes total))).
Proof.
  intros Hresp HK Hbuf. induction n as [|n IH]; intros total s Ht Hn.
  - assert (total = 0) by lia. subst total. cbn. step. apply rel_refl.
  - cbn [playTone_loop]. destruct (Z.gtb_spec total 0) as [Hpos|Hz].
    2:{ assert (total = 0) by lia. subst total. step. apply rel_refl. }
    cbv zeta. unfold Arduino.min.
    assert (Hmin : (if total <? AUDIO_BUFFER_SIZE then total else AUDIO_BUFFER_SIZE)
                   = Z.min total AUDIO_BUFFER_SIZE).
    { destruct (Z.ltb_spec total AUDIO_BUFFER_SIZE); lia. }
    rewrite Hmin. set (chunk := Z.min total AUDIO_BUFFER_SIZE).
    assert (Hchunk : 0 < chunk <= AUDIO_BUFFER_SIZE) by (unfold chunk, AUDIO_BUFFER_SIZE; lia).
    rewrite (u16_small chunk) by (unfold AUDIO_BUFFER_SIZE in Hchunk; lia).
    rewrite (u32_small (total - chunk)) by (unfold chunk, AUDIO_BUFFER_SIZE; lia).
    rewrite (chunk_sizes_step total Hpos). fold chunk. cbn [flat_map].
    apply twp_bind. eapply twp_mono; [apply generateTone_spec; exact Hbuf|].
    cbn beta. intros _ s1 (R1 & _).
    apply twp_bind. eapply twp_mono; [apply startTransfer_rel|].
    cbn beta. intros _ s2 R2.
    apply twp_bind. eapply twp_mono;
      [apply (waitForCompletion_rel p K); [exact Hresp | exact HK | lia]|].
    cbn beta. intros _ s3 R3.
    eapply twp_mono.
    { apply IH; unfold chunk, AUDIO_BUFFER_SIZE in *; lia. }
    cbn beta. intros _ s4 R4.
    eapply rel_marks_eq.
    + eapply rel_trans; [exact R1|]. eapply rel_trans; [exact R2|].
      eapply rel_trans; [exact R3 | exact R4].
    + reflexivity.
Qed.

Lemma constrain_range (x lo hi : Z) : lo <= hi -> lo <= Arduino.constrain x lo hi <= hi.
Proof.
  intros H. unfold Arduino.constrain.
  destruct (Z.ltb_spec x lo); [lia|]. destruct (Z.gtb_spec x hi); lia.
Qed.

Lemma constrain_max_min (x lo hi : Z) :
  lo <= hi -> Arduino.constrain x lo hi = Z.max lo (Z.min x hi).
Proof.
  intros H. unfold Arduino.constrain.
  destruct (Z.ltb_spec x lo); [lia|]. destruct (Z.gtb_spec x hi); lia.
Qed.

Lemma tone_samples_eq (d : Z) :
  tone_samples d = 16 * Arduino.constrain d 1 MAX_TONE_DURATION_MS.
Proof.
  unfold tone_samples, SAMPLE_RATE.
  replace (16000 * Arduino.constrain d 1 MAX_TONE_DURATION_MS)
    with (16 * Arduino.constrain d 1 MAX_TONE_DURATION_MS * 1000) by lia.
  now rewrite Z.div_mul by lia.
Qed.

Lemma tone_samples_range (d : Z) : 16 <= tone_samples d <= 32000.
Proof.
  rewrite tone_samples_eq.
  pose proof (constrain_range d 1 MAX_TONE_DURATION_MS) as H.
  unfold MAX_TONE_DURATION_MS in *. lia.
Qed.

(** The sample count [playTone] computes in 32-bit arithmetic. *)
Lemma playTone_total (d : Z) :
  Z.quot (u32 (SAMPLE_RATE * Arduino.constrain d 1 MAX_TONE_DURATION_MS)) 1000
  = tone_samples d.
Proof.
  pose proof (constrain_range d 1 MAX_TONE_DURATION_MS) as H.
  unfold tone_samples, SAMPLE_RATE, MAX_TONE_DURATION_MS in *.
  rewrite u32_small by lia. apply Z.quot_div_nonneg; lia.
Qed.

Lemma playTone_spec p (K fuel : nat) (frequency duration_ms volume : Z) (s : Driver) :
  responsive p K -> (K <= fuel)%nat -> (Z.to_nat AUDIO_BUFFER_SIZE <= fuel)%nat ->
  initialized s = true ->
  twp (playTone p fuel frequency duration_ms volume) s (fun _ s' =>
    initialized s' = true /\ playing s' = false /\
    adds s s' (tone_marks (chunk_sizes (tone_samples duration_ms)))).
Proof.
  intros Hresp HK Hbuf Hinit. unfold playTone. step. rewrite Hinit. cbn [negb].
  cbv zeta. rewrite playTone_total. do 7 step.
  pose proof (tone_samples_range duration_ms) as Hr.
  apply twp_bind. eapply twp_mono.
  { apply (playTone_loop_spec p K); [exact Hresp | exact HK | exact Hbuf | lia |].
    unfold AUDIO_BUFFER_SIZE in *. lia. }
  cbn beta. intros _ s1 [Hi Hp (t & Hl & Hm)]. step.
  cbn [initialized playing log set_playing set_log] in *.
  split; [congruence|]. split; [reflexivity|].
  unfold adds. cbn [log set_playing]. rewrite Hl, <- !app_assoc.
  eexists. split; [reflexivity|].
  cbn [app]. unfold tone_marks. rewrite <- Hm. reflexivity.
Qed.

(** Whatever the hardware does, a call that gets past the guard and
    returns has cleared the playing flag. *)
Lemma playTone_clears_playing p (fuel : nat) (frequency duration_ms volume : Z)
    (s s' : Driver) :
  initialized s = true ->
  playTone p fuel frequency duration_ms volume s = Ok tt s' ->
  playing s' = false.
Proof.
  intros Hinit. unfold playTone. unfold bind at 1. cbn [get]. rewrite Hinit. cbn [negb].
  cbv zeta. do 7 (unfold bind at 1; cbn [print println modify emit]).
  unfold bind at 1. destruct (playTone_loop _ _ _ _ _ _ _) as [[] s1| |]; try discriminate.
  cbn [modify]. intros [= <-]. reflexivity.
Qed.

(** The guard: an uninitialised driver only reports. *)
Lemma playTone_guard p (fuel : nat) (frequency duration_ms volume : Z) (s : Driver) :
  initialized s = false ->
  playTone p fuel frequency duration_ms volume s =
    Ok tt (set_log (log s ++ [EvSerial (Txt "ERROR: I2S not initialized") true]) s).
Proof. intros Hinit. unfold playTone, bind. cbn [get]. now rewrite Hinit. Qed.

(** ** playMelody *)

Lemma u8_small (x : Z) : 0 <= x < 2 ^ 8 -> u8 x = x.
Proof. intros H. unfold u8. now apply Z.mod_small. Qed.

Lemma load_some (arr : list Z) (i : Z) (v : Z) (s : Driver) :
  arr !! Z.to_nat i = Some v -> load arr i s = Ok v s.
Proof. intros H. unfold load. now rewrite H. Qed.

Lemma bind_ext {A B} (m : M A) (k k' : A -> M B) (s : Driver) :
  (forall a s1, k a s1 = k' a s1) -> bind m k s = bind m k' s.
Proof. intros H. unfold bind. destruct (m s); auto. Qed.

(** The indexed loop of the code visits the notes in array order. *)
Lemma playMelody_loop_notes p (fuel : nat) (frequencies durations : list Z)
    (count volume : Z) :
  Z.of_nat (length frequencies) = count ->
  Z.of_nat (length durations) = count ->
  count <= 255 ->
  forall (n : nat) (i : nat) (s : Driver),
  Z.of_nat i <= count ->
  count - Z.of_nat i <= Z.of_nat n ->
  playMelody_loop p fuel n frequencies durations count volume (Z.of_nat i) s
  = play_notes p fuel (zip (drop i frequencies) (drop i durations)) volume s.
Proof.
  intros Hf Hd Hc. induction n as [|n IH]; intros i s Hi Hn.
  - assert (Z.of_nat i = count) by lia.
    rewrite drop_ge by lia. cbn. destruct (Z.ltb_spec (Z.of_nat i) count); [lia | reflexivity].
  - cbn [playMelody_loop]. destruct (Z.ltb_spec (Z.of_nat i) count) as [Hlt|Hge].
    + destruct (lookup_lt_is_Some_2 frequencies i ltac:(lia)) as [f Ef].
      destruct (lookup_lt_is_Some_2 durations i ltac:(lia)) as [d Ed].
      rewrite (drop_S _ _ _ Ef), (drop_S _ _ _ Ed). cbn [zip zip_with play_notes].
      unfold bind at 1. rewrite (load_some _ _ f) by now rewrite Nat2Z.id.
      unfold bind at 1. rewrite (load_some _ _ d) by now rewrite Nat2Z.id.
      apply bind_ext. intros _ s1. apply bind_ext. intros _ s2.
      rewrite u8_small by lia.
      replace (Z.of_nat i + 1) with (Z.of_nat (S i)) by lia.
      apply IH; lia.
    + rewrite drop_ge by lia. reflexivity.
Qed.

Lemma play_notes_spec p (K fuel : nat) (volume : Z) :
  responsive p K -> (K <= fuel)%nat -> (Z.to_nat AUDIO_BUFFER_SIZE <= fuel)%nat ->
  forall (notes : list (Z * Z)) (s : Driver),
  initialized s = true -> playing s = false ->
  twp (play_notes p fuel notes volume) s (fun _ s' =>
    initialized s' = true /\ playing s' = false /\
    adds s s' (melody_marks (map snd notes))).
Proof.
  intros Hresp HK Hbuf. induction notes as [|[f d] rest IH]; intros s Hinit Hplay.
  - cbn. step. repeat split; auto. exists []. now rewrite app_nil_r.
  - cbn [play_notes]. apply twp_bind. eapply twp_mono.
    { apply (playTone_spec p K); assumption. }
    cbn beta. intros _ s1 (Hi1 & Hp1 & t1 & Hl1 & Hm1). step.
    eapply twp_mono; [apply IH; assumption|].
    cbn beta. intros _ s2 (Hi2 & Hp2 & t2 & Hl2 & Hm2).
    split; [assumption|]. split; [assumption|].
    cbn [log set_log] in Hl2. exists (t1 ++ [EvDelay 20] ++ t2). split.
    + rewrite Hl2, Hl1. now rewrite <- !app_assoc.
    + rewrite !marks_app, Hm1, Hm2. cbn [map snd melody_marks flat_map].
      now rewrite <- app_assoc.
Qed.

Lemma count_mark_app (m : Mark) (a b : list Mark) :
  count_mark m (a ++ b) = (count_mark m a + count_mark m b)%nat.
Proof. apply count_occ_app. Qed.

Lemma count_chunks (m : Mark) (chunks : list Z) :
  m = Gap \/ m = ToneStart -> count_mark m (flat_map chunk_marks chunks) = 0%nat.
Proof.
  intros Hm. induction chunks as [|c rest IH]; [reflexivity|].
  cbn [flat_map]. rewrite count_mark_app, IH.
  destruct Hm as [-> | ->]; reflexivity.
Qed.

(** A melody has one playback and one gap per note. *)
Lemma melody_marks_counts (durations : list Z) :
  count_mark ToneStart (melody_marks durations) = length durations /\
  count_mark Gap (melody_marks durations) = length durations.
Proof.
  induction durations as [|d rest [IH1 IH2]]; [split; reflexivity|].
  unfold melody_marks in *. cbn [flat_map length].
  rewrite !count_mark_app, IH1, IH2. unfold tone_marks.
  change (ToneStart :: ?l) with ([ToneStart] ++ l).
  rewrite !count_mark_app, !count_chunks by auto. split; reflexivity.
Qed.

(** ** The public interface as a whole *)

Lemma keeps_idle_bind {A B} (m : M A) (k : A -> M B) :
  keeps_idle m -> (forall a, keeps_idle (k a)) -> keeps_idle (bind m k).
Proof.
  intros Hm Hk s b s' Hp. unfold bind.
  destruct (m s) as [a s1| |] eqn:E; try discriminate.
  intros H. exact (Hk a s1 b s' (Hm s a s1 Hp E) H).
Qed.

Lemma keeps_idle_ret {A} (a : A) : keeps_idle (ret a).
Proof. intros s a' s' Hp [= _ <-]. exact Hp. Qed.

Lemma keeps_idle_emit (e : Event) : keeps_idle (emit e).
Proof. intros s a s' Hp [= _ <-]. exact Hp. Qed.

Lemma keeps_idle_reg_write (r : Reg) (v : Z) : keeps_idle (reg_write r v).
Proof. intros s a s' Hp [= _ <-]. exact Hp. Qed.

Lemma keeps_idle_reg_read (r : Reg) : keeps_idle (reg_read r).
Proof. intros s a s' Hp [= _ <-]. exact Hp. Qed.

Lemma keeps_idle_observe p (i : Input) : keeps_idle (observe p i).
Proof. intros s a s' Hp [= _ <-]. exact Hp. Qed.

Lemma keeps_idle_get {A} (f : Driver -> A) : keeps_idle (get f).
Proof. intros s a s' Hp [= _ <-]. exact Hp. Qed.

Lemma keeps_idle_modify (f : Driver -> Driver) :
  (forall s, playing s = false -> playing (f s) = false) -> keeps_idle (modify f).
Proof. intros Hf s a s' Hp [= _ <-]. auto. Qed.

Lemma keeps_idle_out_of_fuel {A} : keeps_idle (@out_of_fuel A).
Proof. intros s a s' _ H. discriminate. Qed.

Lemma keeps_idle_load (arr : list Z) (i : Z) : keeps_idle (load arr i).
Proof.
  intros s a s'. unfold load.
  destruct (_ !! _); [intros Hp [= _ <-]; exact Hp | discriminate].
Qed.

Lemma keeps_idle_if {A} (b : bool) (m1 m2 : M A) :
  keeps_idle m1 -> keeps_idle m2 -> keeps_idle (if b then m1 else m2).
Proof. now destruct b. Qed.

Ltac idle :=
  repeat lazymatch goal with
    | |- keeps_idle (bind _ _) => apply keeps_idle_bind; [|intros ?]
    | |- keeps_idle (if _ then _ else _) => apply keeps_idle_if
    | |- keeps_idle (ret _) => apply keeps_idle_ret
    | |- keeps_idle (emit _) => apply keeps_idle_emit
    | |- keeps_idle (reg_write _ _) => apply keeps_idle_reg_write
    | |- keeps_idle (reg_read _) => apply keeps_idle_reg_read
    | |- keeps_idle (observe _ _) => apply keeps_idle_observe
    | |- keeps_idle (get _) => apply keeps_idle_get
    | |- keeps_idle out_of_fuel => apply keeps_idle_out_of_fuel
    | |- keeps_idle (modify _) =>
        apply keeps_idle_modify; intros ? ?; (reflexivity || assumption)
    | |- keeps_idle (load _ _) => apply keeps_idle_load
    | |- keeps_idle yield => apply keeps_idle_emit
    | |- keeps_idle (delay _) => apply keeps_idle_emit
    | |- keeps_idle (print _) => apply keeps_idle_emit
    | |- keeps_idle (println _) => apply keeps_idle_emit
    | |- keeps_idle (millis _) => apply keeps_idle_observe
    end.

Lemma keeps_idle_wait_hfclk p (fuel : nat) : keeps_idle (wait_hfclk p fuel).
Proof. induction fuel; cbn [wait_hfclk]; idle. exact IHfuel. Qed.

Lemma keeps_idle_wait_stopped p (fuel : nat) : keeps_idle (wait_stopped p fuel).
Proof. induction fuel; cbn [wait_stopped]; idle. exact IHfuel. Qed.

Lemma keeps_idle_begin p (fuel : nat) : keeps_idle (begin p fuel).
Proof.
  unfold begin, configureI2S, print, println, delay. idle.
  apply keeps_idle_wait_hfclk.
Qed.

Lemma keeps_idle_playTone p (fuel : nat) (f d v : Z) : keeps_idle (playTone p fuel f d v).
Proof.
  intros s a s' Hp H. destruct (initialized s) eqn:Hinit.
  - destruct a. exact (playTone_clears_playing _ _ _ _ _ _ _ Hinit H).
  - rewrite playTone_guard in H by exact Hinit. injection H as H. subst s'. exact Hp.
Qed.

Lemma keeps_idle_playMelody p (fuel : nat) (fs ds : list Z) (n v : Z) :
  keeps_idle (playMelody p fuel fs ds n v).
Proof.
  unfold playMelody. generalize 0 at 1. generalize fuel at 2.
  intros k. induction k as [|k IH]; intros i; cbn [playMelody_loop]; unfold delay; idle.
  - apply keeps_idle_playTone.
  - apply IH.
Qed.

Lemma keeps_idle_stop p (fuel : nat) : keeps_idle (stop p fuel).
Proof. unfold stop. idle. apply keeps_idle_wait_stopped. Qed.

Lemma keeps_idle_suspend p (fuel : nat) : keeps_idle (suspend p fuel).
Proof. unfold suspend, println. idle. apply keeps_idle_stop. Qed.

Lemma keeps_idle_resume p : keeps_idle (resume p).
Proof. unfold resume, println, delay. idle. Qed.

(** Between calls the driver is never playing. *)
Lemma reachable_idle p (s : Driver) : reachable p s -> playing s = false.
Proof.
  induction 1 as [|s s' fuel c _ IH H]; [reflexivity|].
  destruct c; cbn [perform] in H.
  - revert H. apply keeps_idle_bind; [apply keeps_idle_begin | intros; apply keeps_idle_ret | exact IH].
  - exact (keeps_idle_playTone _ _ _ _ _ _ _ _ IH H).
  - exact (keeps_idle_playMelody _ _ _ _ _ _ _ _ _ IH H).
  - exact (keeps_idle_stop _ _ _ _ _ IH H).
  - exact (keeps_idle_suspend _ _ _ _ _ IH H).
  - exact (keeps_idle_resume _ _ _ _ IH H).
Qed.

(** ** begin *)

Lemma yields_bind {A B} (P : B -> Prop) (m : M A) (k : A -> M B) :
  (forall a, yields P (k a)) -> yields P (bind m k).
Proof.
  intros Hk s b s'. unfold bind. destruct (m s) as [a s1| |]; try discriminate.
  apply Hk.
Qed.

Lemma yields_ret {A} (P : A -> Prop) (a : A) : P a -> yields P (ret a).
Proof. intros H s a' s' [= <- _]. exact H. Qed.

Lemma begin_yields_true p (fuel : nat) : yields (fun b => b = true) (begin p fuel).
Proof.
  unfold begin. apply yields_bind. intros init. destruct init.
  - apply yields_bind. intros _. now apply yields_ret.
  - repeat (apply yields_bind; intros ?). now apply yields_ret.
Qed.

Lemma wait_hfclk_live p (K : nat) :
  live p K InHFCLKSTARTED ->
  forall (s : Driver) (fuel : nat), (K <= fuel)%nat ->
  twp (wait_hfclk p fuel) s (fun _ s' => same s s' /\ log s' = log s).
Proof.
  intros Hlive s fuel HK.
  destruct (Hlive (cursor s InHFCLKSTARTED)) as (j & Hj & Hseen).
  assert (Hfuel : (j < fuel)%nat) by lia. clear Hj HK Hlive.
  revert s fuel Hseen Hfuel.
  induction j as [|j IH]; intros s fuel Hseen Hfuel;
    (destruct fuel as [|fuel]; [lia|]); cbn [wait_hfclk].
  - rewrite Nat.add_0_r in Hseen. step.
    apply Z.eqb_neq in Hseen. rewrite Hseen. step. split; [now split | reflexivity].
  - step. destruct (u32 (hw_read p InHFCLKSTARTED (cursor s InHFCLKSTARTED)) =? 0).
    + eapply twp_mono.
      * apply IH; [|lia]. cbn [cursor set_cursor].
        rewrite fn_lookup_insert. now rewrite Nat.add_succ_comm.
      * cbn beta. intros _ s' ([] & Hl). split; [now split | exact Hl].
    + step. split; [now split | reflexivity].
Qed.

(** Once the high-frequency clock has started, the configuration runs
    to its end and leaves the peripheral enabled. *)
Lemma configureI2S_spec p (K fuel : nat) (s : Driver) :
  live p K InHFCLKSTARTED -> (K <= fuel)%nat ->
  twp (configureI2S p fuel) s (fun _ s' =>
    initialized s' = initialized s /\ playing s' = playing s /\
    audioBuffer s' = audioBuffer s /\ regs s' I2S_ENABLE = 1).
Proof.
  intros Hlive HK. destruct s as [b i pl fc r c l]. unfold configureI2S. do 2 nstep.
  apply twp_bind. eapply twp_mono; [apply (wait_hfclk_live p K); assumption|].
  cbn beta. intros _ [b1 i1 pl1 fc1 r1 c1 l1] ([Hb Hi Hp _ Hr] & _).
  cbn [initialized playing audioBuffer] in Hb, Hi, Hp. subst b1 i1 pl1.
  nsteps. repeat split; reflexivity.
Qed.

Lemma begin_first p (K fuel : nat) (s : Driver) :
  live p K InHFCLKSTARTED -> (K <= fuel)%nat -> initialized s = false ->
  twp (begin p fuel) s (fun b s' =>
    b = true /\ initialized s' = true /\ playing s' = playing s /\
    audioBuffer s' = audioBuffer s /\ regs s' I2S_ENABLE = 1).
Proof.
  intros Hlive HK Hinit. unfold begin. step. rewrite Hinit. step.
  apply twp_bind. eapply twp_mono; [apply (configureI2S_spec p K); assumption|].
  cbn beta. intros _ [b1 i1 pl1 fc1 r1 c1 l1] (Hi & Hp & Hb & Hr).
  cbn [initialized playing audioBuffer regs] in Hi, Hp, Hb, Hr.
  nsteps. repeat split; assumption.
Qed.

Lemma begin_again p (fuel : nat) (s : Driver) :
  initialized s = true ->
  begin p fuel s = Ok true (set_log (log s ++ [EvSerial (Txt "I2S already initialized") true]) s).
Proof. intros Hinit. unfold begin, bind. cbn [get]. now rewrite Hinit. Qed.

(** ** Facts about the reference platforms *)

Lemma prompt_live (ev : Input) : ev <> InMillis -> live Reference.prompt 1 ev.
Proof. intros H k. exists O. split; [lia|]. destruct ev; try discriminate; contradiction. Qed.

Lemma prompt_responsive : responsive Reference.prompt 1.
Proof. split; apply prompt_live; discriminate. Qed.

Lemma prompt_fetched : fetched_after Reference.prompt Reference.ready 0.
Proof. split; [intros i Hi; lia | discriminate]. Qed.

Lemma silent_times_out : fetch_times_out Reference.silent Reference.ready 1.
Proof.
  split; [|split].
  - intros i Hi. assert (i = O) by lia. subst i. split; [reflexivity | discriminate].
  - reflexivity.
  - reflexivity.
Qed.

Lemma buffer_fits_256 : (Z.to_nat AUDIO_BUFFER_SIZE <= 256)%nat.
Proof. unfold AUDIO_BUFFER_SIZE. lia. Qed.

(** ** The computed sample against the sine *)

Section FloatingPoint.

Local Open Scope R_scope.

Lemma Rabs_sin_le (x : R) : Rabs (sin x) <= Rabs x.
Proof.
  assert (Hpos : forall y, 0 < y -> Rabs (sin y) <= y).
  { intros y Hy. apply Rabs_le. split.
    - destruct (Rle_lt_dec 1 y) as [H1|H1].
      + pose proof (SIN_bound y). lra.
      + pose proof PI2_3_2. assert (0 < sin y) by (apply sin_gt_0; lra). lra.
    - left. now apply sin_lt_x. }
  destruct (Rtotal_order x 0) as [Hx|[->|Hx]].
  - rewrite <- (Ropp_involutive x) at 1. rewrite sin_neg, Rabs_Ropp.
    rewrite (Rabs_left x) by lra. apply Hpos. lra.
  - rewrite sin_0, Rabs_R0. lra.
  - rewrite (Rabs_right x) by lra. now apply Hpos.
Qed.

Lemma sin_lipschitz (x y : R) : Rabs (sin x - sin y) <= Rabs (x - y).
Proof.
  rewrite form4. rewrite !Rabs_mult. rewrite (Rabs_right 2) by lra.
  pose proof (COS_bound ((x + y) / 2)) as Hc.
  assert (Rabs (cos ((x + y) / 2)) <= 1) by (apply Rabs_le; lra).
  pose proof (Rabs_sin_le ((x - y) / 2)) as Hs.
  assert (Rabs ((x - y) / 2) = Rabs (x - y) / 2).
  { unfold Rdiv. rewrite Rabs_mult. rewrite (Rabs_right (/ 2)) by lra. reflexivity. }
  pose proof (Rabs_pos (sin ((x - y) / 2))).
  pose proof (Rabs_pos (cos ((x + y) / 2))).
  nra.
Qed.

Lemma close_le (a b x' x : R) : a <= b -> close a x' x -> close b x' x.
Proof.
  unfold close. intros Hab H. pose proof (Rabs_pos x). nra.
Qed.

Lemma close_scale (a k x' x : R) : close a x' x -> close a (k * x') (k * x).
Proof.
  unfold close. intros H. replace (k * x' - k * x) with (k * (x' - x)) by ring.
  rewrite !Rabs_mult. pose proof (Rabs_pos k). nra.
Qed.

Lemma close_mul (a b x' x y' y : R) :
  0 <= a -> 0 <= b -> close a x' x -> close b y' y ->
  close (a + b * (1 + a)) (x' * y') (x * y).
Proof.
  unfold close. intros Ha Hb Hx Hy.
  replace (x' * y' - x * y) with ((x' - x) * y + x' * (y' - y)) by ring.
  eapply Rle_trans; [apply Rabs_triang|]. rewrite !Rabs_mult.
  assert (Rabs x' <= (1 + a) * Rabs x).
  { replace x' with (x + (x' - x)) at 1 by ring.
    eapply Rle_trans; [apply Rabs_triang|]. lra. }
  pose proof (Rabs_pos x). pose proof (Rabs_pos y). pose proof (Rabs_pos x').
  pose proof (Rabs_pos (x' - x)). pose proof (Rabs_pos (y' - y)).
  nra.
Qed.

Lemma close_round (a u x'' x' x : R) :
  0 <= a -> 0 <= u ->
  close a x' x -> Rabs (x'' - x') <= u * Rabs x' ->
  close (a + u * (1 + a)) x'' x.
Proof.
  unfold close. intros Ha Hu Hx Hr.
  replace (x'' - x) with ((x' - x) + (x'' - x')) by ring.
  eapply Rle_trans; [apply Rabs_triang|].
  assert (Rabs x' <= (1 + a) * Rabs x).
  { replace x' with (x + (x' - x)) at 1 by ring.
    eapply Rle_trans; [apply Rabs_triang|]. lra. }
  pose proof (Rabs_pos x). pose proof (Rabs_pos x').
  nra.
Qed.

(** Truncation toward zero of a rational. *)
Lemma quot_trunc (q : Q) :
  let z := Z.quot (Qnum q) (Z.pos (Qden q)) in
  Rabs (IZR z - Q2R q) < 1 /\ Rabs (IZR z) <= Rabs (Q2R q).
Proof.
  destruct q as [n d]. cbn [Qnum Qden]. cbv zeta.
  pose proof (Z.quot_rem' n (Z.pos d)) as Hqr.
  pose proof (Z.rem_bound_abs n (Z.pos d) ltac:(lia)) as Hb.
  set (z := Z.quot n (Z.pos d)) in *. set (r := Z.rem n (Z.pos d)) in *.
  assert (Hd : 0 < IZR (Z.pos d)) by (apply IZR_lt; lia).
  unfold Q2R. cbn [Qnum Qden].
  assert (Hn : IZR n = IZR (Z.pos d) * IZR z + IZR r).
  { rewrite <- mult_IZR, <- plus_IZR. now f_equal. }
  assert (Hrem : IZR n * / IZR (Z.pos d) = IZR z + IZR r / IZR (Z.pos d)).
  { rewrite Hn. field. lra. }
  rewrite Hrem.
  assert (Hr1 : Rabs (IZR r) < IZR (Z.pos d)).
  { rewrite <- abs_IZR. apply IZR_lt. lia. }
  assert (Hr2 : Rabs (IZR r / IZR (Z.pos d)) < 1).
  { unfold Rdiv. rewrite Rabs_mult, Rabs_inv. rewrite (Rabs_right (IZR (Z.pos d))) by lra.
    apply (Rmult_lt_reg_r (IZR (Z.pos d))); [lra|].
    rewrite Rmult_assoc, Rinv_l by lra. lra. }
  split.
  - replace (IZR z - (IZR z + IZR r / IZR (Z.pos d))) with (- (IZR r / IZR (Z.pos d))) by ring.
    now rewrite Rabs_Ropp.
  - (* same sign: z and r have the sign of n *)
    pose proof (Z.rem_sign_nz n (Z.pos d)) as Hs.
    assert (Hsame : 0 <= IZR z * (IZR r / IZR (Z.pos d))).
    { assert (0 <= z * r)%Z.
      { destruct (Z.eq_dec r 0%Z) as [->|Hr0]; [lia|].
        pose proof (Z.rem_sign_mul n (Z.pos d) ltac:(lia)) as Hm. fold r in Hm.
        pose proof (Z.quot_rem' n (Z.pos d)). 
        assert (Hzs : (0 <= z * n)%Z).
        { unfold z. destruct (Z.le_gt_cases 0%Z n).
          - assert (0 <= n ÷ Z.pos d)%Z by (apply Z.quot_pos; lia). nia.
          - assert (n ÷ Z.pos d <= 0)%Z.
            { rewrite <- (Z.opp_involutive n). rewrite Z.quot_opp_l by lia.
              assert (0 <= (- n) ÷ Z.pos d)%Z by (apply Z.quot_pos; lia). lia. }
            nia. }
        nia. }
      assert (0 <= IZR z * IZR r) by (rewrite <- mult_IZR; apply IZR_le; lia).
      unfold Rdiv. rewrite <- Rmult_assoc.
      apply Rmult_le_pos; [assumption|]. left. now apply Rinv_0_lt_compat. }
    set (a := IZR z) in *. set (b := IZR r / IZR (Z.pos d)) in *.
    unfold Rabs. destruct (Rcase_abs a), (Rcase_abs (a + b)); nra.
Qed.

Lemma close_round_lin (a u x'' x' x : R) :
  0 <= a <= 1 / 10 -> 0 <= u <= 1 / 100 ->
  close a x' x -> close u x'' x' ->
  close (a + 11 / 10 * u) x'' x.
Proof.
  intros Ha Hu Hx Hr. apply (close_le (a + u * (1 + a))); [nra|].
  apply (close_round a u x'' x' x); [lra | lra | exact Hx | exact Hr].
Qed.

Lemma close_mul_lin (a u x' x y' y : R) :
  0 <= a <= 1 / 10 -> 0 <= u <= 1 / 100 ->
  close a x' x -> close u y' y ->
  close (a + 11 / 10 * u) (x' * y') (x * y).
Proof.
  intros Ha Hu Hx Hy. apply (close_le (a + u * (1 + a))); [nra|].
  apply close_mul; [lra | lra | exact Hx | exact Hy].
Qed.

(** Arduino's literal for pi is pi to 18 decimals (and more). *)
Lemma PI_literal_close : close (1 / 10 ^ 18) (Q2R Arduino.PI) PI.
Proof.
  unfold close.
  assert (H : Rabs (Q2R Arduino.PI - PI) <= 1 / 10 ^ 18).
  { pose proof (PI_2_3_7_ineq 10) as [Hlo Hhi].
    unfold sum_f_R0, tg_alt, PI_2_3_7_tg, Ratan_seq in Hlo, Hhi.
    cbn [Nat.mul Nat.add pow INR] in Hlo, Hhi.
    unfold Q2R, Arduino.PI. cbn [Qnum Qden pow].
    apply Rabs_le. split; lra. }
  pose proof PI2_3_2. rewrite (Rabs_right PI) by lra.
  assert (0 < 1 / 10 ^ 18) by (apply Rdiv_lt_0_compat; [lra | apply pow_lt; lra]).
  nra.
Qed.

Lemma Q2R_inject_Z (z : Z) : Q2R (inject_Z z) = IZR z.
Proof. unfold Q2R. cbn. lra. Qed.

(** The angle the code computes against the angle of the claim. *)
Lemma angle_at_close p (u : R) (frequency i : Z) :
  0 <= u <= 1 / 100 -> rounds_within u p ->
  close (7 * u + 1 / 10 ^ 18) (Q2R (angle_at p frequency i))
        (2 * PI * IZR frequency * (IZR i / 16000)).
Proof.
  intros Hu Hr. unfold angle_at. cbv zeta.
  assert (Hc0 : 0 < 1 / 10 ^ 18 <= 1 / 10 ^ 2).
  { split; [apply Rdiv_lt_0_compat; [lra | apply pow_lt; lra]|].
    cbn [pow]. lra. }
  set (c0 := 1 / 10 ^ 18) in *.
  assert (Hc1 : 1 / 10 ^ 2 = 1 / 100) by (cbn [pow]; lra).
  (* double(PI) *)
  assert (H1 : close (c0 + 11 / 10 * u) (Q2R (double_round p Arduino.PI)) PI).
  { apply (close_round_lin c0 u _ (Q2R Arduino.PI)); [lra | lra | apply PI_literal_close |].
    apply Hr. }
  (* 2.0 * PI *)
  assert (H2 : close (c0 + 11 / 10 * u + 11 / 10 * u)
                 (Q2R (double_round p (2 * double_round p Arduino.PI))) (2 * PI)).
  { apply (close_round_lin _ u _ (Q2R (2 * double_round p Arduino.PI)%Q)); [lra | lra | |apply Hr].
    rewrite Q2R_mult. replace (Q2R 2) with 2 by (unfold Q2R; cbn; lra).
    now apply close_scale. }
  (* ... * frequency *)
  assert (H3 : close (c0 + 11 / 10 * u + 11 / 10 * u + 11 / 10 * u)
                 (Q2R (double_round p (double_round p (2 * double_round p Arduino.PI)
                                       * inject_Z frequency)))
                 (2 * PI * IZR frequency)).
  { eapply (close_round_lin _ u); [lra | lra | |apply Hr].
    rewrite Q2R_mult, Q2R_inject_Z.
    rewrite (Rmult_comm _ (IZR frequency)), (Rmult_comm (2 * PI) (IZR frequency)).
    now apply close_scale. }
  (* t *)
  assert (Ht : close u (Q2R (time_at p i)) (IZR i / 16000)).
  { unfold time_at.
    replace (IZR i / 16000) with (Q2R (inject_Z i / inject_Z SAMPLE_RATE)); [apply Hr|].
    rewrite Q2R_div by discriminate. rewrite !Q2R_inject_Z. reflexivity. }
  (* ... * t, and the conversion to float *)
  eapply (close_le (c0 + 11 / 10 * u + 11 / 10 * u + 11 / 10 * u + 11 / 10 * u
                    + 11 / 10 * u + 11 / 10 * u)); [lra|].
  eapply (close_round_lin _ u); [lra | lra | |apply Hr].
  eapply (close_round_lin _ u); [lra | lra | |apply Hr].
  rewrite Q2R_mult.
  apply close_mul_lin; [lra | lra | exact H3 | exact Ht].
Qed.

Lemma angle_at_error p (u : R) (frequency i : Z) :
  0 <= u <= 1 / 100 -> rounds_within u p -> (0 <= frequency)%Z -> (0 <= i)%Z ->
  Rabs (Q2R (angle_at p frequency i) - 2 * PI * IZR frequency * (IZR i / 16000))
  <= (7 * u + 1 / 10 ^ 18) * (2 * PI * IZR frequency * (IZR i / 16000)).
Proof.
  intros Hu Hr Hf Hi.
  pose proof (angle_at_close p u frequency i Hu Hr) as Hang.
  unfold close in Hang.
  rewrite (Rabs_right (2 * PI * IZR frequency * (IZR i / 16000))) in Hang; [exact Hang|].
  pose proof PI_RGT_0.
  assert (0 <= IZR frequency) by (apply IZR_le; lia).
  assert (0 <= IZR i) by (apply IZR_le; lia).
  apply Rle_ge. apply Rmult_le_pos; [apply Rmult_le_pos; lra|]. unfold Rdiv.
  apply Rmult_le_pos; lra.
Qed.

Lemma s16_small (z : Z) : (- 32768 <= z < 32768)%Z -> s16 z = z.
Proof. intros H. unfold s16. rewrite Z.mod_small by lia. lia. Qed.

(** The stored sample against the sample of the claim. *)
Lemma sample_at_close p (u e : R) (amplitude frequency i : Z) :
  0 <= u <= 1 / 100 -> 0 <= e -> (1 + e) * (1 + u) < 32768 / 32767 ->
  (0 <= amplitude <= 32767)%Z -> (0 <= frequency)%Z -> (0 <= i)%Z ->
  rounds_within u p -> sin_within e p (angle_at p frequency i) ->
  Rabs (IZR (sample_at p amplitude frequency i)
        - IZR amplitude * sin (2 * PI * IZR frequency * (IZR i / 16000)))
  < 1 + IZR amplitude
        * (e + u * (1 + e)
           + (7 * u + 1 / 10 ^ 18) * (2 * PI * IZR frequency * (IZR i / 16000))).
Proof.
  intros Hu He Hfit Ha Hf Hi Hr Hs.
  pose proof (angle_at_close p u frequency i Hu Hr) as Hang.
  set (theta := 2 * PI * IZR frequency * (IZR i / 16000)) in *.
  assert (Htheta : 0 <= theta).
  { unfold theta. pose proof PI_RGT_0.
    assert (0 <= IZR frequency) by (apply IZR_le; lia).
    assert (0 <= IZR i) by (apply IZR_le; lia).
    apply Rmult_le_pos; [apply Rmult_le_pos; lra|]. unfold Rdiv.
    apply Rmult_le_pos; lra. }
  unfold close in Hang. rewrite (Rabs_right theta) in Hang by lra.
  unfold sin_within in Hs.
  set (ang := Q2R (angle_at p frequency i)) in *.
  set (sv := Q2R (float_sin p (angle_at p frequency i))) in *.
  assert (HA : 0 <= IZR amplitude <= 32767) by (split; apply IZR_le; lia).
  set (A := IZR amplitude) in *.
  unfold sample_at, float_to_int16.
  set (xq := product_round p (inject_Z amplitude * float_sin p (angle_at p frequency i))).
  assert (Hx : Rabs (Q2R xq - A * sv) <= u * Rabs (A * sv)).
  { destruct (Hr (inject_Z amplitude * float_sin p (angle_at p frequency i))%Q) as [H H'].
    unfold close in H, H'. rewrite Q2R_mult, Q2R_inject_Z in H, H'.
    unfold xq, product_round. destruct (sin_returns_float p); assumption. }
  assert (Hsv : Rabs sv <= 1 + e).
  { pose proof (SIN_bound ang) as Hb.
    replace sv with (sin ang + (sv - sin ang)) by ring.
    eapply Rle_trans; [apply Rabs_triang|].
    assert (Rabs (sin ang) <= 1) by (apply Rabs_le; lra). lra. }
  assert (HAsv : Rabs (A * sv) <= A * (1 + e)).
  { rewrite Rabs_mult, (Rabs_right A) by lra. pose proof (Rabs_pos sv). nra. }
  assert (Hxq : Rabs (Q2R xq) < 32768).
  { replace (Q2R xq) with (A * sv + (Q2R xq - A * sv)) by ring.
    eapply Rle_lt_trans; [apply Rabs_triang|].
    pose proof (Rabs_pos (A * sv)).
    assert (Rabs (A * sv) + Rabs (Q2R xq - A * sv) <= A * ((1 + e) * (1 + u))) by nra.
    assert (A * ((1 + e) * (1 + u)) <= 32767 * ((1 + e) * (1 + u)))
      by (apply Rmult_le_compat_r; [apply Rmult_le_pos; lra | lra]).
    lra. }
  destruct (quot_trunc xq) as [Ht1 Ht2].
  set (z := (Qnum xq ÷ Z.pos (Qden xq))%Z) in *.
  assert (Hz : (- 32768 < z < 32768)%Z).
  { assert (Hz' : Rabs (IZR z) < 32768) by lra.
    apply Rabs_def2 in Hz'. destruct Hz' as [H1 H2].
    split; apply lt_IZR; lra. }
  rewrite s16_small by lia.
  replace (IZR z - A * sin theta)
    with ((IZR z - Q2R xq) + (Q2R xq - A * sv) + A * (sv - sin ang)
          + A * (sin ang - sin theta)) by ring.
  pose proof (sin_lipschitz ang theta) as Hl.
  assert (H1 : Rabs (A * (sv - sin ang)) <= A * e).
  { rewrite Rabs_mult, (Rabs_right A) by lra. nra. }
  assert (H2 : Rabs (A * (sin ang - sin theta)) <= A * ((7 * u + 1 / 10 ^ 18) * theta)).
  { rewrite Rabs_mult, (Rabs_right A) by lra. nra. }
  assert (H3 : Rabs (Q2R xq - A * sv) <= A * (u * (1 + e))) by nra.
  eapply Rle_lt_trans; [apply Rabs_triang|].
  eapply Rle_lt_trans; [apply Rplus_le_compat_r, Rabs_triang|].
  eapply Rle_lt_trans; [apply Rplus_le_compat_r, Rplus_le_compat_r, Rabs_triang|].
  lra.
Qed.

End FloatingPoint.

Section ReferenceAccuracy.
Local Open Scope R_scope.

Lemma reference_rounds_within : rounds_within 0 Reference.prompt.
Proof.
  intros x. unfold close. cbn [float_round double_round Reference.prompt Reference.platform].
  rewrite (Qeq_eqR _ _ (Qred_correct x)).
  replace (Q2R x - Q2R x) with 0 by ring. rewrite Rabs_R0. lra.
Qed.

Lemma fact_values :
  INR (fact 1) = 1 /\ INR (fact 3) = 6 /\ INR (fact 5) = 120 /\
  INR (fact 7) = 5040 /\ INR (fact 9) = 362880.
Proof.
  repeat split; rewrite INR_IZR_INZ; apply (f_equal IZR); vm_compute; reflexivity.
Qed.

Lemma reference_sin_within :
  sin_within (1 / 10 ^ 6) Reference.prompt (angle_at Reference.prompt 2000 1).
Proof.
  unfold sin_within.
  set (ang := angle_at Reference.prompt 2000 1). vm_compute in ang.
  set (v := float_sin Reference.prompt ang). vm_compute in v.
  assert (Hang : Q2R ang = 6283185307179586476925286766559 / 8000000000000000000000000000000).
  { unfold Q2R, ang. cbn [Qnum Qden]. lra. }
  pose proof PI2_3_2 as Hpi.
  pose proof (SIN (Q2R ang) ltac:(rewrite Hang; lra) ltac:(rewrite Hang; lra)) as [Hlo Hhi].
  destruct fact_values as (F1 & F3 & F5 & F7 & F9).
  unfold sin_lb, sin_ub, sin_approx, sum_f_R0, sin_term in Hlo, Hhi.
  cbn [Nat.mul Nat.add] in Hlo, Hhi.
  rewrite F1, F3, F5, F7 in Hlo. rewrite F1, F3, F5, F7, F9 in Hhi.
  rewrite Hang in *. cbn [pow] in *.
  unfold Q2R, v. cbn [Qnum Qden].
  apply Rabs_le. split; lra.
Qed.

End ReferenceAccuracy.

(** * The claims *)

(** C4.  If the buffer-fetched (TXPTRUPD) event does not appear within
    the 50 ms deadline, [waitForCompletion] returns from inside its first
    polling loop: after the polls that found the flag clear it logs the
    error and the ENABLE register and nothing else.  No register is
    written on that path (the task-stop register in particular), and no
    sleep is performed. *)
Theorem waitForCompletion_timeout_no_stop p (fuel j : nat) (sampleCount : Z) (s : Driver) :
  fetch_times_out p s j -> (j < fuel)%nat ->
  exists s',
    waitForCompletion p fuel sampleCount s = Ok tt s' /\
    log s' = log s ++ replicate j EvYield
                   ++ timeout_report "ERROR: I2S TXPTRUPD timeout!" s /\
    Forall no_sleep_no_stop
      (replicate j EvYield ++ timeout_report "ERROR: I2S TXPTRUPD timeout!" s) /\
    regs s' = regs s /\
    same s s'.
Proof.
  intros (Hclear & Hzero & Hlate) Hfuel.
  assert (H : twp (waitForCompletion p fuel sampleCount) s (fun _ s' =>
            same s s' /\
            log s' = log s ++ replicate j EvYield
                           ++ timeout_report "ERROR: I2S TXPTRUPD timeout!" s)).
  { unfold waitForCompletion. cbv zeta. step. apply twp_bind. eapply twp_mono.
    { apply (wait_event_timeout p InTXPTRUPD _ _ j); [discriminate | | | | exact Hfuel];
        cbn [cursor set_cursor];
        rewrite ?fn_lookup_insert, ?fn_lookup_insert_ne by discriminate; assumption. }
    cbn beta. intros b s1 (-> & Hsame & Hl). step.
    split; [destruct Hsame; now split | exact Hl]. }
  destruct H as ([] & s' & E & Hsame & Hl). exists s'.
  split; [exact E|]. split; [exact Hl|]. split.
  - apply Forall_app. split; [apply calm_replicate_yield | repeat constructor].
  - split; [apply Hsame | exact Hsame].
Qed.

Lemma waitForCompletion_timeout_no_stop_witness :
  exists s',
    waitForCompletion Reference.silent 2 256 Reference.ready = Ok tt s' /\
    log s' = [EvYield;
              EvSerial (Txt "ERROR: I2S TXPTRUPD timeout!") true;
              EvSerial (Txt "I2S ENABLE: ") false;
              EvSerial (Dec 0) true].
Proof.
  destruct (waitForCompletion_timeout_no_stop Reference.silent 2 1 256 Reference.ready
              silent_times_out ltac:(lia)) as (s' & E & Hl & _).
  exists s'. split; [exact E | exact Hl].
Defined.

(** C2, as the code has it.  For a sample count of the parameter's type
    the estimate is the quotient [sampleCount * 1000 / SAMPLE_RATE] rounded
    down (not up), and at least 1.  On the success path (the buffer-fetched
    event is seen on poll [j+1], in time) the function clears the event,
    sleeps for the estimate plus one millisecond, reports, and only then
    writes the task-stop register; nothing after that sleeps or stops
    again. *)
Theorem waitForCompletion_sleeps_then_stops p (K fuel j : nat) (sampleCount : Z) (s : Driver) :
  0 <= sampleCount < 2 ^ 16 ->
  fetched_after p s j -> (j < fuel)%nat ->
  live p K InSTOPPED -> (K <= fuel)%nat ->
  expectedDurationMs sampleCount = Z.max 1 (sampleCount * 1000 / SAMPLE_RATE) /\
  exists s' rest,
    waitForCompletion p fuel sampleCount s = Ok tt s' /\
    log s' = log s ++ replicate j EvYield ++
      [EvRegWrite EVENTS_TXPTRUPD 0;
       EvDelay (expectedDurationMs sampleCount + 1);
       EvSerial (Txt "Chunk playback ms: ") false;
       EvSerial (Dec (expectedDurationMs sampleCount)) true;
       EvRegWrite TASKS_STOP 1] ++ rest /\
    Forall no_sleep_no_stop rest.
Proof.
  intros Hn (Hclear & Hseen) Hfuel Hlive HK.
  pose proof (expectedDurationMs_floor sampleCount Hn) as He.
  split; [exact He|].
  assert (Hsmall : u32 (expectedDurationMs sampleCount + 1) = expectedDurationMs sampleCount + 1).
  { apply u32_small. rewrite He. unfold SAMPLE_RATE.
    assert (0 <= sampleCount * 1000 / 16000) by (apply Z.div_pos; lia).
    assert (sampleCount * 1000 / 16000 <= 4096) by (apply Z.div_le_upper_bound; lia).
    lia. }
  assert (H : twp (waitForCompletion p fuel sampleCount) s (fun _ s' =>
            exists rest,
              log s' = log s ++ replicate j EvYield ++
                [EvRegWrite EVENTS_TXPTRUPD 0;
                 EvDelay (expectedDurationMs sampleCount + 1);
                 EvSerial (Txt "Chunk playback ms: ") false;
                 EvSerial (Dec (expectedDurationMs sampleCount)) true;
                 EvRegWrite TASKS_STOP 1] ++ rest /\
              Forall no_sleep_no_stop rest)).
  { unfold waitForCompletion. cbv zeta. rewrite Hsmall. step. apply twp_bind. eapply twp_mono.
    { apply (wait_event_seen p InTXPTRUPD _ _ j); [discriminate | | | exact Hfuel];
        cbn [cursor set_cursor];
        rewrite ?fn_lookup_insert, ?fn_lookup_insert_ne by discriminate; assumption. }
    cbn beta. intros b s1 (-> & _ & Hl & _). cbn [log set_cursor] in Hl.
    do 6 step. apply twp_bind. eapply twp_mono.
    { apply (wait_event_live p InSTOPPED _ _ K); [discriminate | exact Hlive | exact HK]. }
    cbn beta. intros stopped s2 (_ & t & Hl2 & Hcalm & _).
    cbn [log set_log set_regs set_cursor] in Hl2. rewrite Hl in Hl2.
    destruct stopped.
    - steps. cbn [log set_log set_regs]. rewrite Hl2.
      exists (t ++ [EvRegWrite EVENTS_STOPPED 0; EvSerial (Txt "I2S chunk complete") true]).
      split; [now rewrite <- !app_assoc|].
      apply Forall_app. split; [exact Hcalm | repeat constructor].
    - step. exists t. split; [rewrite Hl2; now rewrite <- !app_assoc | exact Hcalm]. }
  destruct H as ([] & s' & E & rest & Hl & Hcalm). now exists s', rest.
Qed.

Lemma waitForCompletion_sleeps_then_stops_witness :
  expectedDurationMs 256 = Z.max 1 (256 * 1000 / SAMPLE_RATE) /\
  exists s' rest,
    waitForCompletion Reference.prompt 1 256 Reference.ready = Ok tt s' /\
    log s' = log Reference.ready ++ replicate 0 EvYield ++
      [EvRegWrite EVENTS_TXPTRUPD 0;
       EvDelay (expectedDurationMs 256 + 1);
       EvSerial (Txt "Chunk playback ms: ") false;
       EvSerial (Dec (expectedDurationMs 256)) true;
       EvRegWrite TASKS_STOP 1] ++ rest /\
    Forall no_sleep_no_stop rest.
Proof.
  apply (waitForCompletion_sleeps_then_stops Reference.prompt 1 1 0 256 Reference.ready).
  - lia.
  - exact prompt_fetched.
  - lia.
  - apply prompt_live. discriminate.
  - lia.
Defined.

(** C2, as the claim states it, fails twice.  The estimate is not the
    ceiling: for 100 samples the code computes 6 ms where the ceiling of
    6.25 is 7.  And the sleep is not the estimate: for a full buffer of
    256 samples the estimate is 16 ms and the code sleeps 17 ms before the
    stop command. *)
Lemma waitForCompletion_not_ceiling_not_estimate :
  expectedDurationMs 100 = 6 /\
  Z.max 1 (cdiv (100 * 1000) SAMPLE_RATE) = 7 /\
  expectedDurationMs 256 = 16 /\
  exists s',
    waitForCompletion Reference.prompt 1 256 Reference.ready = Ok tt s' /\
    log s' = [EvRegWrite EVENTS_TXPTRUPD 0;
              EvDelay 17;
              EvSerial (Txt "Chunk playback ms: ") false;
              EvSerial (Dec 16) true;
              EvRegWrite TASKS_STOP 1;
              EvRegWrite EVENTS_STOPPED 0;
              EvSerial (Txt "I2S chunk complete") true].
Proof.
  split; [reflexivity|]. split; [reflexivity|]. split; [reflexivity|].
  eexists. split; vm_compute; reflexivity.
Qed.

(** C5.  Called on a driver that is not initialized, [playTone] returns
    at once, whatever its arguments: the only effect is the diagnostic
    line; no register is written, the buffer is not modified, and the
    playing flag is left as it was, which is [false] in every state a
    driver can be in between calls. *)
Theorem playTone_uninitialized_inert p (fuel : nat) (frequency duration_ms volume : Z)
    (s : Driver) :
  initialized s = false ->
  exists s',
    playTone p fuel frequency duration_ms volume s = Ok tt s' /\
    log s' = log s ++ [EvSerial (Txt "ERROR: I2S not initialized") true] /\
    regs s' = regs s /\
    audioBuffer s' = audioBuffer s /\
    initialized s' = false /\
    isPlaying s' = isPlaying s /\
    (reachable p s -> isPlaying s' = false).
Proof.
  intros Hinit. eexists. split; [apply playTone_guard; exact Hinit|].
  cbn [log regs audioBuffer initialized isPlaying playing set_log].
  repeat split; auto. apply reachable_idle.
Qed.

Lemma playTone_uninitialized_inert_witness :
  exists s',
    playTone Reference.prompt 0 440 1000 50 new_driver = Ok tt s' /\
    log s' = [EvSerial (Txt "ERROR: I2S not initialized") true] /\
    regs s' = regs new_driver /\
    audioBuffer s' = audioBuffer new_driver /\
    isPlaying s' = false.
Proof.
  destruct (playTone_uninitialized_inert Reference.prompt 0 440 1000 50 new_driver eq_refl)
    as (s' & E & Hl & Hr & Hb & _ & Hp & _).
  exists s'. repeat split; assumption.
Defined.



(** C10.  The duration is clamped from below as well as from above.
    For every request [d] the tone plays [16 * max 1 (min d 2000)] samples
    ([SAMPLE_RATE / 1000] = 16 per millisecond of the clamped duration),
    in chunks of 1 to 256 samples: a request inside [[1, 2000]] is played
    as asked, any request of at most 1 ms behaves as a request of 1 ms,
    and any request of at least 2000 ms as one of 2000 ms, which is 125
    full buffers.  In particular [playTone] with a duration of 0 is not a
    no-op: it plays one chunk of 16 samples. *)
Theorem playTone_clamps_duration p (K fuel : nat) (frequency volume : Z) (s : Driver) :
  responsive p K -> (K <= fuel)%nat -> (Z.to_nat AUDIO_BUFFER_SIZE <= fuel)%nat ->
  initialized s = true ->
  (forall d, d <= 1 ->
     playTone p fuel frequency d volume s = playTone p fuel frequency 1 volume s) /\
  (forall d, MAX_TONE_DURATION_MS <= d ->
     playTone p fuel frequency d volume s
     = playTone p fuel frequency MAX_TONE_DURATION_MS volume s) /\
  (exists s',
     playTone p fuel frequency 0 volume s = Ok tt s' /\
     adds s s' (tone_marks [SAMPLE_RATE / 1000]) /\
     tone_marks [SAMPLE_RATE / 1000] = [ToneStart; Synth; Count 16; Start; Await]) /\
  (forall d, exists s' chunks,
     playTone p fuel frequency d volume s = Ok tt s' /\
     adds s s' (tone_marks chunks) /\
     Forall (fun c => 1 <= c <= 256) chunks /\
     total_of chunks = 16 * Z.max 1 (Z.min d 2000)) /\
  (forall d, 2000 <= d -> exists s',
     playTone p fuel frequency d volume s = Ok tt s' /\
     adds s s' (tone_marks (replicate 125 256))).
Proof.
  intros Hresp HK Hbuf Hinit. split; [|split; [|split; [|split]]].
  - intros d Hd. unfold playTone.
    replace (Arduino.constrain d 1 MAX_TONE_DURATION_MS) with 1; [reflexivity|].
    unfold Arduino.constrain, MAX_TONE_DURATION_MS.
    destruct (Z.ltb_spec d 1); [reflexivity|]. destruct (Z.gtb_spec d 2000); lia.
  - intros d Hd. unfold playTone.
    replace (Arduino.constrain d 1 MAX_TONE_DURATION_MS) with MAX_TONE_DURATION_MS;
      [reflexivity|].
    unfold Arduino.constrain, MAX_TONE_DURATION_MS in *.
    destruct (Z.ltb_spec d 1); [lia|]. destruct (Z.gtb_spec d 2000); lia.
  - destruct (playTone_spec p K fuel frequency 0 volume s Hresp HK Hbuf Hinit)
      as ([] & s' & E & _ & _ & Ha).
    exists s'. split; [exact E|]. split; [exact Ha | reflexivity].
  - intros d.
    destruct (playTone_spec p K fuel frequency d volume s Hresp HK Hbuf Hinit)
      as ([] & s' & E & _ & _ & Ha).
    pose proof (tone_samples_range d) as Hr.
    exists s', (chunk_sizes (tone_samples d)).
    split; [exact E|]. split; [exact Ha|]. split.
    + apply (chunk_sizes_bounds (tone_samples d)). lia.
    + rewrite chunk_sizes_sum by lia. rewrite tone_samples_eq.
      rewrite constrain_max_min by (unfold MAX_TONE_DURATION_MS; lia).
      reflexivity.
  - intros d Hd.
    destruct (playTone_spec p K fuel frequency d volume s Hresp HK Hbuf Hinit)
      as ([] & s' & E & _ & _ & Ha).
    exists s'. split; [exact E|].
    replace (tone_samples d) with 32000 in Ha; [exact Ha|].
    rewrite tone_samples_eq, constrain_max_min by (unfold MAX_TONE_DURATION_MS; lia).
    unfold MAX_TONE_DURATION_MS. lia.
Qed.

Lemma playTone_clamps_duration_witness :
  (exists s',
     playTone Reference.prompt 256 440 0 50 Reference.ready = Ok tt s' /\
     adds Reference.ready s' [ToneStart; Synth; Count 16; Start; Await]) /\
  (exists s',
     playTone Reference.prompt 256 440 65535 50 Reference.ready = Ok tt s' /\
     adds Reference.ready s' (tone_marks (replicate 125 256))) /\
  (exists s' chunks,
     playTone Reference.prompt 256 440 3 50 Reference.ready = Ok tt s' /\
     adds Reference.ready s' (tone_marks chunks) /\ total_of chunks = 48).
Proof.
  destruct (playTone_clamps_duration Reference.prompt 1 256 440 50 Reference.ready
              prompt_responsive ltac:(lia) buffer_fits_256 eq_refl)
    as (_ & _ & (s0 & E0 & Ha0 & _) & Hall & Hmax).
  split; [exists s0; split; [exact E0 | exact Ha0]|]. split.
  - destruct (Hmax 65535 ltac:(lia)) as (s' & E & Ha). exists s'. split; [exact E | exact Ha].
  - destruct (Hall 3) as (s' & chunks & E & Ha & _ & Ht).
    exists s', chunks. split; [exact E|]. split; [exact Ha | exact Ht].
Defined.

(** C7.  [playTone] on an initialized driver ends idle.  On responsive
    hardware it returns, with the playing flag cleared; and on any
    hardware and with any bound on its loops, a call that returns has
    cleared the flag, chunk waits that timed out included, since those
    return into the loop of [playTone] and not out of it.  The flag is set
    inside [playTone] only, so between calls of the public methods a
    driver is never playing. *)
Theorem playTone_restores_idle p (K fuel : nat) (frequency duration_ms volume : Z)
    (s : Driver) :
  responsive p K -> (K <= fuel)%nat -> (Z.to_nat AUDIO_BUFFER_SIZE <= fuel)%nat ->
  initialized s = true ->
  (exists s',
     playTone p fuel frequency duration_ms volume s = Ok tt s' /\ isPlaying s' = false) /\
  (forall p' fuel' s',
     playTone p' fuel' frequency duration_ms volume s = Ok tt s' -> isPlaying s' = false) /\
  (forall p' s0, reachable p' s0 -> isPlaying s0 = false).
Proof.
  intros Hresp HK Hbuf Hinit. split; [|split].
  - destruct (playTone_spec p K fuel frequency duration_ms volume s Hresp HK Hbuf Hinit)
      as ([] & s' & E & _ & Hp & _).
    now exists s'.
  - intros p' fuel' s'. apply playTone_clears_playing. exact Hinit.
  - intros p' s0. apply reachable_idle.
Qed.

Lemma playTone_restores_idle_witness :
  exists s',
    playTone Reference.prompt 256 440 1000 50 Reference.ready = Ok tt s' /\
    isPlaying s' = false.
Proof.
  exact (proj1 (playTone_restores_idle Reference.prompt 1 256 440 1000 50 Reference.ready
           prompt_responsive ltac:(lia) buffer_fits_256 eq_refl)).
Defined.

(** A run in which the wait of the only chunk times out: the peripheral
    never raises an event, the report is the last thing logged, and the
    driver is idle afterwards. *)
Example playTone_idle_after_timeout :
  exists s',
    playTone Reference.silent 256 440 1 50 Reference.ready = Ok tt s' /\
    isPlaying s' = false /\
    marks (log s') = [ToneStart; Synth; Count 16; Start; Await] /\
    list.last (log s') = Some (EvSerial (Dec 0) true).
Proof.
  eexists. split; [vm_compute; reflexivity|]. repeat split; vm_compute; reflexivity.
Qed.

(** The model's store does fault outside the array: the absence of
    [OutOfBounds] below is a fact about the indices the loop uses. *)
Lemma store_sample_past_end (v : Z) (s : Driver) :
  store_sample AUDIO_BUFFER_SIZE v s = OutOfBounds.
Proof. reflexivity. Qed.

(** C8.  Whatever sample count is requested, also one above the capacity,
    no store of [generateTone] falls outside the 256 slots of the buffer
    (for any bound on the loop), and when the loop runs to its end the
    buffer has kept its length and every slot from [min samples 256] on
    its content: a longer request is silently truncated. *)
Theorem generateTone_within_capacity p (fuel : nat) (frequency samples volume : Z)
    (s : Driver) :
  (Z.to_nat AUDIO_BUFFER_SIZE <= fuel)%nat ->
  (forall fuel', generateTone p fuel' frequency samples volume s <> OutOfBounds) /\
  exists s',
    generateTone p fuel frequency samples volume s = Ok tt s' /\
    length (audioBuffer s') = length (audioBuffer s) /\
    forall j : nat, Z.min samples AUDIO_BUFFER_SIZE <= Z.of_nat j ->
      audioBuffer s' !! j = audioBuffer s !! j.
Proof.
  intros Hfuel. split; [intros fuel'; apply generateTone_in_bounds|].
  destruct (generateTone_spec p fuel frequency samples volume s Hfuel)
    as ([] & s' & E & _ & Hlen & _ & Hout).
  now exists s'.
Qed.

Lemma generateTone_within_capacity_witness :
  exists s',
    generateTone Reference.prompt 256 440 1000 50 Reference.ready = Ok tt s' /\
    length (audioBuffer s') = 256%nat.
Proof.
  destruct (generateTone_within_capacity Reference.prompt 256 440 1000 50 Reference.ready
              buffer_fits_256) as (_ & s' & E & Hlen & _).
  exists s'. split; [exact E | exact Hlen].
Defined.

Lemma amplitude_of_eq (volume : Z) :
  amplitude_of volume = Arduino.constrain volume 0 100 * 32767 / 100.
Proof.
  unfold amplitude_of, Arduino.map.
  pose proof (constrain_range volume 0 100 ltac:(lia)) as Hc.
  rewrite !Z.sub_0_r, Z.add_0_r. rewrite Z.quot_div_nonneg by lia.
  assert (0 <= Arduino.constrain volume 0 100 * 32767 / 100) by (apply Z.div_pos; lia).
  assert (Arduino.constrain volume 0 100 * 32767 / 100 <= 32767)
    by (apply Z.div_le_upper_bound; lia).
  unfold s16. rewrite Z.mod_small by lia. lia.
Qed.

Lemma product_round_zero p (x : Q) :
  rounds_zero p -> (x == 0)%Q -> (product_round p x == 0)%Q.
Proof.
  intros Hz Hx. unfold product_round. destruct (sin_returns_float p); now apply Hz.
Qed.

Lemma float_to_int16_zero (x : Q) : (x == 0)%Q -> float_to_int16 x = 0.
Proof.
  intros H. unfold float_to_int16. unfold Qeq in H. cbn in H.
  rewrite Z.mul_1_r in H. rewrite H. reflexivity.
Qed.

(** C3, as the code has it.  The volume is clamped to [0,100] and mapped
    linearly to the amplitude (0 to 0, 100 to 32767).  For each index [i]
    below [min samples 256] the code computes the time [t = i / SAMPLE_RATE]
    as a [float], the angle [2.0 * PI * frequency * t] as a product of
    [double]s converted to [float], and the floating-point product
    [amplitude * sin(angle)]; the slot holds that product converted to
    [int16_t] by discarding its fraction (truncation toward zero, not
    rounding to nearest), as the 16-bit pattern of that value.  With
    volume 0 every written slot is 0, on any platform whose rounding keeps
    a zero product zero.

    Against the reals: where the roundings of the platform have a relative
    error of at most [u] and its [sin] is within [e] of the sine at the
    angle computed, that angle is [2 pi f i / SAMPLE_RATE] within the
    relative error [7 u + 1e-18], and the value stored differs from
    [amplitude * sin (2 pi f i / SAMPLE_RATE)] by less than 1 (the
    fraction discarded) plus the amplitude times the errors of the sine,
    of the product and of the angle. *)
Theorem generateTone_samples p (fuel : nat) (frequency samples volume : Z) (s : Driver) :
  (Z.to_nat AUDIO_BUFFER_SIZE <= fuel)%nat ->
  length (audioBuffer s) = Z.to_nat AUDIO_BUFFER_SIZE ->
  amplitude_of volume = Arduino.constrain volume 0 100 * 32767 / 100 /\
  amplitude_of 0 = 0 /\ amplitude_of 100 = 32767 /\
  exists s',
    generateTone p fuel frequency samples volume s = Ok tt s' /\
    (forall i : Z, 0 <= i < Z.min samples AUDIO_BUFFER_SIZE ->
       let t := float_round p (inject_Z i / inject_Z SAMPLE_RATE) in
       let two_pi_f :=
         double_round p
           (double_round p (2 * double_round p Arduino.PI) * inject_Z frequency) in
       let angle := float_round p (double_round p (two_pi_f * t)) in
       let x := product_round p (inject_Z (amplitude_of volume) * float_sin p angle) in
       audioBuffer s' !! Z.to_nat i = Some (u16 (s16 (Z.quot (Qnum x) (Z.pos (Qden x)))))) /\
    (rounds_zero p -> Arduino.constrain volume 0 100 = 0 ->
     forall i : Z, 0 <= i < Z.min samples AUDIO_BUFFER_SIZE ->
       audioBuffer s' !! Z.to_nat i = Some 0) /\
    (forall (u e : R) (i : Z),
       0 <= i < Z.min samples AUDIO_BUFFER_SIZE -> 0 <= frequency ->
       (0 <= u <= 1 / 100)%R -> (0 <= e)%R ->
       ((1 + e) * (1 + u) < 32768 / 32767)%R ->
       rounds_within u p -> sin_within e p (angle_at p frequency i) ->
       exists z : Z,
         audioBuffer s' !! Z.to_nat i = Some (u16 z) /\
         - 32768 <= z < 32768 /\
         (Rabs (Q2R (angle_at p frequency i)
                - 2 * PI * IZR frequency * (IZR i / 16000))
          <= (7 * u + 1 / 10 ^ 18) * (2 * PI * IZR frequency * (IZR i / 16000)))%R /\
         (Rabs (IZR z
                - IZR (amplitude_of volume)
                  * sin (2 * PI * IZR frequency * (IZR i / 16000)))
          < 1 + IZR (amplitude_of volume)
                * (e + u * (1 + e)
                   + (7 * u + 1 / 10 ^ 18)
                     * (2 * PI * IZR frequency * (IZR i / 16000))))%R).
Proof.
  intros Hfuel Hlen.
  split; [apply amplitude_of_eq|]. split; [reflexivity|]. split; [reflexivity|].
  destruct (generateTone_spec p fuel frequency samples volume s Hfuel)
    as ([] & s' & E & _ & _ & Hin & _).
  exists s'. split; [exact E|].
  assert (Hidx : forall i, 0 <= i < Z.min samples AUDIO_BUFFER_SIZE ->
            (Z.to_nat i < length (audioBuffer s))%nat).
  { intros i Hi. rewrite Hlen. unfold AUDIO_BUFFER_SIZE in *. lia. }
  split; [|split].
  - intros i Hi. cbv zeta. rewrite (Hin i Hi (Hidx i Hi)). reflexivity.
  - intros Hz Hvol i Hi. rewrite (Hin i Hi (Hidx i Hi)).
    unfold sample_at. rewrite amplitude_of_eq, Hvol. rewrite float_to_int16_zero; [reflexivity|].
    apply product_round_zero; [exact Hz|]. unfold Qeq. cbn. reflexivity.
  - intros u e i Hi Hf Hu He Hfit Hr Hs.
    exists (sample_at p (amplitude_of volume) frequency i).
    split; [exact (Hin i Hi (Hidx i Hi))|]. split.
    { unfold sample_at, float_to_int16, s16.
      match goal with |- _ <= ?a mod ?b - _ < _ =>
        pose proof (Z.mod_pos_bound a b ltac:(lia)) end. lia. }
    split; [apply angle_at_error; [exact Hu | exact Hr | exact Hf | lia]|].
    apply sample_at_close; try assumption; [|lia].
    rewrite amplitude_of_eq.
    pose proof (constrain_range volume 0 100 ltac:(lia)) as Hc.
    split; [apply Z.div_pos; lia | apply Z.div_le_upper_bound; lia].
Qed.

Lemma reference_rounds_zero : rounds_zero Reference.prompt.
Proof. intros x Hx. cbn. rewrite Qred_correct; now split. Qed.

Lemma generateTone_samples_witness :
  (exists s',
     generateTone Reference.prompt 256 440 1000 0 Reference.ready = Ok tt s' /\
     audioBuffer s' !! 255%nat = Some 0) /\
  (exists s' z,
     generateTone Reference.prompt 256 2000 6 100 Reference.ready = Ok tt s' /\
     audioBuffer s' !! 1%nat = Some (u16 z) /\
     (Rabs (IZR z - IZR (amplitude_of 100) * sin (2 * PI * IZR 2000 * (IZR 1 / 16000)))
      < 1 + IZR (amplitude_of 100)
            * (1 / 10 ^ 6 + 0 * (1 + 1 / 10 ^ 6)
               + (7 * 0 + 1 / 10 ^ 18) * (2 * PI * IZR 2000 * (IZR 1 / 16000))))%R).
Proof.
  split.
  - destruct (generateTone_samples Reference.prompt 256 440 1000 0 Reference.ready
                buffer_fits_256 eq_refl) as (_ & _ & _ & s' & E & _ & Hzero & _).
    exists s'. split; [exact E|].
    exact (Hzero reference_rounds_zero eq_refl 255 ltac:(unfold AUDIO_BUFFER_SIZE; lia)).
  - destruct (generateTone_samples Reference.prompt 256 2000 6 100 Reference.ready
                buffer_fits_256 eq_refl) as (_ & _ & _ & s' & E & _ & _ & Hreal).
    destruct (Hreal 0%R (1 / 10 ^ 6)%R 1 ltac:(unfold AUDIO_BUFFER_SIZE; lia) ltac:(lia)
                ltac:(lra) ltac:(cbn [pow]; lra) ltac:(cbn [pow]; lra)
                reference_rounds_within reference_sin_within)
      as (z & Hslot & _ & _ & Hz).
    exists s', z. split; [exact E|]. split; [exact Hslot | exact Hz].
Defined.

(** C3, as the claim states it, fails: the conversion does not round.
    At 2000 Hz and full volume the product at index 1 is
    [32767 * sin(pi/4)], about 23169.77; the slot holds 23169, where
    rounding to the nearest integer gives 23170.  (At index 5 the sample is
    negative, -23169, and the slot holds its 16-bit pattern 42367.) *)
Lemma generateTone_truncates_not_rounds :
  exists s',
    generateTone Reference.prompt 256 2000 6 100 Reference.ready = Ok tt s' /\
    audioBuffer s' !! 1%nat = Some 23169 /\
    round_nearest (inject_Z (amplitude_of 100)
                   * float_sin Reference.prompt (angle_at Reference.prompt 2000 1)) = 23170 /\
    audioBuffer s' !! 5%nat = Some 42367 /\
    round_nearest (inject_Z (amplitude_of 100)
                   * float_sin Reference.prompt (angle_at Reference.prompt 2000 5)) = -23170.
Proof.
  eexists. split; [vm_compute; reflexivity|].
  repeat split; vm_compute; reflexivity.
Qed.

(** C9.  [begin] never reports failure: no call of it, on any hardware
    and in any state, returns [false].  A call on an initialized driver is
    a success that only logs one line: nothing is reconfigured and the
    driver is unchanged.  A first call, once the high-frequency clock has
    started, runs the configuration to its end, leaves the peripheral
    enabled and the driver initialized, and returns [true]. *)
Theorem begin_returns_true p (K fuel : nat) (s : Driver) :
  live p K InHFCLKSTARTED -> (K <= fuel)%nat ->
  (forall p' fuel' s0 b s1, begin p' fuel' s0 = Ok b s1 -> b = true) /\
  (initialized s = true ->
     forall fuel',
     begin p fuel' s =
       Ok true (set_log (log s ++ [EvSerial (Txt "I2S already initialized") true]) s)) /\
  (initialized s = false ->
     exists s',
       begin p fuel s = Ok true s' /\
       initialized s' = true /\ regs s' I2S_ENABLE = 1 /\ playing s' = playing s).
Proof.
  intros Hlive HK. split; [|split].
  - intros p' fuel' s0 b s1. apply begin_yields_true.
  - intros Hinit fuel'. now apply begin_again.
  - intros Hinit.
    destruct (begin_first p K fuel s Hlive HK Hinit) as (b & s' & E & -> & Hi & Hp & _ & Hr).
    now exists s'.
Qed.

Lemma begin_returns_true_witness :
  exists s',
    begin Reference.prompt 1 new_driver = Ok true s' /\
    initialized s' = true /\ regs s' I2S_ENABLE = 1 /\ playing s' = false.
Proof.
  exact (proj2 (proj2 (begin_returns_true Reference.prompt 1 1 new_driver
           (prompt_live InHFCLKSTARTED ltac:(discriminate)) ltac:(lia))) eq_refl).
Defined.

Lemma melody_marks_last (durations : list Z) :
  durations <> [] -> list.last (melody_marks durations) = Some Gap.
Proof.
  induction durations as [|d rest IH]; [contradiction|]. intros _.
  unfold melody_marks in *. cbn [flat_map].
  destruct rest as [|d' rest'].
  - cbn [flat_map]. rewrite app_nil_r. apply last_snoc.
  - rewrite last_app, IH by discriminate. reflexivity.
Qed.

(** The loop of [playMelody] as it is written.  For a melody of [N]
    notes given as two parallel arrays, on an initialized driver and
    responsive hardware, [playMelody] plays the notes in array order: it
    is the list of notes played one after the other, each followed by the
    fixed 20 ms delay.  The log shows [N] tone playbacks and [N] delays
    of 20 ms: one after every note, the last note included, although the
    comment in the loop calls the delay a gap between notes. *)
Theorem playMelody_gap_after_every_note p (K fuel : nat)
    (frequencies durations : list Z) (volume : Z) (s : Driver) :
  responsive p K -> (K <= fuel)%nat -> (Z.to_nat AUDIO_BUFFER_SIZE <= fuel)%nat ->
  length frequencies = length durations -> (length durations <= 255)%nat ->
  initialized s = true -> playing s = false ->
  playMelody p fuel frequencies durations (Z.of_nat (length durations)) volume s
    = play_notes p fuel (zip frequencies durations) volume s /\
  (exists s',
     playMelody p fuel frequencies durations (Z.of_nat (length durations)) volume s
       = Ok tt s' /\
     adds s s' (melody_marks durations)) /\
  count_mark ToneStart (melody_marks durations) = length durations /\
  count_mark Gap (melody_marks durations) = length durations /\
  (durations <> [] -> list.last (melody_marks durations) = Some Gap).
Proof.
  intros Hresp HK Hbuf Hlen Hn Hinit Hplay.
  assert (Heq : playMelody p fuel frequencies durations (Z.of_nat (length durations)) volume s
                = play_notes p fuel (zip frequencies durations) volume s).
  { unfold playMelody.
    apply (playMelody_loop_notes p fuel frequencies durations _ volume
             ltac:(now rewrite Hlen) eq_refl ltac:(lia) fuel O s); [lia|].
    unfold AUDIO_BUFFER_SIZE in Hbuf. lia. }
  split; [exact Heq|]. split.
  - destruct (play_notes_spec p K fuel volume Hresp HK Hbuf (zip frequencies durations) s
                Hinit Hplay) as ([] & s' & E & _ & _ & Ha).
    exists s'. split; [now rewrite Heq|].
    rewrite snd_zip in Ha by lia. exact Ha.
  - destruct (melody_marks_counts durations) as [H1 H2].
    split; [exact H1|]. split; [exact H2 | apply melody_marks_last].
Qed.

Lemma playMelody_gap_after_every_note_witness :
  exists s',
    playMelody Reference.prompt 256 [440; 880] [100; 200] 2 50 Reference.ready = Ok tt s' /\
    adds Reference.ready s' (melody_marks [100; 200]).
Proof.
  exact (proj1 (proj2 (playMelody_gap_after_every_note Reference.prompt 1 256
           [440; 880] [100; 200] 50 Reference.ready
           prompt_responsive ltac:(lia) buffer_fits_256 eq_refl ltac:(cbn; lia)
           eq_refl eq_refl))).
Defined.

(** C1, at the failing input.  The claim gives a melody of [N] notes
    [N - 1] gaps, each between two notes, and so does the comment in the
    loop of [playMelody]; a melody of one note then has none.  The code
    gives it one: the note is played, then the 20 ms delay runs, and that
    delay after the last note is the last thing the call does. *)
Lemma playMelody_one_note_one_gap :
  exists s',
    playMelody Reference.prompt 256 [440] [1] 1 50 Reference.ready = Ok tt s' /\
    marks (log s') = [ToneStart; Synth; Count 16; Start; Await; Gap] /\
    count_mark Gap (marks (log s')) = 1%nat /\
    list.last (log s') = Some (EvDelay 20).
Proof.
  eexists. split; [vm_compute; reflexivity|]. repeat split; vm_compute; reflexivity.
Qed.

(** * Further properties *)

(** ** What each operation leaves alone *)

Section Frame.

Context {X : Type} (f : Driver -> X) (writable : Reg -> Prop).

Hypothesis frame_log : forall l s, f (set_log l s) = f s.
Hypothesis frame_cursor : forall c s, f (set_cursor c s) = f s.
Hypothesis frame_playing : forall b s, f (set_playing b s) = f s.
Hypothesis frame_firstCall : forall b s, f (set_firstCall b s) = f s.
Hypothesis frame_regs :
  forall r v s, writable r -> f (set_regs (<[r := v]> (regs s)) s) = f s.

Lemma preserves_bind {A B} (m : M A) (k : A -> M B) :
  preserves f m -> (forall a, preserves f (k a)) -> preserves f (bind m k).
Proof.
  intros Hm Hk s b s'. unfold bind.
  destruct (m s) as [a s1| |] eqn:E; try discriminate.
  intros H. rewrite (Hk a s1 b s' H). exact (Hm s a s1 E).
Qed.

Lemma preserves_ret {A} (a : A) : preserves f (ret a).
Proof. intros s a' s' [= _ <-]. reflexivity. Qed.

Lemma preserves_emit (e : Event) : preserves f (emit e).
Proof. intros s a s' [= _ <-]. apply frame_log. Qed.

Lemma preserves_reg_write (r : Reg) (v : Z) : writable r -> preserves f (reg_write r v).
Proof. intros Hr s a s' [= _ <-]. rewrite frame_log. now apply frame_regs. Qed.

Lemma preserves_reg_read (r : Reg) : preserves f (reg_read r).
Proof. intros s a s' [= _ <-]. reflexivity. Qed.

Lemma preserves_observe p (i : Input) : preserves f (observe p i).
Proof. intros s a s' [= _ <-]. apply frame_cursor. Qed.

Lemma preserves_get {A} (g : Driver -> A) : preserves f (get g).
Proof. intros s a s' [= _ <-]. reflexivity. Qed.

Lemma preserves_modify (g : Driver -> Driver) :
  (forall s, f (g s) = f s) -> preserves f (modify g).
Proof. intros Hg s a s' [= _ <-]. apply Hg. Qed.

Lemma preserves_out_of_fuel {A} : preserves f (@out_of_fuel A).
Proof. intros s a s' H. discriminate. Qed.

Lemma preserves_load (arr : list Z) (i : Z) : preserves f (load arr i).
Proof.
  intros s a s'. unfold load. destruct (_ !! _); [intros [= _ <-]; reflexivity | discriminate].
Qed.

Lemma preserves_store (i v : Z) :
  (forall b s, f (set_audioBuffer b s) = f s) -> preserves f (store_sample i v).
Proof.
  intros Hb s a s'. unfold store_sample.
  destruct (_ && _); [intros [= _ <-]; apply Hb | discriminate].
Qed.

Lemma preserves_if {A} (b : bool) (m1 m2 : M A) :
  preserves f m1 -> preserves f m2 -> preserves f (if b then m1 else m2).
Proof. now destruct b. Qed.

Ltac frame :=
  repeat lazymatch goal with
    | |- preserves _ (bind _ _) => apply preserves_bind; [|intros ?]
    | |- preserves _ (if _ then _ else _) => apply preserves_if
    | |- preserves _ (ret _) => apply preserves_ret
    | |- preserves _ (emit _) => apply preserves_emit
    | |- preserves _ yield => apply preserves_emit
    | |- preserves _ (delay _) => apply preserves_emit
    | |- preserves _ (print _) => apply preserves_emit
    | |- preserves _ (println _) => apply preserves_emit
    | |- preserves _ (reg_write _ _) => apply preserves_reg_write; auto
    | |- preserves _ (reg_read _) => apply preserves_reg_read
    | |- preserves _ (observe _ _) => apply preserves_observe
    | |- preserves _ (millis _) => apply preserves_observe
    | |- preserves _ (get _) => apply preserves_get
    | |- preserves _ out_of_fuel => apply preserves_out_of_fuel
    | |- preserves _ (load _ _) => apply preserves_load
    | |- preserves _ (store_sample _ _) => apply preserves_store; auto
    | |- preserves _ (modify (set_playing _)) => apply preserves_modify; auto
    | |- preserves _ (modify (set_firstCall _)) => apply preserves_modify; auto
    | |- preserves _ (modify (set_initialized _)) => apply preserves_modify; auto
    end.

Lemma preserves_wait_hfclk p (fuel : nat) : preserves f (wait_hfclk p fuel).
Proof. induction fuel; cbn [wait_hfclk]; frame. exact IHfuel. Qed.

Lemma preserves_wait_stopped p (fuel : nat) : preserves f (wait_stopped p fuel).
Proof. induction fuel; cbn [wait_stopped]; frame. exact IHfuel. Qed.

Lemma preserves_wait_event p (fuel : nat) (ev : Input) (timeout : Z) (msg : string) :
  preserves f (wait_event p fuel ev timeout msg).
Proof. induction fuel; cbn [wait_event]; frame. exact IHfuel. Qed.

Lemma preserves_startTransfer p (n : Z) :
  writable TXD_PTR -> writable RXTXD_MAXCNT -> writable EVENTS_TXPTRUPD ->
  writable EVENTS_STOPPED -> writable TASKS_START ->
  preserves f (startTransfer p n).
Proof. intros. unfold startTransfer. frame. Qed.

Lemma preserves_waitForCompletion p (fuel : nat) (n : Z) :
  writable EVENTS_TXPTRUPD -> writable EVENTS_STOPPED -> writable TASKS_STOP ->
  preserves f (waitForCompletion p fuel n).
Proof. intros. unfold waitForCompletion. cbv zeta. frame; apply preserves_wait_event. Qed.

Lemma preserves_stop p (fuel : nat) :
  writable TASKS_STOP -> preserves f (stop p fuel).
Proof. intros. unfold stop. frame. apply preserves_wait_stopped. Qed.

Lemma preserves_resume p : writable I2S_ENABLE -> preserves f (resume p).
Proof. intros. unfold resume. frame. Qed.

Lemma preserves_suspend p (fuel : nat) :
  writable TASKS_STOP -> writable I2S_ENABLE -> preserves f (suspend p fuel).
Proof. intros. unfold suspend. frame. now apply preserves_stop. Qed.

Lemma preserves_configureI2S p (fuel : nat) :
  (forall r, writable r) -> preserves f (configureI2S p fuel).
Proof. intros. unfold configureI2S. frame. apply preserves_wait_hfclk. Qed.

Lemma preserves_begin p (fuel : nat) :
  (forall r, writable r) -> (forall b s, f (set_initialized b s) = f s) ->
  preserves f (begin p fuel).
Proof. intros. unfold begin. frame. now apply preserves_configureI2S. Qed.

Lemma preserves_generateTone_loop p (fuel : nat) :
  (forall b s, f (set_audioBuffer b s) = f s) ->
  forall frequency samples amplitude i peakSample,
  preserves f (generateTone_loop p fuel frequency samples amplitude i peakSample).
Proof.
  intros Hb. induction fuel as [|fuel IH]; intros; cbn [generateTone_loop]; cbv zeta; frame.
  apply IH.
Qed.

Lemma preserves_generateTone p (fuel : nat) (frequency samples volume : Z) :
  (forall b s, f (set_audioBuffer b s) = f s) ->
  preserves f (generateTone p fuel frequency samples volume).
Proof.
  intros. unfold generateTone. cbv zeta. frame. now apply preserves_generateTone_loop.
Qed.

Lemma preserves_playTone_loop p (fuel n : nat) (frequency volume : Z) :
  (forall b s, f (set_audioBuffer b s) = f s) ->
  writable TXD_PTR -> writable RXTXD_MAXCNT -> writable EVENTS_TXPTRUPD ->
  writable EVENTS_STOPPED -> writable TASKS_START -> writable TASKS_STOP ->
  forall total, preserves f (playTone_loop p fuel n frequency volume total).
Proof.
  intros. revert total. induction n as [|n IH]; intros; cbn [playTone_loop]; cbv zeta; frame.
  - now apply preserves_generateTone.
  - now apply preserves_startTransfer.
  - now apply preserves_waitForCompletion.
  - apply IH.
Qed.

Lemma preserves_playTone p (fuel : nat) (frequency duration_ms volume : Z) :
  (forall b s, f (set_audioBuffer b s) = f s) ->
  writable TXD_PTR -> writable RXTXD_MAXCNT -> writable EVENTS_TXPTRUPD ->
  writable EVENTS_STOPPED -> writable TASKS_START -> writable TASKS_STOP ->
  preserves f (playTone p fuel frequency duration_ms volume).
Proof. intros. unfold playTone. cbv zeta. frame. now apply preserves_playTone_loop. Qed.

Lemma preserves_playMelody p (fuel : nat) (fs ds : list Z) (count volume : Z) :
  (forall b s, f (set_audioBuffer b s) = f s) ->
  writable TXD_PTR -> writable RXTXD_MAXCNT -> writable EVENTS_TXPTRUPD ->
  writable EVENTS_STOPPED -> writable TASKS_START -> writable TASKS_STOP ->
  preserves f (playMelody p fuel fs ds count volume).
Proof.
  intros. unfold playMelody. generalize 0 at 1. generalize fuel at 2.
  intros k. induction k as [|k IH]; intros i; cbn [playMelody_loop]; frame.
  - now apply preserves_playTone.
  - apply IH.
Qed.

End Frame.

(** The three observations the frames are used at: the initialized flag,
    the buffer, and the value last written to one register. *)
Lemma bind_inv {A B} (m : M A) (k : A -> M B) (s : Driver) (b : B) (s' : Driver) :
  bind m k s = Ok b s' -> exists a s1, m s = Ok a s1 /\ k a s1 = Ok b s'.
Proof.
  unfold bind. destruct (m s) as [a s1| |]; try discriminate. intros H. now exists a, s1.
Qed.

Lemma begin_sets_initialized p (fuel : nat) (s : Driver) (b : bool) (s' : Driver) :
  begin p fuel s = Ok b s' -> initialized s' = true.
Proof.
  unfold begin. intros H. apply bind_inv in H as (init & s0 & [= <- <-] & H).
  destruct (initialized s) eqn:Hinit.
  - apply bind_inv in H as ([] & s1 & [= <-] & [= _ <-]). exact Hinit.
  - do 8 (apply bind_inv in H as (? & ? & _ & H)).
    apply bind_inv in H as ([] & s1 & [= <-] & H).
    assert (Hp : preserves initialized
              (println (Txt "I2S initialized successfully");;
               print (Txt "Sample Rate: ");; print (Dec SAMPLE_RATE);;
               println (Txt " Hz");; ret true)).
    { repeat (apply preserves_bind; [apply preserves_emit; reflexivity | intros ?]).
      apply preserves_ret. }
    now rewrite (Hp _ _ _ H).
Qed.

(** X1.  The initialized flag is set by [begin] and by nothing else, and
    no operation clears it: a call that returns leaves an initialized
    driver initialized ([suspend] included), and any call other than
    [begin] leaves the flag as it was. *)
Theorem initialized_set_by_begin_only p (fuel : nat) (c : Call) (s s' : Driver) :
  perform p fuel c s = Ok tt s' ->
  (c = CallBegin -> initialized s' = true) /\
  (c <> CallBegin -> initialized s' = initialized s) /\
  (initialized s = true -> initialized s' = true).
Proof.
  intros H.
  assert (Hother : c <> CallBegin -> initialized s' = initialized s).
  { intros Hc. destruct c; cbn [perform] in H; try contradiction.
    - revert H. apply (preserves_playTone initialized (fun _ => True)); auto.
    - revert H. apply (preserves_playMelody initialized (fun _ => True)); auto.
    - revert H. apply (preserves_stop initialized (fun _ => True)); auto.
    - revert H. apply (preserves_suspend initialized (fun _ => True)); auto.
    - revert H. apply (preserves_resume initialized (fun _ => True)); auto. }
  assert (Hbegin : c = CallBegin -> initialized s' = true).
  { intros ->. cbn [perform] in H. apply bind_inv in H as (b & s1 & H & [= <-]).
    exact (begin_sets_initialized _ _ _ _ _ H). }
  split; [exact Hbegin|]. split; [exact Hother|].
  intros Hinit. destruct c; try (rewrite Hother by discriminate; exact Hinit).
  now apply Hbegin.
Qed.

Lemma initialized_set_by_begin_only_witness :
  initialized (set_log [EvSerial (Txt "ERROR: I2S not initialized") true] new_driver) = false.
Proof.
  exact (proj1 (proj2 (initialized_set_by_begin_only Reference.prompt 0
           (CallPlayTone 440 100 50) new_driver _ eq_refl)) ltac:(discriminate)).
Defined.

(** X2.  The sample buffer is written by the synthesis only.  [begin],
    [stop], [suspend] and [resume] leave it as it was, and so do the two
    halves of a chunk transfer, [startTransfer] and [waitForCompletion],
    on any hardware. *)
Theorem buffer_written_by_synthesis_only p (fuel : nat) (c : Call) (s s' : Driver) :
  perform p fuel c s = Ok tt s' ->
  match c with
  | CallPlayTone _ _ _ | CallPlayMelody _ _ _ _ => True
  | _ => audioBuffer s' = audioBuffer s
  end /\
  (forall n s1 s2, startTransfer p n s1 = Ok tt s2 -> audioBuffer s2 = audioBuffer s1) /\
  (forall n s1 s2, waitForCompletion p fuel n s1 = Ok tt s2 -> audioBuffer s2 = audioBuffer s1).
Proof.
  intros H. split; [|split].
  - destruct c; cbn [perform] in H; try exact I.
    + apply bind_inv in H as (b & s1 & H & [= <-]). revert H.
      apply (preserves_begin audioBuffer (fun _ => True)); auto.
    + revert H. apply (preserves_stop audioBuffer (fun _ => True)); auto.
    + revert H. apply (preserves_suspend audioBuffer (fun _ => True)); auto.
    + revert H. apply (preserves_resume audioBuffer (fun _ => True)); auto.
  - intros n s1 s2. apply (preserves_startTransfer audioBuffer (fun _ => True)); auto.
  - intros n s1 s2. apply (preserves_waitForCompletion audioBuffer (fun _ => True)); auto.
Qed.

Lemma buffer_written_by_synthesis_only_witness :
  exists s',
    begin Reference.prompt 1 new_driver = Ok true s' /\
    audioBuffer s' = audioBuffer new_driver.
Proof.
  eexists. split; [vm_compute; reflexivity|].
  refine (proj1 (buffer_written_by_synthesis_only Reference.prompt 1 CallBegin new_driver _ _)).
  vm_compute. reflexivity.
Defined.

(** ** stop, suspend, resume *)

Lemma raised_after_next p ev (s s2 : Driver) (j : nat) :
  cursor s2 ev = S (cursor s ev) ->
  raised_after p ev s (S j) -> raised_after p ev s2 j.
Proof.
  intros Hc [Hclear Hseen]. unfold raised_after. rewrite Hc. split.
  - intros i Hi. rewrite Nat.add_succ_comm. apply Hclear. lia.
  - now rewrite Nat.add_succ_comm.
Qed.

Lemma wait_stopped_raised p (j : nat) :
  forall (s : Driver) (fuel : nat),
  raised_after p InSTOPPED s j -> (j < fuel)%nat ->
  twp (wait_stopped p fuel) s (fun _ s' =>
    same s s' /\ log s' = log s ++ replicate j EvYield).
Proof.
  induction j as [|j IH]; intros s fuel Hr Hfuel;
    (destruct fuel as [|fuel]; [lia|]); cbn [wait_stopped].
  - destruct Hr as [_ Hseen]. rewrite Nat.add_0_r in Hseen. step.
    apply Z.eqb_neq in Hseen. rewrite Hseen. step.
    split; [now split | cbn; now rewrite app_nil_r].
  - pose proof (proj1 Hr O ltac:(lia)) as H0. rewrite Nat.add_0_r in H0.
    step. rewrite H0. cbn [Z.eqb]. step.
    eapply twp_mono.
    + apply IH; [|lia]. eapply raised_after_next; [|exact Hr].
      cbn [cursor set_cursor set_log]. apply fn_lookup_insert.
    + cbn beta. cbn [log set_log set_cursor]. intros _ s' ([] & Hl).
      split; [now split|]. rewrite Hl. cbn [replicate]. now rewrite <- app_assoc.
Qed.

Lemma wait_stopped_never p (fuel : nat) :
  forall s : Driver, never_raised p InSTOPPED s -> wait_stopped p fuel s = OutOfFuel.
Proof.
  induction fuel as [|fuel IH]; intros s Hn; cbn [wait_stopped]; [reflexivity|].
  unfold bind at 1. cbn [observe].
  pose proof (Hn O) as H0. rewrite Nat.add_0_r in H0. rewrite H0. cbn [Z.eqb].
  unfold bind at 1. cbn [yield emit]. apply IH.
  intros k. cbn [cursor set_cursor set_log]. rewrite fn_lookup_insert.
  rewrite Nat.add_succ_comm. apply Hn.
Qed.

Lemma wait_hfclk_never p (fuel : nat) :
  forall s : Driver, never_raised p InHFCLKSTARTED s -> wait_hfclk p fuel s = OutOfFuel.
Proof.
  induction fuel as [|fuel IH]; intros s Hn; cbn [wait_hfclk]; [reflexivity|].
  unfold bind at 1. cbn [observe].
  pose proof (Hn O) as H0. rewrite Nat.add_0_r in H0. rewrite H0. cbn [Z.eqb].
  apply IH.
  intros k. cbn [cursor set_cursor]. rewrite fn_lookup_insert.
  rewrite Nat.add_succ_comm. apply Hn.
Qed.

(** X3.  Before [begin], [stop], [suspend] and [resume] do nothing at all:
    they return with the driver exactly as it was, without a register
    write and, unlike [playTone], without a diagnostic line. *)
Theorem power_calls_ignored_before_begin p (fuel : nat) (s : Driver) :
  initialized s = false ->
  stop p fuel s = Ok tt s /\ suspend p fuel s = Ok tt s /\ resume p s = Ok tt s.
Proof.
  intros Hinit. unfold stop, suspend, resume, bind. cbn [get]. rewrite Hinit.
  repeat split.
Qed.

Lemma power_calls_ignored_before_begin_witness :
  stop Reference.silent 0 new_driver = Ok tt new_driver /\
  suspend Reference.silent 0 new_driver = Ok tt new_driver /\
  resume Reference.silent new_driver = Ok tt new_driver.
Proof. exact (power_calls_ignored_before_begin Reference.silent 0 new_driver eq_refl). Defined.

Lemma stop_spec p (fuel j : nat) (s : Driver) :
  initialized s = true -> raised_after p InSTOPPED s j -> (j < fuel)%nat ->
  twp (stop p fuel) s (fun _ s' =>
    log s' = log s ++ EvRegWrite TASKS_STOP 1 :: replicate j EvYield /\
    regs s' = <[TASKS_STOP := 1]> (regs s) /\
    playing s' = false /\ initialized s' = true /\
    audioBuffer s' = audioBuffer s /\ firstCall s' = firstCall s).
Proof.
  intros Hinit Hr Hfuel. unfold stop. step. rewrite Hinit. cbn [negb]. step.
  apply twp_bind. eapply twp_mono; [apply (wait_stopped_raised p j); [exact Hr | exact Hfuel]|].
  cbn beta. cbn [log set_log set_regs]. intros _ s1 ([Hb Hi Hp Hf Hrg] & Hl). step.
  cbn [log regs playing initialized audioBuffer firstCall set_playing set_log set_regs] in *.
  rewrite Hl, <- app_assoc. repeat split; try assumption. congruence.
Qed.

(** X4.  On an initialized driver [stop] commands the stop, polls the
    STOPPED event (yielding after every poll that finds it clear) until
    it is raised, and leaves the driver idle.  It writes the task-stop
    register and nothing else: the STOPPED event it waited for is not
    cleared, where [waitForCompletion] clears it. *)
Theorem stop_waits_and_idles p (fuel j : nat) (s : Driver) :
  initialized s = true -> raised_after p InSTOPPED s j -> (j < fuel)%nat ->
  exists s',
    stop p fuel s = Ok tt s' /\
    log s' = log s ++ EvRegWrite TASKS_STOP 1 :: replicate j EvYield /\
    regs s' = <[TASKS_STOP := 1]> (regs s) /\
    isPlaying s' = false /\ initialized s' = true /\
    audioBuffer s' = audioBuffer s.
Proof.
  intros Hinit Hr Hfuel.
  destruct (stop_spec p fuel j s Hinit Hr Hfuel) as ([] & s' & E & Hl & Hrg & Hp & Hi & Hb & _).
  now exists s'.
Qed.

Lemma prompt_raised (ev : Input) (s : Driver) :
  ev <> InMillis -> raised_after Reference.prompt ev s 0.
Proof.
  intros H. split; [intros i Hi; lia|]. destruct ev; try discriminate; contradiction.
Qed.

Lemma stop_waits_and_idles_witness :
  exists s',
    stop Reference.prompt 1 Reference.ready = Ok tt s' /\
    log s' = [EvRegWrite TASKS_STOP 1] /\
    isPlaying s' = false.
Proof.
  destruct (stop_waits_and_idles Reference.prompt 1 0 Reference.ready eq_refl
              (prompt_raised InSTOPPED _ ltac:(discriminate)) ltac:(lia))
    as (s' & E & Hl & _ & Hp & _).
  exists s'. repeat split; assumption.
Defined.

(** X5.  The wait of [stop] has no deadline.  If the STOPPED event is
    never raised, [stop] on an initialized driver does not return,
    however many polls it is given, and neither does [suspend], which
    calls it; the bounded waits of [waitForCompletion] have no counterpart
    here. *)
Theorem stop_never_returns_without_event p (s : Driver) :
  initialized s = true -> never_raised p InSTOPPED s ->
  forall fuel : nat, stop p fuel s = OutOfFuel /\ suspend p fuel s = OutOfFuel.
Proof.
  intros Hinit Hn fuel.
  assert (Hstop : forall s0, initialized s0 = true -> never_raised p InSTOPPED s0 ->
                  stop p fuel s0 = OutOfFuel).
  { intros s0 Hi H0. unfold stop. unfold bind at 1. cbn [get]. rewrite Hi. cbn [negb].
    unfold bind at 1. cbn [reg_write]. unfold bind at 1.
    rewrite wait_stopped_never; [reflexivity | exact H0]. }
  split; [now apply Hstop|].
  unfold suspend. unfold bind at 1. cbn [get]. rewrite Hinit. cbn [negb].
  unfold bind at 1. cbn [println emit]. unfold bind at 1.
  rewrite Hstop; [reflexivity | exact Hinit | exact Hn].
Qed.

Lemma silent_never_stopped (s : Driver) : never_raised Reference.silent InSTOPPED s.
Proof. intros k. reflexivity. Qed.

Lemma stop_never_returns_without_event_witness :
  stop Reference.silent 1000 Reference.ready = OutOfFuel /\
  suspend Reference.silent 1000 Reference.ready = OutOfFuel.
Proof.
  exact (stop_never_returns_without_event Reference.silent Reference.ready eq_refl
           (silent_never_stopped _) 1000%nat).
Defined.

Lemma suspend_spec p (fuel j : nat) (s : Driver) :
  initialized s = true -> raised_after p InSTOPPED s j -> (j < fuel)%nat ->
  twp (suspend p fuel) s (fun _ s' =>
    log s' = log s ++
      [EvSerial (Txt "Suspending I2S for power saving") true; EvRegWrite TASKS_STOP 1]
      ++ replicate j EvYield
      ++ [EvRegWrite I2S_ENABLE 0; EvDigitalWrite (SD_MODE_PIN p) LOW] /\
    regs s' = <[I2S_ENABLE := 0]> (<[TASKS_STOP := 1]> (regs s)) /\
    playing s' = false /\ initialized s' = true /\
    audioBuffer s' = audioBuffer s /\ firstCall s' = firstCall s).
Proof.
  intros Hinit Hr Hfuel. unfold suspend. step. rewrite Hinit. cbn [negb]. step.
  apply twp_bind. eapply twp_mono.
  { apply (stop_spec p fuel j); [exact Hinit | exact Hr | exact Hfuel]. }
  cbn beta. cbn [log regs audioBuffer firstCall set_log].
  intros _ s1 (Hl & Hrg & Hp & Hi & Hb & Hf). steps.
  cbn [log regs playing initialized audioBuffer firstCall set_log set_regs].
  rewrite Hl, Hrg, <- !app_assoc. repeat split; assumption.
Qed.

(** X6.  [suspend] on an initialized driver stops the transfer, disables
    the peripheral and drives the amplifier's SD_MODE line low, in that
    order.  The driver stays initialized: the code has no suspended state
    of its own, only the ENABLE register records it. *)
Theorem suspend_disables_and_stays_initialized p (fuel j : nat) (s : Driver) :
  initialized s = true -> raised_after p InSTOPPED s j -> (j < fuel)%nat ->
  exists s',
    suspend p fuel s = Ok tt s' /\
    log s' = log s ++
      [EvSerial (Txt "Suspending I2S for power saving") true; EvRegWrite TASKS_STOP 1]
      ++ replicate j EvYield
      ++ [EvRegWrite I2S_ENABLE 0; EvDigitalWrite (SD_MODE_PIN p) LOW] /\
    regs s' I2S_ENABLE = 0 /\
    initialized s' = true /\ isPlaying s' = false.
Proof.
  intros Hinit Hr Hfuel.
  destruct (suspend_spec p fuel j s Hinit Hr Hfuel) as ([] & s' & E & Hl & Hrg & Hp & Hi & _).
  exists s'. split; [exact E|]. split; [exact Hl|].
  split; [rewrite Hrg; reflexivity|]. split; assumption.
Qed.

Lemma suspend_disables_and_stays_initialized_witness :
  exists s',
    suspend Reference.prompt 1 Reference.ready = Ok tt s' /\
    regs s' I2S_ENABLE = 0 /\ initialized s' = true.
Proof.
  destruct (suspend_disables_and_stays_initialized Reference.prompt 1 0 Reference.ready eq_refl
              (prompt_raised InSTOPPED _ ltac:(discriminate)) ltac:(lia))
    as (s' & E & _ & Hr & Hi & _).
  exists s'. repeat split; assumption.
Defined.

(** X7.  [suspend] followed by [resume] re-enables the peripheral and
    keeps its configuration: ENABLE reads 1 again, every register other
    than ENABLE and the task-stop register holds what it held before, the
    buffer is as it was, the driver is initialized and idle, and the last
    thing done to the amplifier line is to drive it high.  [resume] does
    not run the configuration again. *)
Theorem suspend_resume_keeps_configuration p (fuel j : nat) (s : Driver) :
  initialized s = true -> raised_after p InSTOPPED s j -> (j < fuel)%nat ->
  exists s1 s2,
    suspend p fuel s = Ok tt s1 /\ resume p s1 = Ok tt s2 /\
    regs s2 I2S_ENABLE = 1 /\
    (forall r, r <> I2S_ENABLE -> r <> TASKS_STOP -> regs s2 r = regs s r) /\
    audioBuffer s2 = audioBuffer s /\
    initialized s2 = true /\ isPlaying s2 = false /\
    log s2 = log s1 ++
      [EvSerial (Txt "Resuming I2S") true; EvDigitalWrite (SD_MODE_PIN p) HIGH;
       EvDelay 10; EvRegWrite I2S_ENABLE 1].
Proof.
  intros Hinit Hr Hfuel.
  destruct (suspend_spec p fuel j s Hinit Hr Hfuel)
    as ([] & s1 & E & Hl & Hrg & Hp & Hi & Hb & _).
  assert (H : twp (resume p) s1 (fun _ s2 =>
            regs s2 = <[I2S_ENABLE := 1]> (regs s1) /\
            audioBuffer s2 = audioBuffer s1 /\ initialized s2 = initialized s1 /\
            playing s2 = playing s1 /\
            log s2 = log s1 ++
              [EvSerial (Txt "Resuming I2S") true; EvDigitalWrite (SD_MODE_PIN p) HIGH;
               EvDelay 10; EvRegWrite I2S_ENABLE 1])).
  { unfold resume. step. rewrite Hi. cbn [negb]. steps.
    cbn [log regs playing initialized audioBuffer set_log set_regs].
    rewrite <- !app_assoc. repeat split; first [assumption | reflexivity]. }
  destruct H as ([] & s2 & E2 & Hrg2 & Hb2 & Hi2 & Hp2 & Hl2).
  exists s1, s2. split; [exact E|]. split; [exact E2|].
  split; [rewrite Hrg2; apply fn_lookup_insert|].
  split.
  - intros r H1 H2. rewrite Hrg2, Hrg. now rewrite !fn_lookup_insert_ne by auto.
  - repeat split; try congruence. unfold isPlaying. congruence.
Qed.

Lemma suspend_resume_keeps_configuration_witness :
  exists s1 s2,
    suspend Reference.prompt 1 Reference.ready = Ok tt s1 /\
    resume Reference.prompt s1 = Ok tt s2 /\
    regs s2 I2S_ENABLE = 1.
Proof.
  destruct (suspend_resume_keeps_configuration Reference.prompt 1 0 Reference.ready eq_refl
              (prompt_raised InSTOPPED _ ltac:(discriminate)) ltac:(lia))
    as (s1 & s2 & E1 & E2 & Hr & _).
  exists s1, s2. repeat split; assumption.
Defined.

Lemma suspend_result p (fuel : nat) (s s1 : Driver) :
  initialized s = true -> suspend p fuel s = Ok tt s1 ->
  initialized s1 = true /\ regs s1 I2S_ENABLE = 0.
Proof.
  intros Hinit H. split.
  - rewrite <- Hinit. revert H. apply (preserves_suspend initialized (fun _ => True)); auto.
  - unfold suspend in H. apply bind_inv in H as (init & s0 & [= <- <-] & H).
    rewrite Hinit in H. cbn [negb] in H.
    do 2 (apply bind_inv in H as (? & ? & _ & H)).
    apply bind_inv in H as ([] & s3 & [= <-] & [= <-]).
    cbn [regs set_log set_regs]. apply fn_lookup_insert.
Qed.

(** X8.  [suspend] does not make the driver reject later tones.  A
    [playTone] after [suspend] passes the guard and streams every chunk
    as usual, start commands included, while the peripheral stays
    disabled: ENABLE still reads 0 when the tone returns. *)
Theorem playTone_after_suspend_not_rejected p (K fuel : nat)
    (frequency duration_ms volume : Z) (s s1 : Driver) :
  responsive p K -> (K <= fuel)%nat -> (Z.to_nat AUDIO_BUFFER_SIZE <= fuel)%nat ->
  initialized s = true -> suspend p fuel s = Ok tt s1 ->
  exists s2,
    playTone p fuel frequency duration_ms volume s1 = Ok tt s2 /\
    adds s1 s2 (tone_marks (chunk_sizes (tone_samples duration_ms))) /\
    regs s2 I2S_ENABLE = 0.
Proof.
  intros Hresp HK Hbuf Hinit Hs.
  destruct (suspend_result p fuel s s1 Hinit Hs) as [Hi1 He1].
  destruct (playTone_spec p K fuel frequency duration_ms volume s1 Hresp HK Hbuf Hi1)
    as ([] & s2 & E & _ & _ & Ha).
  exists s2. split; [exact E|]. split; [exact Ha|].
  rewrite <- He1. revert E.
  apply (preserves_playTone (fun s => regs s I2S_ENABLE) (fun r => r <> I2S_ENABLE));
    try discriminate; try reflexivity.
  intros r v s0 Hr. cbn [regs set_regs]. now apply fn_lookup_insert_ne.
Qed.

Lemma playTone_after_suspend_not_rejected_witness :
  exists s1 s2,
    suspend Reference.prompt 256 Reference.ready = Ok tt s1 /\
    playTone Reference.prompt 256 440 100 50 s1 = Ok tt s2 /\
    regs s2 I2S_ENABLE = 0.
Proof.
  destruct (suspend_spec Reference.prompt 256 0 Reference.ready eq_refl
              (prompt_raised InSTOPPED _ ltac:(discriminate)) ltac:(lia))
    as ([] & s1 & E1 & _).
  destruct (playTone_after_suspend_not_rejected Reference.prompt 1 256 440 100 50
              Reference.ready s1 prompt_responsive ltac:(lia) buffer_fits_256 eq_refl E1)
    as (s2 & E2 & _ & He).
  exists s1, s2. repeat split; assumption.
Defined.

(** ** begin and configureI2S *)

(** X9.  The wait for the high-frequency clock has no deadline either: if
    the clock-started event is never raised, a first [begin] does not
    return, however many polls it is given. *)
Theorem begin_never_returns_without_clock p (s : Driver) :
  initialized s = false -> never_raised p InHFCLKSTARTED s ->
  forall fuel : nat, begin p fuel s = OutOfFuel.
Proof.
  intros Hinit Hn fuel. unfold begin. unfold bind at 1. cbn [get]. rewrite Hinit.
  unfold bind at 1. cbn [println emit]. unfold bind at 1.
  unfold configureI2S. do 2 (unfold bind at 1; cbn [reg_write]). unfold bind at 1.
  rewrite wait_hfclk_never; [reflexivity | exact Hn].
Qed.

Lemma begin_never_returns_without_clock_witness :
  begin dead 1000 new_driver = OutOfFuel.
Proof.
  exact (begin_never_returns_without_clock dead new_driver eq_refl
           (fun k => eq_refl) 1000%nat).
Defined.

(** X10.  A first [begin], once the clock has started, leaves the
    peripheral configured as the header says: the three output pins bound
    to GPIO 3, 28 and 2, the data-in pin disconnected, all interrupts
    disabled, the mode registers set to the vendor's constants, the
    master clock and ratio registers set to the macros for 32 MHz / 32
    and ratio 64, and the peripheral enabled.  Those two macros have the
    value <nrf.h> defines; the values 0x70000000 and 2 written at the top
    of audio_i2s.cpp reach the registers only where the header defines
    none.  Every one of these registers is written while the peripheral
    is disabled: ENABLE is written 0 before the first of them and 1 after
    the last. *)
Theorem begin_configures_peripheral p (K fuel : nat) (s : Driver) :
  live p K InHFCLKSTARTED -> (K <= fuel)%nat -> initialized s = false ->
  exists s' t,
    begin p fuel s = Ok true s' /\
    log s' = log s ++ t /\
    setup_while_disabled true t = true /\
    regs s' PSEL_SCK = I2S_SCK_PIN /\
    regs s' PSEL_LRCK = I2S_LRCK_PIN /\
    regs s' PSEL_SDOUT = I2S_SDOUT_PIN /\
    regs s' PSEL_SDIN = 0xFFFFFFFF /\
    regs s' INTENCLR = 0xFFFFFFFF /\
    regs s' CONFIG_MODE = I2S_CONFIG_MODE_MODE_Master p /\
    regs s' CONFIG_SWIDTH = I2S_CONFIG_SWIDTH_SWIDTH_16Bit p /\
    regs s' CONFIG_ALIGN = I2S_CONFIG_ALIGN_ALIGN_Left p /\
    regs s' CONFIG_FORMAT = I2S_CONFIG_FORMAT_FORMAT_I2S p /\
    regs s' CONFIG_CHANNELS = I2S_CONFIG_CHANNELS_CHANNELS_Left p /\
    regs s' CONFIG_MCKEN = I2S_CONFIG_MCKEN_MCKEN_Enabled p /\
    regs s' CONFIG_TXEN = I2S_CONFIG_TXEN_TXEN_Enabled p /\
    regs s' CONFIG_RXEN = I2S_CONFIG_RXEN_RXEN_Disabled p /\
    regs s' CONFIG_MCKFREQ = I2S_CONFIG_MCKFREQ_MCKFREQ_32MDIV32 p /\
    regs s' CONFIG_RATIO = I2S_CONFIG_RATIO_RATIO_64X p /\
    regs s' I2S_ENABLE = 1 /\
    (forall v, nrf_MCKFREQ_32MDIV32 p = Some v -> regs s' CONFIG_MCKFREQ = v) /\
    (nrf_MCKFREQ_32MDIV32 p = None -> regs s' CONFIG_MCKFREQ = 0x70000000) /\
    (forall v, nrf_RATIO_64X p = Some v -> regs s' CONFIG_RATIO = v) /\
    (nrf_RATIO_64X p = None -> regs s' CONFIG_RATIO = 2).
Proof.
  intros Hlive HK Hinit.
  assert (H : twp (begin p fuel) s (fun b s' =>
    b = true /\ exists t, log s' = log s ++ t /\
    setup_while_disabled true t = true /\
    regs s' PSEL_SCK = I2S_SCK_PIN /\ regs s' PSEL_LRCK = I2S_LRCK_PIN /\
    regs s' PSEL_SDOUT = I2S_SDOUT_PIN /\ regs s' PSEL_SDIN = 0xFFFFFFFF /\
    regs s' INTENCLR = 0xFFFFFFFF /\
    regs s' CONFIG_MODE = I2S_CONFIG_MODE_MODE_Master p /\
    regs s' CONFIG_SWIDTH = I2S_CONFIG_SWIDTH_SWIDTH_16Bit p /\
    regs s' CONFIG_ALIGN = I2S_CONFIG_ALIGN_ALIGN_Left p /\
    regs s' CONFIG_FORMAT = I2S_CONFIG_FORMAT_FORMAT_I2S p /\
    regs s' CONFIG_CHANNELS = I2S_CONFIG_CHANNELS_CHANNELS_Left p /\
    regs s' CONFIG_MCKEN = I2S_CONFIG_MCKEN_MCKEN_Enabled p /\
    regs s' CONFIG_TXEN = I2S_CONFIG_TXEN_TXEN_Enabled p /\
    regs s' CONFIG_RXEN = I2S_CONFIG_RXEN_RXEN_Disabled p /\
    regs s' CONFIG_MCKFREQ = I2S_CONFIG_MCKFREQ_MCKFREQ_32MDIV32 p /\
    regs s' CONFIG_RATIO = I2S_CONFIG_RATIO_RATIO_64X p /\
    regs s' I2S_ENABLE = 1 /\
    (forall v, nrf_MCKFREQ_32MDIV32 p = Some v -> regs s' CONFIG_MCKFREQ = v) /\
    (nrf_MCKFREQ_32MDIV32 p = None -> regs s' CONFIG_MCKFREQ = 0x70000000) /\
    (forall v, nrf_RATIO_64X p = Some v -> regs s' CONFIG_RATIO = v) /\
    (nrf_RATIO_64X p = None -> regs s' CONFIG_RATIO = 2))).
  { destruct s as [b i pl fc r c l]. cbn [initialized] in Hinit. subst i.
    unfold begin. nstep. nstep. unfold configureI2S. apply twp_assoc. do 2 nstep.
    apply twp_assoc.
    apply twp_bind. eapply twp_mono; [apply (wait_hfclk_live p K); assumption|].
    cbn beta. intros _ [b1 i1 pl1 fc1 r1 c1 l1] ([Hb Hi Hp Hf Hr] & Hl).
    cbn [initialized playing audioBuffer firstCall regs log] in Hb, Hi, Hp, Hf, Hr, Hl.
    subst b1 i1 pl1 fc1 r1 l1.
    repeat first [nstep | apply twp_assoc].
    split; [reflexivity|]. eexists. split; [rewrite <- !app_assoc; reflexivity|].
    repeat split; intros;
      first [ transitivity (I2S_CONFIG_MCKFREQ_MCKFREQ_32MDIV32 p); [reflexivity|]
            | transitivity (I2S_CONFIG_RATIO_RATIO_64X p); [reflexivity|] ];
      unfold I2S_CONFIG_MCKFREQ_MCKFREQ_32MDIV32, I2S_CONFIG_RATIO_RATIO_64X;
      match goal with
      | H : nrf_MCKFREQ_32MDIV32 p = _ |- _ => rewrite H
      | H : nrf_RATIO_64X p = _ |- _ => rewrite H
      end; reflexivity. }
  destruct H as (b & s' & E & -> & t & H). exists s', t. split; [exact E | exact H].
Qed.

Lemma begin_configures_peripheral_witness :
  exists s',
    begin Reference.prompt 1 new_driver = Ok true s' /\
    regs s' PSEL_SCK = 3 /\ regs s' PSEL_SDIN = 0xFFFFFFFF /\
    regs s' CONFIG_MCKFREQ = 0x08000000 /\ regs s' I2S_ENABLE = 1.
Proof.
  destruct (begin_configures_peripheral Reference.prompt 1 1 new_driver
              (prompt_live InHFCLKSTARTED ltac:(discriminate)) ltac:(lia) eq_refl)
    as (s' & t & E & _ & _ & H1 & _ & _ & H4 & _ & _ & _ & _ & _ & _ & _ & _ & _
        & _ & _ & H5 & H6 & _).
  exists s'. split; [exact E|]. split; [exact H1|]. split; [exact H4|].
  split; [exact (H6 _ eq_refl) | exact H5].
Defined.

(** ** Chunks and sleeps of a tone *)

(** X11.  The transfers of a tone account for its length: every
    transfer [playTone] starts is of at least 1 and at most 256 sample
    slots (never an empty one), and the sizes of the transfers add up to
    the sample count of the clamped duration, [SAMPLE_RATE * D / 1000]. *)
Theorem playTone_chunks_add_up p (K fuel : nat) (frequency duration_ms volume : Z)
    (s : Driver) :
  responsive p K -> (K <= fuel)%nat -> (Z.to_nat AUDIO_BUFFER_SIZE <= fuel)%nat ->
  initialized s = true ->
  exists s' chunks,
    playTone p fuel frequency duration_ms volume s = Ok tt s' /\
    adds s s' (tone_marks chunks) /\
    Forall (fun c => 1 <= c <= AUDIO_BUFFER_SIZE) chunks /\
    total_of chunks
      = SAMPLE_RATE * Arduino.constrain duration_ms 1 MAX_TONE_DURATION_MS / 1000.
Proof.
  intros Hresp HK Hbuf Hinit.
  destruct (playTone_spec p K fuel frequency duration_ms volume s Hresp HK Hbuf Hinit)
    as ([] & s' & E & _ & _ & Ha).
  pose proof (tone_samples_range duration_ms) as Hr.
  exists s', (chunk_sizes (tone_samples duration_ms)).
  split; [exact E|]. split; [exact Ha|].
  split; [apply chunk_sizes_bounds; lia | rewrite chunk_sizes_sum by lia; reflexivity].
Qed.

Lemma playTone_chunks_add_up_witness :
  exists s' chunks,
    playTone Reference.prompt 256 440 1000 50 Reference.ready = Ok tt s' /\
    adds Reference.ready s' (tone_marks chunks) /\
    total_of chunks = 16000.
Proof.
  destruct (playTone_chunks_add_up Reference.prompt 1 256 440 1000 50 Reference.ready
              prompt_responsive ltac:(lia) buffer_fits_256 eq_refl)
    as (s' & chunks & E & Ha & _ & Ht).
  exists s', chunks. repeat split; assumption.
Defined.

(** X12.  The sleep of a chunk covers its play time and exceeds it by at
    most 2 ms: for every sample count of the parameter's type, the
    [expectedDurationMs + 1] milliseconds the code sleeps are more than
    [sampleCount / SAMPLE_RATE] seconds and at most that plus 2 ms. *)
Theorem chunk_sleep_covers_play_time (sampleCount : Z) :
  0 <= sampleCount < 2 ^ 16 ->
  sampleCount * 1000 < (expectedDurationMs sampleCount + 1) * SAMPLE_RATE /\
  (expectedDurationMs sampleCount + 1) * SAMPLE_RATE <= sampleCount * 1000 + 2 * SAMPLE_RATE.
Proof.
  intros Hn. rewrite expectedDurationMs_floor by exact Hn. unfold SAMPLE_RATE.
  pose proof (Z.div_mod (sampleCount * 1000) 16000 ltac:(lia)) as Hdm.
  pose proof (Z.mod_pos_bound (sampleCount * 1000) 16000 ltac:(lia)) as Hm.
  assert (0 <= sampleCount * 1000 / 16000) by (apply Z.div_pos; lia).
  lia.
Qed.

Lemma chunk_sleep_covers_play_time_witness :
  100 * 1000 < (expectedDurationMs 100 + 1) * SAMPLE_RATE /\
  (expectedDurationMs 100 + 1) * SAMPLE_RATE <= 100 * 1000 + 2 * SAMPLE_RATE.
Proof. exact (chunk_sleep_covers_play_time 100 ltac:(lia)). Defined.

Lemma slept_app (a b : list Event) : slept (a ++ b) = slept a + slept b.
Proof.
  induction a as [|e a IH]; [reflexivity|].
  destruct e; cbn [app]; unfold slept in *; cbn [foldr]; rewrite IH; lia.
Qed.

Lemma sleeps_bind {A B} (n n1 n2 : Z) (m : M A) (k : A -> M B) :
  sleeps n1 m -> (forall a, sleeps n2 (k a)) -> n = n1 + n2 -> sleeps n (bind m k).
Proof.
  intros Hm Hk -> s b s' H. apply bind_inv in H as (a & s1 & H1 & H2).
  destruct (Hm _ _ _ H1) as (t1 & L1 & S1). destruct (Hk a _ _ _ H2) as (t2 & L2 & S2).
  exists (t1 ++ t2). split; [rewrite L2, L1; now rewrite app_assoc|].
  rewrite slept_app. lia.
Qed.

Lemma sleeps_bind_yields {A B} (R : A -> Prop) (n n1 n2 : Z) (m : M A) (k : A -> M B) :
  sleeps n1 m -> yields R m -> (forall a, R a -> sleeps n2 (k a)) -> n = n1 + n2 ->
  sleeps n (bind m k).
Proof.
  intros Hm Hy Hk -> s b s' H. apply bind_inv in H as (a & s1 & H1 & H2).
  destruct (Hm _ _ _ H1) as (t1 & L1 & S1).
  destruct (Hk a (Hy _ _ _ H1) _ _ _ H2) as (t2 & L2 & S2).
  exists (t1 ++ t2). split; [rewrite L2, L1; now rewrite app_assoc|].
  rewrite slept_app. lia.
Qed.

Lemma sleeps_silent {A} (n : Z) (m : M A) :
  (forall s a s', m s = Ok a s' -> log s' = log s) -> n = 0 -> sleeps n m.
Proof.
  intros Hm -> s a s' H. exists []. split; [rewrite (Hm _ _ _ H); now rewrite app_nil_r|].
  reflexivity.
Qed.

Lemma sleeps_emit (n : Z) (e : Event) : n = slept [e] -> sleeps n (emit e).
Proof. intros -> s a s' [= _ <-]. now exists [e]. Qed.

Lemma sleeps_reg_write (n : Z) (r : Reg) (v : Z) : n = 0 -> sleeps n (reg_write r v).
Proof. intros -> s a s' [= _ <-]. now exists [EvRegWrite r v]. Qed.

Lemma sleeps_if {A} (n : Z) (b : bool) (m1 m2 : M A) :
  sleeps n m1 -> sleeps n m2 -> sleeps n (if b then m1 else m2).
Proof. now destruct b. Qed.

Lemma sleeps_bind_0 {A B} (m : M A) (k : A -> M B) :
  sleeps 0 m -> (forall a, sleeps 0 (k a)) -> sleeps 0 (bind m k).
Proof. intros Hm Hk. now apply (sleeps_bind 0 0 0). Qed.

Lemma sleeps_bind_l {A B} (n : Z) (m : M A) (k : A -> M B) :
  sleeps 0 m -> (forall a, sleeps n (k a)) -> sleeps n (bind m k).
Proof. intros Hm Hk. now apply (sleeps_bind n 0 n). Qed.

Lemma sleeps_bind_r {A B} (n : Z) (m : M A) (k : A -> M B) :
  sleeps n m -> (forall a, sleeps 0 (k a)) -> sleeps n (bind m k).
Proof. intros Hm Hk. apply (sleeps_bind n n 0); auto. lia. Qed.

Ltac silent_leaf :=
  apply sleeps_silent;
  [ let H := fresh in intros ? ? ? H;
    first [ injection H as _ <-; reflexivity | discriminate H ]
  | reflexivity ].

(** Code that does not sleep. *)
Ltac sleepy :=
  repeat lazymatch goal with
    | |- sleeps 0 (bind _ _) => apply sleeps_bind_0; [ | intros ? ]
    | |- sleeps 0 (if _ then _ else _) => apply sleeps_if
    | |- sleeps 0 (emit _) => apply sleeps_emit; reflexivity
    | |- sleeps 0 yield => apply sleeps_emit; reflexivity
    | |- sleeps 0 (print _) => apply sleeps_emit; reflexivity
    | |- sleeps 0 (println _) => apply sleeps_emit; reflexivity
    | |- sleeps 0 (reg_write _ _) => apply sleeps_reg_write; reflexivity
    | |- sleeps 0 (ret _) => silent_leaf
    | |- sleeps 0 (reg_read _) => silent_leaf
    | |- sleeps 0 (observe _ _) => silent_leaf
    | |- sleeps 0 (millis _) => silent_leaf
    | |- sleeps 0 (get _) => silent_leaf
    | |- sleeps 0 (modify _) => silent_leaf
    | |- sleeps 0 out_of_fuel => silent_leaf
    end.

Lemma sleeps_store (i v : Z) : sleeps 0 (store_sample i v).
Proof.
  apply sleeps_silent; [|reflexivity]. intros s a s'. unfold store_sample.
  destruct (_ && _); [intros [= _ <-]; reflexivity | discriminate].
Qed.

Lemma sleeps_wait_event p (fuel : nat) (ev : Input) (timeout : Z) (msg : string) :
  sleeps 0 (wait_event p fuel ev timeout msg).
Proof. induction fuel as [|fuel IH]; cbn [wait_event]; sleepy. exact IH. Qed.

Lemma sleeps_generateTone_loop p (fuel : nat) :
  forall frequency samples amplitude i peakSample,
  sleeps 0 (generateTone_loop p fuel frequency samples amplitude i peakSample).
Proof.
  induction fuel as [|fuel IH]; intros; cbn [generateTone_loop]; cbv zeta; sleepy.
  - apply sleeps_store.
  - apply IH.
Qed.

Lemma sleeps_generateTone p (fuel : nat) (frequency samples volume : Z) :
  sleeps 0 (generateTone p fuel frequency samples volume).
Proof. unfold generateTone. cbv zeta. sleepy. apply sleeps_generateTone_loop. Qed.

Lemma sleeps_startTransfer p (n : Z) : sleeps 0 (startTransfer p n).
Proof. unfold startTransfer. sleepy. Qed.

Lemma wait_event_fetched p (fuel : nat) (timeout : Z) (msg : string) :
  always_fetched p ->
  yields (fun b => b = true) (wait_event p fuel InTXPTRUPD timeout msg).
Proof.
  intros Hf s b s' H. destruct fuel as [|fuel]; [discriminate|].
  cbn [wait_event] in H. unfold bind at 1 in H. cbn [observe] in H.
  pose proof (Hf (cursor s InTXPTRUPD)) as Hne. apply Z.eqb_neq in Hne.
  rewrite Hne in H. now injection H as <- _.
Qed.

Lemma sleeps_waitForCompletion p (fuel : nat) (n : Z) :
  always_fetched p -> 0 <= n < 2 ^ 16 ->
  sleeps (expectedDurationMs n + 1) (waitForCompletion p fuel n).
Proof.
  intros Hf Hn. unfold waitForCompletion. cbv zeta.
  assert (Hsmall : u32 (expectedDurationMs n + 1) = expectedDurationMs n + 1).
  { apply u32_small. rewrite expectedDurationMs_floor by exact Hn. unfold SAMPLE_RATE.
    assert (0 <= n * 1000 / 16000) by (apply Z.div_pos; lia).
    assert (n * 1000 / 16000 <= 4096) by (apply Z.div_le_upper_bound; lia).
    lia. }
  rewrite Hsmall.
  apply (sleeps_bind _ 0 (expectedDurationMs n + 1)); [sleepy | intros now | lia].
  apply (sleeps_bind_yields (fun b => b = true) _ 0 (expectedDurationMs n + 1));
    [apply sleeps_wait_event | now apply wait_event_fetched | | lia].
  intros fetched ->.
  apply (sleeps_bind _ 0 (expectedDurationMs n + 1)); [sleepy | intros _ | lia].
  apply (sleeps_bind _ (expectedDurationMs n + 1) 0);
    [apply sleeps_emit; unfold slept; cbn [foldr]; lia | intros _ | lia].
  sleepy. apply sleeps_wait_event.
Qed.

(** The sleep [playTone] asks for over the chunks of a tone. *)
Lemma sleeps_playTone_loop p (fuel n : nat) (frequency volume : Z) :
  always_fetched p ->
  forall total : Z, 0 <= total < 2 ^ 32 ->
  sleeps (total_of (map (fun c => expectedDurationMs c + 1) (chunk_sizes total)))
         (playTone_loop p fuel n frequency volume total).
Proof.
  intros Hf. induction n as [|n IH]; intros total Ht; cbn [playTone_loop].
  - destruct (Z.gtb_spec total 0); [intros s a s' H0; discriminate|].
    assert (total = 0) by lia. subst total. change (sleeps 0 (ret tt)). sleepy.
  - destruct (Z.gtb_spec total 0) as [Hpos|Hz].
    2:{ assert (total = 0) by lia. subst total. change (sleeps 0 (ret tt)). sleepy. }
    cbv zeta. unfold Arduino.min.
    assert (Hmin : (if total <? AUDIO_BUFFER_SIZE then total else AUDIO_BUFFER_SIZE)
                   = Z.min total AUDIO_BUFFER_SIZE).
    { destruct (Z.ltb_spec total AUDIO_BUFFER_SIZE); lia. }
    rewrite Hmin. set (chunk := Z.min total AUDIO_BUFFER_SIZE).
    assert (Hchunk : 0 < chunk <= 256) by (unfold chunk, AUDIO_BUFFER_SIZE; lia).
    rewrite (u16_small chunk) by lia.
    rewrite (u32_small (total - chunk)) by (unfold chunk, AUDIO_BUFFER_SIZE; lia).
    rewrite (chunk_sizes_step total Hpos). fold chunk. cbn [map].
    change (total_of (?x :: ?l)) with (x + total_of l).
    eapply (sleeps_bind _ 0 _); [apply sleeps_generateTone | intros _ | symmetry; apply Z.add_0_l].
    eapply (sleeps_bind _ 0 _); [apply sleeps_startTransfer | intros _ | symmetry; apply Z.add_0_l].
    eapply sleeps_bind; [apply sleeps_waitForCompletion; [exact Hf | lia] | intros _ | reflexivity].
    apply IH. unfold chunk, AUDIO_BUFFER_SIZE. lia.
Qed.

Lemma map_replicate_eq {A B} (g : A -> B) (n : nat) (x : A) :
  map g (replicate n x) = replicate n (g x).
Proof. induction n as [|n IH]; [reflexivity|]. cbn. now rewrite IH. Qed.

Lemma tone_sleep_total (D : Z) :
  0 <= D ->
  total_of (map (fun c => expectedDurationMs c + 1) (chunk_sizes (16 * D)))
  = D + Z.of_nat (length (chunk_sizes (16 * D))).
Proof.
  intros HD. unfold chunk_sizes, AUDIO_BUFFER_SIZE.
  assert (Hd : 16 * D / 256 = D / 16).
  { change 256 with (16 * 16). apply Z.div_mul_cancel_l; lia. }
  assert (Hm : (16 * D) mod 256 = 16 * (D mod 16)).
  { change 256 with (16 * 16). apply Z.mul_mod_distr_l; lia. }
  rewrite Hd, Hm.
  pose proof (Z.div_mod D 16 ltac:(lia)) as Hdm.
  pose proof (Z.mod_pos_bound D 16 ltac:(lia)) as Hr.
  assert (0 <= D / 16) by (apply Z.div_pos; lia).
  rewrite map_app, total_of_app, length_app, length_replicate, Nat2Z.inj_add.
  rewrite map_replicate_eq, total_of_replicate, Z2Nat.id by lia.
  change (expectedDurationMs 256 + 1) with 17.
  destruct (Z.eqb_spec (16 * (D mod 16)) 0) as [E|E]; cbn [map length total_of foldr Z.of_nat].
  - lia.
  - rewrite expectedDurationMs_floor by lia. unfold SAMPLE_RATE.
    replace (16 * (D mod 16) * 1000) with ((D mod 16) * 16000) by lia.
    rewrite Z.div_mul by lia. lia.
Qed.

(** X13.  When every buffer is fetched at once, the milliseconds of
    [delay] a tone asks for are exactly its clamped duration plus one per
    chunk: never less than the duration requested (after clamping), and
    more by the number of chunks only. *)
Theorem playTone_sleeps_duration_plus_chunks p (K fuel : nat)
    (frequency duration_ms volume : Z) (s : Driver) :
  always_fetched p -> live p K InSTOPPED ->
  (K < fuel)%nat -> (Z.to_nat AUDIO_BUFFER_SIZE <= fuel)%nat ->
  initialized s = true ->
  exists s' t,
    playTone p fuel frequency duration_ms volume s = Ok tt s' /\
    log s' = log s ++ t /\
    slept t = Arduino.constrain duration_ms 1 MAX_TONE_DURATION_MS
              + Z.of_nat (length (chunk_sizes (tone_samples duration_ms))) /\
    Arduino.constrain duration_ms 1 MAX_TONE_DURATION_MS <= slept t.
Proof.
  intros Hf Hlive HK Hbuf Hinit.
  assert (Hresp : responsive p (S K)).
  { split.
    - intros k. exists O. split; [lia|]. rewrite Nat.add_0_r. apply Hf.
    - intros k. destruct (Hlive k) as (j & Hj & H). exists j. split; [lia | exact H]. }
  destruct (playTone_spec p (S K) fuel frequency duration_ms volume s Hresp
              ltac:(lia) Hbuf Hinit) as ([] & s' & E & _ & _ & _).
  pose proof (constrain_range duration_ms 1 MAX_TONE_DURATION_MS
                ltac:(unfold MAX_TONE_DURATION_MS; lia)) as Hc.
  pose proof E as E0. unfold playTone in E0.
  apply bind_inv in E0 as (init & s0 & [= <- <-] & E0).
  rewrite Hinit in E0. cbn [negb] in E0. cbv zeta in E0. rewrite playTone_total in E0.
  match type of E0 with
  | ?m s = _ =>
      assert (Hs : sleeps (Arduino.constrain duration_ms 1 MAX_TONE_DURATION_MS
                           + Z.of_nat (length (chunk_sizes (tone_samples duration_ms)))) m)
  end.
  { rewrite tone_samples_eq, <- tone_sleep_total by lia. rewrite <- tone_samples_eq.
    do 7 (apply sleeps_bind_l; [sleepy | intros _]).
    apply sleeps_bind_r; [ | intros _; sleepy].
    apply sleeps_playTone_loop; [exact Hf|].
    pose proof (tone_samples_range duration_ms). lia. }
  destruct (Hs _ _ _ E0) as (t & Hl & Ht).
  exists s', t. split; [exact E|]. split; [exact Hl|]. split; [exact Ht | lia].
Qed.

Lemma prompt_always_fetched : always_fetched Reference.prompt.
Proof. intros k. discriminate. Qed.

Lemma playTone_sleeps_duration_plus_chunks_witness :
  exists s' t,
    playTone Reference.prompt 256 440 1000 50 Reference.ready = Ok tt s' /\
    log s' = t /\ slept t = 1063.
Proof.
  destruct (playTone_sleeps_duration_plus_chunks Reference.prompt 1 256 440 1000 50
              Reference.ready prompt_always_fetched (prompt_live InSTOPPED ltac:(discriminate))
              ltac:(lia) buffer_fits_256 eq_refl) as (s' & t & E & Hl & Ht & _).
  exists s', t. split; [exact E|]. split; [exact Hl | exact Ht].
Defined.

(** ** The second wait of waitForCompletion *)

(** X14.  If the buffer was fetched but the STOPPED event does not appear
    within the 100 ms deadline, [waitForCompletion] has slept and has
    commanded the stop, then logs the error and returns from inside its
    second polling loop: the STOPPED event is not cleared and the chunk is
    not reported complete. *)
Theorem waitForCompletion_stop_timeout p (fuel j k : nat) (sampleCount : Z) (s : Driver) :
  0 <= sampleCount < 2 ^ 16 ->
  fetched_after p s j -> stop_times_out p s j k ->
  (j < fuel)%nat -> (k < fuel)%nat ->
  exists s',
    waitForCompletion p fuel sampleCount s = Ok tt s' /\
    log s' = log s ++ replicate j EvYield ++
      [EvRegWrite EVENTS_TXPTRUPD 0;
       EvDelay (expectedDurationMs sampleCount + 1);
       EvSerial (Txt "Chunk playback ms: ") false;
       EvSerial (Dec (expectedDurationMs sampleCount)) true;
       EvRegWrite TASKS_STOP 1] ++
      replicate k EvYield ++
      timeout_report "ERROR: I2S STOPPED timeout!" s /\
    regs s' = <[TASKS_STOP := 1]> (<[EVENTS_TXPTRUPD := 0]> (regs s)).
Proof.
  intros Hn (Hclear & Hseen) (Hclear2 & Hzero2 & Hlate2) Hj Hk.
  assert (Hsmall : u32 (expectedDurationMs sampleCount + 1) = expectedDurationMs sampleCount + 1).
  { apply u32_small. rewrite expectedDurationMs_floor by exact Hn. unfold SAMPLE_RATE.
    assert (0 <= sampleCount * 1000 / 16000) by (apply Z.div_pos; lia).
    assert (sampleCount * 1000 / 16000 <= 4096) by (apply Z.div_le_upper_bound; lia).
    lia. }
  assert (H : twp (waitForCompletion p fuel sampleCount) s (fun _ s' =>
    log s' = log s ++ replicate j EvYield ++
      [EvRegWrite EVENTS_TXPTRUPD 0;
       EvDelay (expectedDurationMs sampleCount + 1);
       EvSerial (Txt "Chunk playback ms: ") false;
       EvSerial (Dec (expectedDurationMs sampleCount)) true;
       EvRegWrite TASKS_STOP 1] ++
      replicate k EvYield ++
      timeout_report "ERROR: I2S STOPPED timeout!" s /\
    regs s' = <[TASKS_STOP := 1]> (<[EVENTS_TXPTRUPD := 0]> (regs s)))).
  { unfold waitForCompletion. cbv zeta. rewrite Hsmall. step. apply twp_bind. eapply twp_mono.
    { apply (wait_event_seen p InTXPTRUPD _ _ j); [discriminate | | | exact Hj];
        cbn [cursor set_cursor];
        rewrite ?fn_lookup_insert, ?fn_lookup_insert_ne by discriminate; assumption. }
    cbn beta. cbn [log cursor set_cursor].
    intros b s1 (-> & [Hb1 Hi1 Hp1 Hf1 Hr1] & Hl1 & Hm1 & Ho1).
    rewrite fn_lookup_insert in Hm1.
    pose proof (Ho1 InSTOPPED ltac:(discriminate) ltac:(discriminate)) as Hc1.
    rewrite fn_lookup_insert_ne in Hc1 by discriminate.
    cbn [regs set_cursor] in Hr1.
    do 6 step. apply twp_bind. eapply twp_mono.
    { apply (wait_event_timeout p InSTOPPED _ _ k); [discriminate | | | | exact Hk];
        cbn [cursor set_cursor set_log set_regs];
        rewrite ?fn_lookup_insert, ?fn_lookup_insert_ne by discriminate;
        rewrite ?Hm1, ?Hc1.
      - replace (S (cursor s InMillis) + j)%nat with (cursor s InMillis + 1 + j)%nat by lia.
        exact Hclear2.
      - exact Hzero2.
      - replace (S (cursor s InMillis) + j)%nat with (cursor s InMillis + 1 + j)%nat by lia.
        exact Hlate2. }
    cbn beta. cbn [log regs set_log set_regs set_cursor].
    intros b s2 (-> & [Hb2 Hi2 Hp2 Hf2 Hr2] & Hl2). step.
    cbn [regs set_log set_regs set_cursor] in Hr2.
    split.
    - rewrite Hl2, Hl1. unfold timeout_report. cbn [regs set_log set_regs set_cursor].
      rewrite !fn_lookup_insert_ne by discriminate. rewrite Hr1.
      now rewrite <- !app_assoc.
    - rewrite Hr2, Hr1. reflexivity. }
  destruct H as ([] & s' & E & Hl & Hr). now exists s'.
Qed.

Lemma never_stopping_fetched : fetched_after never_stopping Reference.ready 0.
Proof. split; [intros i Hi; lia | discriminate]. Qed.

Lemma never_stopping_times_out : stop_times_out never_stopping Reference.ready 0 1.
Proof.
  split; [|split].
  - intros i Hi. assert (i = O) by lia. subst i. split; [reflexivity | discriminate].
  - reflexivity.
  - reflexivity.
Qed.

Lemma waitForCompletion_stop_timeout_witness :
  exists s',
    waitForCompletion never_stopping 2 256 Reference.ready = Ok tt s' /\
    log s' = [EvRegWrite EVENTS_TXPTRUPD 0; EvDelay 17;
              EvSerial (Txt "Chunk playback ms: ") false; EvSerial (Dec 16) true;
              EvRegWrite TASKS_STOP 1; EvYield;
              EvSerial (Txt "ERROR: I2S STOPPED timeout!") true;
              EvSerial (Txt "I2S ENABLE: ") false; EvSerial (Dec 0) true].
Proof.
  destruct (waitForCompletion_stop_timeout never_stopping 2 0 1 256 Reference.ready
              ltac:(lia) never_stopping_fetched never_stopping_times_out
              ltac:(lia) ltac:(lia)) as (s' & E & Hl & _).
  exists s'. split; [exact E | exact Hl].
Defined.

(** ** Melodies on the edge *)

Lemma play_notes_before_begin p (fuel : nat) (volume : Z) (notes : list (Z * Z)) :
  forall s : Driver, initialized s = false ->
  play_notes p fuel notes volume s =
    Ok tt (set_log (log s ++ concat (replicate (length notes)
                      [EvSerial (Txt "ERROR: I2S not initialized") true; EvDelay 20])) s).
Proof.
  induction notes as [|[f d] rest IH]; intros s Hinit.
  - cbn. unfold ret, set_log. rewrite app_nil_r. now destruct s.
  - cbn [play_notes]. unfold bind at 1. rewrite playTone_guard by exact Hinit.
    unfold bind at 1. cbn [delay emit]. rewrite IH by exact Hinit.
    unfold set_log. cbn [log audioBuffer initialized playing firstCall regs cursor].
    cbn [length replicate concat]. now rewrite <- !app_assoc.
Qed.

Lemma slept_refusals (n : nat) :
  slept (concat (replicate n [EvSerial (Txt "ERROR: I2S not initialized") true; EvDelay 20]))
  = 20 * Z.of_nat n.
Proof.
  induction n as [|n IH]; [reflexivity|].
  cbn [replicate concat]. rewrite slept_app, IH. unfold slept at 1. cbn [foldr]. lia.
Qed.

(** X15.  A melody on a driver that is not initialized plays nothing and
    writes no register, but it is not free: every note is refused with the
    diagnostic line and still followed by its 20 ms gap, so the call
    sleeps [20 * N] ms. *)
Theorem playMelody_before_begin_still_waits p (fuel : nat)
    (frequencies durations : list Z) (volume : Z) (s : Driver) :
  initialized s = false ->
  length frequencies = length durations ->
  (length durations <= 255)%nat -> (length durations <= fuel)%nat ->
  playMelody p fuel frequencies durations (Z.of_nat (length durations)) volume s =
    Ok tt (set_log (log s ++ concat (replicate (length durations)
                      [EvSerial (Txt "ERROR: I2S not initialized") true; EvDelay 20])) s) /\
  slept (concat (replicate (length durations)
           [EvSerial (Txt "ERROR: I2S not initialized") true; EvDelay 20]))
    = 20 * Z.of_nat (length durations).
Proof.
  intros Hinit Hlen Hn Hfuel. split; [|apply slept_refusals].
  unfold playMelody.
  etransitivity.
  { apply (playMelody_loop_notes p fuel frequencies durations _ volume
             ltac:(now rewrite Hlen) eq_refl ltac:(lia) fuel O s); lia. }
  rewrite !drop_0, play_notes_before_begin by exact Hinit.
  rewrite length_zip_with. now rewrite Hlen, Nat.min_id.
Qed.

Lemma playMelody_before_begin_still_waits_witness :
  playMelody Reference.silent 2 [440; 880] [100; 200] 2 50 new_driver =
    Ok tt (set_log [EvSerial (Txt "ERROR: I2S not initialized") true; EvDelay 20;
                    EvSerial (Txt "ERROR: I2S not initialized") true; EvDelay 20]
                   new_driver).
Proof.
  exact (proj1 (playMelody_before_begin_still_waits Reference.silent 2 [440; 880] [100; 200]
                  50 new_driver eq_refl eq_refl ltac:(cbn; lia) ltac:(cbn; lia))).
Defined.

Lemma playTone_returns p (K fuel : nat) (f d v : Z) (s : Driver) :
  responsive p K -> (K <= fuel)%nat -> (Z.to_nat AUDIO_BUFFER_SIZE <= fuel)%nat ->
  exists s', playTone p fuel f d v s = Ok tt s'.
Proof.
  intros Hresp HK Hbuf. destruct (initialized s) eqn:Hinit.
  - destruct (playTone_spec p K fuel f d v s Hresp HK Hbuf Hinit) as ([] & s' & E & _).
    now exists s'.
  - eexists. now apply playTone_guard.
Qed.

Lemma load_none (arr : list Z) (i : Z) (s : Driver) :
  arr !! Z.to_nat i = None -> load arr i s = OutOfBounds.
Proof. intros H. unfold load. now rewrite H. Qed.

Lemma bind_assoc {A B C} (m : M A) (f : A -> M B) (g : B -> M C) (s : Driver) :
  bind (bind m f) g s = bind m (fun a => bind (f a) g) s.
Proof. unfold bind. destruct (m s); reflexivity. Qed.

(** The loop of [playMelody] does not depend on [count] before it
    reaches it: a run to [count] is the run to any smaller [k] followed by
    the loop resumed at index [k]. *)
Lemma playMelody_loop_split p (fuel : nat) (frequencies durations : list Z)
    (count volume : Z) (k : nat) :
  Z.of_nat k <= count -> count <= 255 ->
  forall (j n i : nat) (s : Driver),
  (i + j = k)%nat -> (j <= n)%nat ->
  playMelody_loop p fuel n frequencies durations count volume (Z.of_nat i) s
  = (playMelody_loop p fuel n frequencies durations (Z.of_nat k) volume (Z.of_nat i) ;;
     playMelody_loop p fuel (n - j) frequencies durations count volume (Z.of_nat k)) s.
Proof.
  intros Hk Hc. induction j as [|j IH]; intros n i s Hij Hn.
  - assert (i = k) by lia. subst i. rewrite Nat.sub_0_r.
    unfold bind. destruct n; cbn [playMelody_loop]; now rewrite Z.ltb_irrefl.
  - destruct n as [|n]; [lia|]. cbn [playMelody_loop Nat.sub].
    destruct (Z.ltb_spec (Z.of_nat i) count) as [_|]; [|lia].
    destruct (Z.ltb_spec (Z.of_nat i) (Z.of_nat k)) as [_|]; [|lia].
    rewrite bind_assoc. apply bind_ext. intros f s1.
    rewrite bind_assoc. apply bind_ext. intros d s2.
    rewrite bind_assoc. apply bind_ext. intros _ s3.
    rewrite bind_assoc. apply bind_ext. intros _ s4.
    rewrite u8_small by lia.
    replace (Z.of_nat i + 1) with (Z.of_nat (S i)) by lia.
    apply IH; lia.
Qed.

(** With [count] within both arrays the loop plays the notes from its
    index on, each followed by the gap. *)
Lemma playMelody_loop_plays p (K fuel : nat) (frequencies durations : list Z)
    (volume : Z) (k : nat) :
  responsive p K -> (K <= fuel)%nat -> (Z.to_nat AUDIO_BUFFER_SIZE <= fuel)%nat ->
  (k <= length frequencies)%nat -> (k <= length durations)%nat -> (k <= 255)%nat ->
  forall (j n i : nat) (s : Driver),
  (i + j = k)%nat -> (j <= n)%nat -> initialized s = true ->
  twp (playMelody_loop p fuel n frequencies durations (Z.of_nat k) volume (Z.of_nat i)) s
      (fun _ s' => initialized s' = true /\
                   adds s s' (melody_marks (take j (drop i durations)))).
Proof.
  intros Hresp HK Hbuf Hf Hd Hk. induction j as [|j IH]; intros n i s Hij Hn Hinit.
  - assert (i = k) by lia. subst i.
    destruct n; cbn [playMelody_loop]; rewrite Z.ltb_irrefl; step;
      (split; [assumption|]; exists []; now rewrite app_nil_r).
  - destruct n as [|n]; [lia|]. cbn [playMelody_loop].
    destruct (Z.ltb_spec (Z.of_nat i) (Z.of_nat k)) as [_|]; [|lia].
    destruct (lookup_lt_is_Some_2 frequencies i ltac:(lia)) as [f Ef].
    destruct (lookup_lt_is_Some_2 durations i ltac:(lia)) as [d Ed].
    eapply twp_step; [apply (load_some _ _ f); rewrite Nat2Z.id; exact Ef|].
    eapply twp_step; [apply (load_some _ _ d); rewrite Nat2Z.id; exact Ed|].
    apply twp_bind. eapply twp_mono; [apply (playTone_spec p K); assumption|].
    cbn beta. intros _ s1 (Hi1 & _ & t1 & Hl1 & Hm1). step.
    rewrite u8_small by lia.
    replace (Z.of_nat i + 1) with (Z.of_nat (S i)) by lia.
    eapply twp_mono; [apply IH; [lia | lia | assumption]|].
    cbn beta. intros _ s2 (Hi2 & t2 & Hl2 & Hm2).
    split; [assumption|].
    cbn [log set_log] in Hl2. exists (t1 ++ [EvDelay 20] ++ t2). split.
    + rewrite Hl2, Hl1. now rewrite <- !app_assoc.
    + rewrite (drop_S _ _ _ Ed). cbn [take melody_marks flat_map].
      rewrite !marks_app, Hm1, Hm2. now rewrite <- app_assoc.
Qed.

(** X16.  [playMelody] does not check [count] against its arrays.  With a
    [count] above the length [k] of the shorter array, the call runs as
    the call with [count = k] does, which plays the [k] notes that are
    there, each followed by its gap, and then resumes the loop at index
    [k]; the first thing done there is the read of element [k], which is
    past the end of an array, and the call ends in that fault. *)
Theorem playMelody_reads_past_short_array p (K fuel : nat)
    (frequencies durations : list Z) (count volume : Z) (s : Driver) :
  responsive p K -> (K <= fuel)%nat -> (Z.to_nat AUDIO_BUFFER_SIZE <= fuel)%nat ->
  initialized s = true ->
  Z.of_nat (Nat.min (length frequencies) (length durations)) < count -> count <= 255 ->
  let k := Nat.min (length frequencies) (length durations) in
  exists s1,
    playMelody p fuel frequencies durations (Z.of_nat k) volume s = Ok tt s1 /\
    adds s s1 (melody_marks (take k durations)) /\
    playMelody p fuel frequencies durations count volume s
      = playMelody_loop p fuel (fuel - k) frequencies durations count volume
          (Z.of_nat k) s1 /\
    (frequencies !! k = None \/ durations !! k = None) /\
    (forall s2 : Driver,
       playMelody_loop p fuel (fuel - k) frequencies durations count volume
         (Z.of_nat k) s2 = OutOfBounds) /\
    playMelody p fuel frequencies durations count volume s = OutOfBounds.
Proof.
  intros Hresp HK Hbuf Hinit Hshort Hcount k. fold k in Hshort.
  assert (Hfuel : (k < fuel)%nat) by (unfold AUDIO_BUFFER_SIZE in Hbuf; lia).
  destruct (playMelody_loop_plays p K fuel frequencies durations volume k Hresp HK Hbuf
              ltac:(unfold k; lia) ltac:(unfold k; lia) ltac:(lia)
              k fuel O s ltac:(lia) ltac:(lia) Hinit)
    as ([] & s1 & E1 & _ & Ha).
  rewrite drop_0 in Ha.
  assert (Hnone : frequencies !! k = None \/ durations !! k = None).
  { destruct (Nat.min_spec (length frequencies) (length durations)) as [[_ Hm]|[_ Hm]];
      [left | right]; apply lookup_ge_None; fold k in Hm; lia. }
  assert (Hfault : forall s2 : Driver,
            playMelody_loop p fuel (fuel - k) frequencies durations count volume
              (Z.of_nat k) s2 = OutOfBounds).
  { intros s2. destruct (fuel - k)%nat as [|n] eqn:En; [lia|]. cbn [playMelody_loop].
    destruct (Z.ltb_spec (Z.of_nat k) count) as [_|]; [|lia].
    destruct (frequencies !! k) as [f|] eqn:Ef.
    - destruct Hnone as [Hn|Hn]; [discriminate|].
      unfold bind at 1. rewrite (load_some _ _ f) by now rewrite Nat2Z.id.
      unfold bind at 1. rewrite load_none; [reflexivity | now rewrite Nat2Z.id].
    - unfold bind at 1. rewrite load_none; [reflexivity | now rewrite Nat2Z.id]. }
  assert (Hsplit : playMelody p fuel frequencies durations count volume s
                   = playMelody_loop p fuel (fuel - k) frequencies durations count volume
                       (Z.of_nat k) s1).
  { unfold playMelody.
    etransitivity.
    { apply (playMelody_loop_split p fuel frequencies durations count volume k
               ltac:(lia) Hcount k fuel O s); lia. }
    unfold bind at 1. now rewrite E1. }
  exists s1. split; [exact E1|]. split; [exact Ha|]. split; [exact Hsplit|].
  split; [exact Hnone|]. split; [exact Hfault|].
  rewrite Hsplit. apply Hfault.
Qed.

Lemma playMelody_reads_past_short_array_witness :
  exists s1,
    playMelody Reference.prompt 256 [440; 880] [100] 1 50 Reference.ready = Ok tt s1 /\
    adds Reference.ready s1 (melody_marks [100]) /\
    playMelody Reference.prompt 256 [440; 880] [100] 2 50 Reference.ready = OutOfBounds.
Proof.
  destruct (playMelody_reads_past_short_array Reference.prompt 1 256 [440; 880] [100] 2 50
              Reference.ready prompt_responsive ltac:(lia) buffer_fits_256 eq_refl
              ltac:(cbn; lia) ltac:(lia))
    as (s1 & E1 & Ha & _ & _ & _ & Hoob).
  exists s1. split; [exact E1|]. split; [exact Ha | exact Hoob].
Defined.

(** ** More on the synthesis *)

Lemma s16_range (x : Z) : - 2 ^ 15 <= s16 x < 2 ^ 15.
Proof. unfold s16. pose proof (Z.mod_pos_bound (x + 2 ^ 15) (2 ^ 16) ltac:(lia)). lia. Qed.

Lemma s16_u16 (x : Z) : - 2 ^ 15 <= x < 2 ^ 15 -> s16 (u16 x) = x.
Proof.
  intros Hx. unfold s16, u16.
  rewrite Zplus_mod_idemp_l. rewrite Z.mod_small by lia. lia.
Qed.

Lemma sample_at_range p (amplitude frequency i : Z) :
  - 2 ^ 15 <= sample_at p amplitude frequency i < 2 ^ 15.
Proof. unfold sample_at, float_to_int16. apply s16_range. Qed.

(** X17.  Every slot [generateTone] writes holds a 16-bit pattern in the
    low half of the 32-bit word, the upper half being zero, and the
    pattern read back as [int16_t] is the sample that was computed: the
    store loses nothing of it. *)
Theorem generateTone_slot_round_trip p (fuel : nat) (frequency samples volume : Z)
    (s : Driver) :
  (Z.to_nat AUDIO_BUFFER_SIZE <= fuel)%nat ->
  length (audioBuffer s) = Z.to_nat AUDIO_BUFFER_SIZE ->
  exists s',
    generateTone p fuel frequency samples volume s = Ok tt s' /\
    forall i : Z, 0 <= i < Z.min samples AUDIO_BUFFER_SIZE ->
      exists x : Z,
        audioBuffer s' !! Z.to_nat i = Some x /\
        0 <= x < 2 ^ 16 /\
        s16 x = sample_at p (amplitude_of volume) frequency i.
Proof.
  intros Hfuel Hlen.
  destruct (generateTone_spec p fuel frequency samples volume s Hfuel)
    as ([] & s' & E & _ & _ & Hin & _).
  exists s'. split; [exact E|]. intros i Hi.
  eexists. split; [apply Hin; [exact Hi|]|].
  - rewrite Hlen. unfold AUDIO_BUFFER_SIZE in *. lia.
  - split; [unfold u16; apply Z.mod_pos_bound; lia|].
    apply s16_u16, sample_at_range.
Qed.

Lemma generateTone_slot_round_trip_witness :
  exists s',
    generateTone Reference.prompt 256 2000 6 100 Reference.ready = Ok tt s' /\
    exists x : Z,
      audioBuffer s' !! 5%nat = Some x /\ 0 <= x < 2 ^ 16 /\
      s16 x = sample_at Reference.prompt (amplitude_of 100) 2000 5.
Proof.
  destruct (generateTone_slot_round_trip Reference.prompt 256 2000 6 100 Reference.ready
              buffer_fits_256 eq_refl) as (s' & E & H).
  exists s'. split; [exact E|]. exact (H 5 ltac:(unfold AUDIO_BUFFER_SIZE; lia)).
Defined.

(** The angle of every sample of a tone of frequency 0 is zero, through
    the roundings of the code's own computation. *)
Lemma angle_at_frequency_zero p (i : Z) :
  rounds_zero p -> (angle_at p 0 i == 0)%Q.
Proof.
  intros Hz. unfold angle_at. cbv zeta.
  apply Hz, Hz.
  rewrite (proj2 (Hz (double_round p (2 * double_round p Arduino.PI) * inject_Z 0)%Q
                    (Qmult_0_r _))).
  apply Qmult_0_l.
Qed.

(** X18.  A tone of frequency 0 is silence at every volume.  The angle
    [2.0 * PI * 0 * t] the code computes is zero at every index, and on a
    platform whose roundings keep a zero and whose sine of zero is zero
    every written slot is 0. *)
Theorem generateTone_frequency_zero_silent p (fuel : nat) (samples volume : Z) (s : Driver) :
  rounds_zero p -> sin_zero p ->
  (Z.to_nat AUDIO_BUFFER_SIZE <= fuel)%nat ->
  length (audioBuffer s) = Z.to_nat AUDIO_BUFFER_SIZE ->
  exists s',
    generateTone p fuel 0 samples volume s = Ok tt s' /\
    forall i : Z, 0 <= i < Z.min samples AUDIO_BUFFER_SIZE ->
      (angle_at p 0 i == 0)%Q /\
      audioBuffer s' !! Z.to_nat i = Some 0.
Proof.
  intros Hz Hsin Hfuel Hlen.
  destruct (generateTone_spec p fuel 0 samples volume s Hfuel)
    as ([] & s' & E & _ & _ & Hin & _).
  exists s'. split; [exact E|]. intros i Hi.
  pose proof (angle_at_frequency_zero p i Hz) as Hangle.
  split; [exact Hangle|].
  rewrite Hin; [|exact Hi|rewrite Hlen; unfold AUDIO_BUFFER_SIZE in *; lia].
  unfold sample_at. rewrite float_to_int16_zero; [reflexivity|].
  apply product_round_zero; [exact Hz|]. rewrite (Hsin _ Hangle). apply Qmult_0_r.
Qed.

Lemma reference_sin_zero : sin_zero Reference.prompt.
Proof.
  intros x Hx. cbn. unfold Reference.sin_q. cbv zeta.
  assert (Hr : Qred (x - inject_Z (Qfloor (x / (2 * Reference.pi_q)))
                        * (2 * Reference.pi_q))%Q = 0%Q).
  { change 0%Q with (Qred 0). apply Qred_complete.
    assert (Hq : Qfloor (x / (2 * Reference.pi_q)) = 0).
    { rewrite (Qfloor_comp _ 0%Q); [reflexivity|].
      unfold Qdiv. rewrite (Qmult_comp _ _ Hx _ _ (Qeq_refl _)). apply Qmult_0_l. }
    rewrite Hq. unfold Qminus.
    transitivity (0 + - (inject_Z 0 * (2 * Reference.pi_q)))%Q;
      [apply Qplus_comp; [exact Hx | apply Qeq_refl] | reflexivity]. }
  rewrite Hr. reflexivity.
Qed.

Lemma generateTone_frequency_zero_silent_witness :
  exists s',
    generateTone Reference.prompt 256 0 1000 100 Reference.ready = Ok tt s' /\
    audioBuffer s' !! 200%nat = Some 0.
Proof.
  destruct (generateTone_frequency_zero_silent Reference.prompt 256 1000 100 Reference.ready
              reference_rounds_zero reference_sin_zero
              buffer_fits_256 eq_refl)
    as (s' & E & H).
  exists s'. split; [exact E|].
  exact (proj2 (H 200 ltac:(unfold AUDIO_BUFFER_SIZE; lia))).
Defined.

Lemma arduino_abs (x : Z) : Arduino.abs x = Z.abs x.
Proof. unfold Arduino.abs. destruct (Z.gtb_spec x 0); lia. Qed.

Lemma twp_conj {A} (m : M A) (s : Driver) (Q1 Q2 : A -> Driver -> Prop) :
  twp m s Q1 -> twp m s Q2 -> twp m s (fun a s' => Q1 a s' /\ Q2 a s').
Proof.
  intros (a & s1 & E1 & H1) (a' & s2 & E2 & H2). rewrite E1 in E2. injection E2 as <- <-.
  exists a, s1. auto.
Qed.

(** The invariant of the peak tracking: the value carried out of the loop
    is the running peak or a later sample, and no sample from [i] on is
    larger in magnitude. *)
Lemma generateTone_loop_peak p (frequency samples amplitude : Z) (k : nat) :
  forall (fuel : nat) (i peakSample : Z) (s : Driver),
  0 <= i ->
  Z.min samples AUDIO_BUFFER_SIZE - i <= Z.of_nat k ->
  (k <= fuel)%nat ->
  twp (generateTone_loop p fuel frequency samples amplitude i peakSample) s
      (fun r _ =>
         Z.abs peakSample <= Z.abs r /\
         (forall j, i <= j < Z.min samples AUDIO_BUFFER_SIZE ->
            Z.abs (sample_at p amplitude frequency j) <= Z.abs r) /\
         (r = peakSample \/
          exists j, i <= j < Z.min samples AUDIO_BUFFER_SIZE /\
                    r = sample_at p amplitude frequency j)).
Proof.
  induction k as [|k IH]; intros fuel i peak s Hi Hk Hfuel.
  - assert (Hc : (i <? samples) && (i <? AUDIO_BUFFER_SIZE) = false).
    { apply andb_false_iff. rewrite !Z.ltb_ge. lia. }
    destruct fuel; cbn [generateTone_loop]; rewrite Hc; step;
      (split; [lia|]; split; [intros; lia | now left]).
  - destruct ((i <? samples) && (i <? AUDIO_BUFFER_SIZE)) eqn:Hc.
    2:{ apply andb_false_iff in Hc. rewrite !Z.ltb_ge in Hc.
        destruct fuel; cbn [generateTone_loop];
          (destruct ((i <? samples) && (i <? AUDIO_BUFFER_SIZE)) eqn:Hc';
           [apply andb_true_iff in Hc'; rewrite !Z.ltb_lt in Hc'; lia|]);
          step; (split; [lia|]; split; [intros; lia | now left]). }
    apply andb_true_iff in Hc as Hc'. rewrite !Z.ltb_lt in Hc'. destruct Hc' as [Hs Hb].
    destruct fuel as [|fuel]; [lia|]. cbn [generateTone_loop]. rewrite Hc.
    cbv zeta.
    eapply twp_step; [apply store_sample_in_bounds; lia|].
    rewrite !arduino_abs.
    set (sample := sample_at p amplitude frequency i).
    set (peak' := if Z.abs sample >? Z.abs peak then sample else peak).
    assert (Hpk : Z.abs peak <= Z.abs peak' /\ Z.abs sample <= Z.abs peak' /\
                  (peak' = peak \/ peak' = sample)).
    { unfold peak'. destruct (Z.gtb_spec (Z.abs sample) (Z.abs peak)); lia. }
    assert (Hnext : u16 (i + 1) = i + 1).
    { apply u16_small. unfold AUDIO_BUFFER_SIZE in Hb. lia. }
    rewrite Hnext.
    assert (Hrest : forall s1,
              twp (generateTone_loop p fuel frequency samples amplitude (i + 1) peak') s1
                (fun r _ =>
                   Z.abs peak <= Z.abs r /\
                   (forall j, i <= j < Z.min samples AUDIO_BUFFER_SIZE ->
                      Z.abs (sample_at p amplitude frequency j) <= Z.abs r) /\
                   (r = peak \/
                    exists j, i <= j < Z.min samples AUDIO_BUFFER_SIZE /\
                              r = sample_at p amplitude frequency j))).
    { intros s1. eapply twp_mono; [apply IH; lia|].
      cbn beta. intros r _ (H1 & H2 & H3). split; [lia|]. split.
      - intros j Hj. destruct (Z.eq_dec j i) as [->|Hne]; [fold sample; lia|].
        apply H2. lia.
      - destruct H3 as [->|(j & Hj & ->)].
        + destruct Hpk as (_ & _ & [->| ->]); [now left|].
          right. exists i. split; [lia | reflexivity].
        + right. exists j. split; [lia | reflexivity]. }
    destruct (i <? 4); steps; apply Hrest.
Qed.

(** X19.  The peak [generateTone] reports at its end is a sample of
    largest magnitude among those it computed, or 0 when it computed none:
    the last five things printed are the peak line, no sample of the call
    exceeds the peak in magnitude, and the peak is 0 or one of the
    samples. *)
Theorem generateTone_reports_peak p (fuel : nat) (frequency samples volume : Z) (s : Driver) :
  (Z.to_nat AUDIO_BUFFER_SIZE <= fuel)%nat ->
  exists s' peak t,
    generateTone p fuel frequency samples volume s = Ok tt s' /\
    log s' = log s ++ t ++
      [EvSerial (Txt "Peak sample: ") false; EvSerial (Dec peak) false;
       EvSerial (Txt " (") false;
       EvSerial (Dec (Z.quot (Z.abs peak * 100) 32767)) false;
       EvSerial (Txt "% of max)") true] /\
    (forall j, 0 <= j < Z.min samples AUDIO_BUFFER_SIZE ->
       Z.abs (sample_at p (amplitude_of volume) frequency j) <= Z.abs peak) /\
    (peak = 0 \/
     exists j, 0 <= j < Z.min samples AUDIO_BUFFER_SIZE /\
               peak = sample_at p (amplitude_of volume) frequency j).
Proof.
  intros Hfuel.
  assert (H : twp (generateTone p fuel frequency samples volume) s (fun _ s' =>
    exists peak t,
      log s' = log s ++ t ++
        [EvSerial (Txt "Peak sample: ") false; EvSerial (Dec peak) false;
         EvSerial (Txt " (") false;
         EvSerial (Dec (Z.quot (Z.abs peak * 100) 32767)) false;
         EvSerial (Txt "% of max)") true] /\
      (forall j, 0 <= j < Z.min samples AUDIO_BUFFER_SIZE ->
         Z.abs (sample_at p (amplitude_of volume) frequency j) <= Z.abs peak) /\
      (peak = 0 \/
       exists j, 0 <= j < Z.min samples AUDIO_BUFFER_SIZE /\
                 peak = sample_at p (amplitude_of volume) frequency j))).
  { unfold generateTone. cbv zeta. fold (amplitude_of volume). step.
    assert (Hloop : forall s1 t1, log s1 = log s ++ t1 ->
      twp (peakSample <-
             generateTone_loop p fuel frequency samples (amplitude_of volume) 0 0;;
           print (Txt "Peak sample: ");; print (Dec peakSample);; print (Txt " (");;
           print (Dec (Z.quot (Arduino.abs peakSample * 100) 32767));;
           println (Txt "% of max)")) s1
        (fun _ s' =>
           exists peak t,
             log s' = log s ++ t ++
               [EvSerial (Txt "Peak sample: ") false; EvSerial (Dec peak) false;
                EvSerial (Txt " (") false;
                EvSerial (Dec (Z.quot (Z.abs peak * 100) 32767)) false;
                EvSerial (Txt "% of max)") true] /\
             (forall j, 0 <= j < Z.min samples AUDIO_BUFFER_SIZE ->
                Z.abs (sample_at p (amplitude_of volume) frequency j) <= Z.abs peak) /\
             (peak = 0 \/
              exists j, 0 <= j < Z.min samples AUDIO_BUFFER_SIZE /\
                        peak = sample_at p (amplitude_of volume) frequency j))).
    { intros s1 t1 Hl1. apply twp_bind. eapply twp_mono.
      { apply twp_conj.
        - apply (generateTone_loop_peak p _ _ _ (Z.to_nat AUDIO_BUFFER_SIZE));
            [lia | | exact Hfuel].
          rewrite Z2Nat.id by (unfold AUDIO_BUFFER_SIZE; lia). lia.
        - apply (generateTone_loop_spec p _ _ _ (Z.to_nat AUDIO_BUFFER_SIZE));
            [lia | | exact Hfuel].
          rewrite Z2Nat.id by (unfold AUDIO_BUFFER_SIZE; lia). lia. }
      cbn beta. intros peak s2 ((_ & Hmax & Hone) & ([_ _ (t2 & Hl2 & _)] & _)).
      rewrite arduino_abs. steps.
      exists peak, (t1 ++ t2). cbn [log set_log]. rewrite Hl2, Hl1.
      split; [now rewrite <- !app_assoc|]. split; [exact Hmax | exact Hone]. }
    destruct (firstCall s).
    - steps. eapply Hloop. cbn [log set_log set_firstCall].
      rewrite <- !app_assoc. reflexivity.
    - steps. apply (Hloop _ []). now rewrite app_nil_r. }
  destruct H as ([] & s' & E & peak & t & H). now exists s', peak, t.
Qed.

Lemma generateTone_reports_peak_witness :
  exists s' peak t,
    generateTone Reference.prompt 256 2000 6 100 Reference.ready = Ok tt s' /\
    log s' = t ++
      [EvSerial (Txt "Peak sample: ") false; EvSerial (Dec peak) false;
       EvSerial (Txt " (") false;
       EvSerial (Dec (Z.quot (Z.abs peak * 100) 32767)) false;
       EvSerial (Txt "% of max)") true].
Proof.
  destruct (generateTone_reports_peak Reference.prompt 256 2000 6 100 Reference.ready
              buffer_fits_256) as (s' & peak & t & E & Hl & _).
  exists s', peak, t. split; [exact E | exact Hl].
Defined.

(** ** The waveform across chunks *)

(** [generateTone] takes no offset: whatever was played before, it writes
    the samples of indices 0, 1, 2, ... *)
Lemma generateTone_result p (fuel : nat) (frequency samples volume : Z) (s s1 : Driver) :
  (Z.to_nat AUDIO_BUFFER_SIZE <= fuel)%nat ->
  generateTone p fuel frequency samples volume s = Ok tt s1 ->
  tone_post p frequency samples volume s s1.
Proof.
  intros Hfuel E.
  destruct (generateTone_spec p fuel frequency samples volume s Hfuel)
    as ([] & s1' & E' & H).
  rewrite E in E'. now injection E' as <-.
Qed.

(** Once the first [m] slots hold the first [m] samples of the tone, the
    loop of [playTone] keeps them so, however many chunks follow. *)
Lemma playTone_loop_keeps_samples p (fuel : nat) (frequency volume : Z) (m : Z) :
  (Z.to_nat AUDIO_BUFFER_SIZE <= fuel)%nat ->
  forall (n : nat) (total : Z) (s s' : Driver),
  playTone_loop p fuel n frequency volume total s = Ok tt s' ->
  length (audioBuffer s) = Z.to_nat AUDIO_BUFFER_SIZE ->
  (forall i, 0 <= i < m ->
     audioBuffer s !! Z.to_nat i
     = Some (u16 (sample_at p (amplitude_of volume) frequency i))) ->
  length (audioBuffer s') = Z.to_nat AUDIO_BUFFER_SIZE /\
  (forall i, 0 <= i < m ->
     audioBuffer s' !! Z.to_nat i
     = Some (u16 (sample_at p (amplitude_of volume) frequency i))).
Proof.
  intros Hfuel. induction n as [|n IH]; intros total s s' E Hlen Hinv.
  - cbn [playTone_loop] in E. destruct (total >? 0); [discriminate|].
    injection E as <-. now split.
  - cbn [playTone_loop] in E. destruct (total >? 0).
    2:{ injection E as <-. now split. }
    cbv zeta in E.
    apply bind_inv in E as ([] & s1 & E1 & E).
    apply bind_inv in E as ([] & s2 & E2 & E).
    apply bind_inv in E as ([] & s3 & E3 & E).
    apply (generateTone_result p fuel _ _ _ _ _ Hfuel) in E1 as (_ & Hlen1 & Hin & Hout).
    apply (preserves_startTransfer audioBuffer (fun _ => True)) in E2; auto.
    apply (preserves_waitForCompletion audioBuffer (fun _ => True)) in E3; auto.
    apply (IH _ _ _ E).
    + rewrite E3, E2. congruence.
    + intros i Hi. rewrite E3, E2.
      set (chunk := u16 (Arduino.min total AUDIO_BUFFER_SIZE)) in *.
      destruct (Z_lt_le_dec i (Z.min chunk AUDIO_BUFFER_SIZE)) as [Hlt|Hge].
      * apply Hin; [lia|]. rewrite Hlen. unfold AUDIO_BUFFER_SIZE in *. lia.
      * rewrite Hout by lia. now apply Hinv.
Qed.

(** X20.  Every chunk of a tone is synthesised from sample index 0: the
    synthesis is given the size of the chunk and no position in the tone.
    When [playTone] returns, whatever the duration, the buffer holds the
    samples of indices [0 .. min total 256 - 1] of the tone, [total]
    being its sample count: a last chunk of [c] samples has written the
    samples of indices below [c] again, not those that end the tone. *)
Theorem playTone_restarts_every_chunk p (K fuel : nat)
    (frequency duration_ms volume : Z) (s : Driver) :
  responsive p K -> (K <= fuel)%nat -> (Z.to_nat AUDIO_BUFFER_SIZE <= fuel)%nat ->
  initialized s = true ->
  length (audioBuffer s) = Z.to_nat AUDIO_BUFFER_SIZE ->
  exists s',
    playTone p fuel frequency duration_ms volume s = Ok tt s' /\
    adds s s' (tone_marks (chunk_sizes (tone_samples duration_ms))) /\
    forall i : Z, 0 <= i < Z.min (tone_samples duration_ms) AUDIO_BUFFER_SIZE ->
      audioBuffer s' !! Z.to_nat i
      = Some (u16 (sample_at p (amplitude_of volume) frequency i)).
Proof.
  intros Hresp HK Hbuf Hinit Hlen.
  destruct (playTone_spec p K fuel frequency duration_ms volume s Hresp HK Hbuf Hinit)
    as ([] & s' & E & _ & _ & Ha).
  exists s'. split; [exact E|]. split; [exact Ha|].
  pose proof (tone_samples_range duration_ms) as Hr.
  unfold playTone in E.
  apply bind_inv in E as (init & s0 & [= <- <-] & E). rewrite Hinit in E. cbn [negb] in E.
  cbv zeta in E. rewrite playTone_total in E.
  do 7 (apply bind_inv in E as ([] & ? & [= <-] & E)).
  apply bind_inv in E as ([] & s1 & E & [= <-]).
  cbn [audioBuffer set_playing].
  destruct fuel as [|n]; [unfold AUDIO_BUFFER_SIZE in Hbuf; lia|].
  cbn [playTone_loop] in E.
  destruct (Z.gtb_spec (tone_samples duration_ms) 0) as [_|]; [|lia].
  cbv zeta in E.
  apply bind_inv in E as ([] & s2 & E2 & E).
  apply bind_inv in E as ([] & s3 & E3 & E).
  apply bind_inv in E as ([] & s4 & E4 & E).
  apply (generateTone_result p _ _ _ _ _ _ Hbuf) in E2 as (_ & Hlen2 & Hin & _).
  apply (preserves_startTransfer audioBuffer (fun _ => True)) in E3; auto.
  apply (preserves_waitForCompletion audioBuffer (fun _ => True)) in E4; auto.
  cbn [audioBuffer set_playing set_log] in Hlen2, Hin.
  assert (Hchunk : u16 (Arduino.min (tone_samples duration_ms) AUDIO_BUFFER_SIZE)
                   = Z.min (tone_samples duration_ms) AUDIO_BUFFER_SIZE).
  { unfold Arduino.min, AUDIO_BUFFER_SIZE.
    destruct (Z.ltb_spec (tone_samples duration_ms) 256);
      [rewrite Z.min_l by lia | rewrite Z.min_r by lia]; apply u16_small; lia. }
  rewrite Hchunk in Hin.
  apply (playTone_loop_keeps_samples p (S n) frequency volume
           (Z.min (tone_samples duration_ms) AUDIO_BUFFER_SIZE) Hbuf _ _ _ _ E).
  - rewrite E4, E3. congruence.
  - intros i Hi. rewrite E4, E3. apply Hin.
    + unfold AUDIO_BUFFER_SIZE in *. lia.
    + rewrite Hlen. unfold AUDIO_BUFFER_SIZE in *. lia.
Qed.

Lemma playTone_restarts_every_chunk_witness :
  exists s',
    playTone Reference.prompt 256 440 1000 50 Reference.ready = Ok tt s' /\
    adds Reference.ready s' (tone_marks (replicate 62 256 ++ [128])) /\
    audioBuffer s' !! 255%nat
    = Some (u16 (sample_at Reference.prompt (amplitude_of 50) 440 255)).
Proof.
  destruct (playTone_restarts_every_chunk Reference.prompt 1 256 440 1000 50 Reference.ready
              prompt_responsive ltac:(lia) buffer_fits_256 eq_refl eq_refl)
    as (s' & E & Ha & H).
  exists s'. split; [exact E|]. split; [exact Ha|].
  exact (H 255 ltac:(vm_compute; split; [discriminate | reflexivity])).
Defined.
